(** * Task dependency scheduler of the task-validation tool

    A shallow embedding of [src/mastra/tools/task-validation.tool.ts]:
    the cycle detector, the critical-path calculator, the phase assigner,
    the execution-plan builder and the validation report, followed by the
    properties of the specification that concern them.

    Conventions of the embedding.
    - A JavaScript [Set<string>] is a [gset string]; a [Map<string, V>] that
      is only read through [get]/[has] is a [gmap string V]; the one map whose
      iteration order is observable ([phaseMap]) is an association list.
    - [estimatedHours] is a JavaScript number; the model takes integer hours
      ([Z]), on which the additions, comparisons and [Math.max] of the source
      are exact.
    - Recursive helpers are written with a [fuel] argument that bounds the
      depth of the call stack; [None] means the recursion did not return
      within that depth.  For each helper that always returns, a lemma gives
      a depth that is enough. *)

From stdpp Require Import gmap strings list fin_maps relations pretty.
From Stdlib Require Import ZArith Lia Ascii.

Local Open Scope string_scope.
Local Open Scope list_scope.
Local Open Scope Z_scope.

(** ** Data model *)

Inductive Category :=
  design | frontend | backend | devops | testing | documentation | research.
Inductive Priority := high | medium | low.
Inductive SkillLevel := junior | mid | senior.

Record Task := {
  id : string;
  title : string;
  description : string;
  category : Category;
  priority : Priority;
  estimatedHours : Z;
  skillLevel : SkillLevel;
  dependencies : list string;
  acceptanceCriteria : list string
}.

(** [for (const x of l) body(x)] over a state that the body may fail to
    return from. *)
Fixpoint for_of {A S : Type} (l : list A) (body : A → S → option S) (s : S)
  : option S :=
  match l with
  | [] => Some s
  | x :: l' => s' ← body x s; for_of l' body s'
  end.

(** [tasks.find(t => t.id === taskId)] *)
Definition find_task (tasks : list Task) (taskId : string) : option Task :=
  List.find (λ t, String.eqb (id t) taskId) tasks.

(** [new Map(tasks.map(t => [t.id, t]))]: a later entry with the same key
    replaces an earlier one. *)
Definition taskMap_of (tasks : list Task) : gmap string Task :=
  fold_left (λ m t, <[id t := t]> m) tasks ∅.

(** ** Cycle detector *)

(** [path.indexOf(x)], [-1] when absent. *)
Fixpoint indexOf (path : list string) (x : string) : Z :=
  match path with
  | [] => -1
  | y :: p =>
      if String.eqb y x then 0
      else let i := indexOf p x in if i <? 0 then -1 else i + 1
  end.

(** [path.slice(start)]: a negative start counts from the end. *)
Definition slice (path : list string) (start : Z) : list string :=
  if start <? 0
  then drop (Z.to_nat (Z.max (Z.of_nat (length path) + start) 0)) path
  else drop (Z.to_nat start) path.

Record DfsState := {
  dfs_visited : gset string;
  recursionStack : gset string;
  cycles : list (list string)
}.

Definition dfs_init : DfsState :=
  {| dfs_visited := ∅; recursionStack := ∅; cycles := [] |}.

Fixpoint dfs (fuel : nat) (tasks : list Task) (taskId : string)
    (path : list string) (st : DfsState) : option DfsState :=
  match fuel with
  | O => None
  | S fuel' =>
      if bool_decide (taskId ∈ recursionStack st) then
        let cycleStart := indexOf path taskId in
        Some {| dfs_visited := dfs_visited st;
                recursionStack := recursionStack st;
                cycles := cycles st ++ [slice path cycleStart ++ [taskId]] |}
      else if bool_decide (taskId ∈ dfs_visited st) then Some st
      else
        let st1 := {| dfs_visited := {[taskId]} ∪ dfs_visited st;
                      recursionStack := {[taskId]} ∪ recursionStack st;
                      cycles := cycles st |} in
        st2 ← match find_task tasks taskId with
              | Some task =>
                  for_of (dependencies task)
                    (λ dep s, dfs fuel' tasks dep (path ++ [taskId]) s) st1
              | None => Some st1
              end;
        Some {| dfs_visited := dfs_visited st2;
                recursionStack := recursionStack st2 ∖ {[taskId]};
                cycles := cycles st2 |}
  end.

(** One round of the loop over the tasks: a task not yet visited is the
    root of a traversal. *)
Definition dfs_root (fuel : nat) (tasks : list Task) (task : Task)
    (s : DfsState) : option DfsState :=
  if bool_decide (id task ∈ dfs_visited s) then Some s
  else dfs fuel tasks (id task) [] s.

Definition findCircularDependencies (fuel : nat) (tasks : list Task)
  : option (list (list string)) :=
  st ← for_of tasks (dfs_root fuel tasks) dfs_init;
  Some (cycles st).

(** ** Critical-path calculator *)

(** [xs.map(f)] where each call of [f] reads and updates a shared state. *)
Fixpoint map_calls {A B S : Type} (f : A → S → option (B * S))
    (l : list A) (s : S) : option (list B * S) :=
  match l with
  | [] => Some ([], s)
  | x :: l' =>
      '(y, s1) ← f x s;
      '(ys, s2) ← map_calls f l' s1;
      Some (y :: ys, s2)
  end.

(** [Math.max(0, ...xs)] *)
Definition math_max0 (xs : list Z) : Z := fold_left Z.max xs 0.

(** A string used as a condition is true when it is not empty. *)
Definition truthy (s : string) : bool :=
  match s with EmptyString => false | String _ _ => true end.

Section CriticalPath.
Variable taskMap : gmap string Task.

(** The closure [calculateTaskDuration]; [visited] is the set shared by all
    calls since the last [visited.clear()]. *)
Fixpoint calculateTaskDuration (fuel : nat) (taskId : string)
    (visited : gset string) : option (Z * gset string) :=
  match fuel with
  | O => None
  | S fuel' =>
      if bool_decide (taskId ∈ visited) then Some (0, visited)
      else
        let visited1 := {[taskId]} ∪ visited in
        match taskMap !! taskId with
        | None => Some (0, visited1)
        | Some task =>
            '(durs, visited2) ←
              map_calls (calculateTaskDuration fuel') (dependencies task)
                        visited1;
            Some (math_max0 durs + estimatedHours task, visited2)
        end
  end.

(** [visited.clear(); const duration = calculateTaskDuration(taskId)] *)
Definition duration_from_clear (fuel : nat) (taskId : string) : option Z :=
  fst <$> calculateTaskDuration fuel taskId ∅.

(** One round of a "keep the strictly greatest" loop: the loop over tasks
    and the loop over the dependencies in [buildPath] have the same body. *)
Definition pick_longer (fuel : nat) (taskId : string) (best : Z * string)
  : option (Z * string) :=
  duration ← duration_from_clear fuel taskId;
  Some (if fst best <? duration then (duration, taskId) else best).

(** The closure [buildPath]; [criticalPath.unshift] puts the id in front.
    [dfuel] is the depth given to the duration computations. *)
Fixpoint buildPath (dfuel fuel : nat) (taskId : string)
    (criticalPath : list string) : option (list string) :=
  match fuel with
  | O => None
  | S fuel' =>
      match taskMap !! taskId with
      | None => Some criticalPath
      | Some task =>
          let criticalPath1 := taskId :: criticalPath in
          if (0 <? length (dependencies task))%nat then
            '(maxDepDuration, criticalDep) ←
              for_of (dependencies task) (pick_longer dfuel) (0, "");
            if truthy criticalDep
            then buildPath dfuel fuel' criticalDep criticalPath1
            else Some criticalPath1
          else Some criticalPath1
      end
  end.
End CriticalPath.

Definition calculateCriticalPath (fuel : nat) (tasks : list Task)
  : option (list string) :=
  let taskMap := taskMap_of tasks in
  '(maxDuration, criticalTaskId) ←
    for_of tasks (λ task, pick_longer taskMap fuel (id task)) (0, "");
  if truthy criticalTaskId
  then buildPath taskMap fuel fuel criticalTaskId []
  else Some [].

(** ** Phase assigner *)

Record PhaseState := {
  phases : gmap string Z;
  ph_visited : gset string
}.

Definition phase_init : PhaseState := {| phases := ∅; ph_visited := ∅ |}.

Section PhaseAssigner.
Variable taskMap : gmap string Task.

Fixpoint assignPhase (fuel : nat) (taskId : string) (st : PhaseState)
  : option (Z * PhaseState) :=
  match fuel with
  | O => None
  | S fuel' =>
      match phases st !! taskId with
      | Some p => Some (p, st)
      | None =>
          if bool_decide (taskId ∈ ph_visited st) then Some (1, st)
          else
            let st1 := {| phases := phases st;
                          ph_visited := {[taskId]} ∪ ph_visited st |} in
            match taskMap !! taskId with
            | None => Some (1, st1)
            | Some task =>
                '(maxDepPhase, st2) ←
                  for_of (dependencies task)
                    (λ dep '(m, s),
                       '(p, s') ← assignPhase fuel' dep s;
                       Some (Z.max m p, s'))
                    (0, st1);
                let phase := maxDepPhase + 1 in
                Some (phase,
                      {| phases := <[taskId := phase]> (phases st2);
                         ph_visited := ph_visited st2 ∖ {[taskId]} |})
            end
      end
  end.
End PhaseAssigner.

Record OptimizedTask := {
  task_of : Task;          (* the spread [...task] *)
  phase : Z;
  canStartInParallel : bool
}.

(** [phases.get(id) || 1] *)
Definition phase_or_1 (phases : gmap string Z) (i : string) : Z :=
  match phases !! i with
  | Some p => if p =? 0 then 1 else p
  | None => 1
  end.

(** [phases.get(t.id) === phase] *)
Definition has_phase (phases : gmap string Z) (p : Z) (t : Task) : bool :=
  match phases !! id t with
  | Some q => q =? p
  | None => false
  end.

Definition annotate (phases : gmap string Z) (tasks : list Task) (task : Task)
  : OptimizedTask :=
  let phase := phase_or_1 phases (id task) in
  let samePhaseTasks := filter (λ t, has_phase phases phase t = true) tasks in
  {| task_of := task; phase := phase;
     canStartInParallel := (1 <? length samePhaseTasks)%nat |}.

Definition assign_all (fuel : nat) (tasks : list Task) : option PhaseState :=
  for_of tasks
    (λ task s, snd <$> assignPhase (taskMap_of tasks) fuel (id task) s)
    phase_init.

Definition optimizeTaskExecution (fuel : nat) (tasks : list Task)
  : option (list OptimizedTask) :=
  st ← assign_all fuel tasks;
  Some (map (annotate (phases st) tasks) tasks).

(** ** Execution-plan builder *)

(** The optional [constraints] object.  The input schema declares the four
    string arrays; [generateExecutionPlan] takes it as [any] and also reads
    a [teamSize]. *)
Record Constraints := {
  requiredCapabilities : option (list string);
  technicalConstraints : option (list string);
  integrationPoints : option (list string);
  performanceRequirements : option (list string);
  teamSize : option Z
}.

(** An entry of [phaseMap] is created empty and receives its first task in
    the same round of the loop, so a group is kept as its tasks in arrival
    order and is never empty when it is read. *)
Fixpoint phaseMap_push (m : list (Z * list OptimizedTask)) (t : OptimizedTask)
  : list (Z * list OptimizedTask) :=
  match m with
  | [] => [(phase t, [t])]
  | (q, ts) :: m' =>
      if q =? phase t then (q, ts ++ [t]) :: m'
      else (q, ts) :: phaseMap_push m' t
  end.

Definition group_by_phase (optimizedTasks : list OptimizedTask)
  : list (Z * list OptimizedTask) :=
  fold_left phaseMap_push optimizedTasks [].

(** [Math.max(...xs)] of a spread with at least one element; the empty
    spread, which the source never produces here, is outside the integers. *)
Definition math_max (xs : list Z) : option Z :=
  match xs with
  | [] => None
  | x :: xs' => Some (fold_left Z.max xs' x)
  end.

Definition category_name (c : Category) : string :=
  match c with
  | design => "design" | frontend => "frontend" | backend => "backend"
  | devops => "devops" | testing => "testing"
  | documentation => "documentation" | research => "research"
  end.

Global Instance Category_eq_dec : EqDecision Category.
Proof. solve_decision. Defined.

(** [[...new Set(xs)]]: distinct elements in order of first occurrence. *)
Fixpoint distinct_from {A} `{EqDecision A} (seen xs : list A) : list A :=
  match xs with
  | [] => []
  | x :: xs' =>
      if bool_decide (x ∈ seen) then distinct_from seen xs'
      else x :: distinct_from (x :: seen) xs'
  end.

(** [xs.join(sep)] *)
Definition join (sep : string) (xs : list string) : string :=
  String.concat sep xs.

Record PlanPhase := {
  pp_phase : Z;
  pp_tasks : list string;
  pp_estimatedHours : Z;
  pp_description : string
}.

Record ExecutionPlan := {
  plan_phases : list PlanPhase;
  totalPhases : nat;
  estimatedDuration : string
}.

Definition plan_phase_of (entry : Z * list OptimizedTask) : option PlanPhase :=
  let '(phaseNum, tasks) := entry in
  estimatedHours ← math_max (map (λ t, estimatedHours (task_of t)) tasks);
  let taskIds := map (λ t, id (task_of t)) tasks in
  let categories :=
    distinct_from [] (map (λ t, category (task_of t)) tasks) in
  Some {| pp_phase := phaseNum; pp_tasks := taskIds;
          pp_estimatedHours := estimatedHours;
          pp_description :=
            "Phase " +:+ pretty phaseNum +:+ ": "
              +:+ join ", " (map category_name categories) |}.

(** [constraints?.teamSize || 1] *)
Definition team_size (constraints : option Constraints) : Z :=
  match constraints ≫= teamSize with
  | Some n => if n =? 0 then 1 else n
  | None => 1
  end.

(** [Math.ceil(a / b)] on integers, [b] not zero. *)
Definition ceil_div (a b : Z) : Z := - ((- a) / b).

Definition generateExecutionPlan (optimizedTasks : list OptimizedTask)
    (constraints : option Constraints) : option ExecutionPlan :=
  phases ← mapM plan_phase_of (group_by_phase optimizedTasks);
  let teamSize := team_size constraints in
  let totalParallelHours :=
    fold_left (λ sum ph, sum + pp_estimatedHours ph) phases 0 in
  let estimatedDays := ceil_div totalParallelHours (teamSize * 8) in
  Some {| plan_phases := phases;
          totalPhases := length phases;
          estimatedDuration := pretty estimatedDays +:+ " days" |}.

(** ** Recommendations *)

Global Instance SkillLevel_eq_dec : EqDecision SkillLevel.
Proof. solve_decision. Defined.

(** [skillDistribution[level]]: a count, or [undefined] when no task has
    that level. *)
Definition skill_count (tasks : list Task) (level : SkillLevel) : option nat :=
  let n := length (filter (λ t, skillLevel t = level) tasks) in
  if (0 <? n)%nat then Some n else None.

(** [senior > junior + mid]: false as soon as one side is [undefined]. *)
Definition senior_heavy (tasks : list Task) : bool :=
  match skill_count tasks senior, skill_count tasks junior,
        skill_count tasks mid with
  | Some s, Some j, Some m => (j + m <? s)%nat
  | _, _, _ => false
  end.

Definition generateRecommendations (tasks : list Task) : list string :=
  let largeTasks := filter (λ t, 16 < estimatedHours t) tasks in
  let parallelTasks := filter (λ t, dependencies t = []) tasks in
  let testingTasks := filter (λ t, category t = testing) tasks in
  let developmentTasks :=
    filter (λ t, category t = frontend ∨ category t = backend) tasks in
  let docTasks := filter (λ t, category t = documentation) tasks in
  (if (0 <? length largeTasks)%nat
   then ["Consider breaking down " +:+ pretty (length largeTasks)
           +:+ " large tasks (>16 hours) into smaller chunks"]
   else [])
  ++ (if senior_heavy tasks
      then ["Consider delegating some tasks to junior/mid-level developers"]
      else [])
  ++ (if (1 <? length parallelTasks)%nat
      then [pretty (length parallelTasks)
              +:+ " tasks can be started in parallel"]
      else [])
  ++ (if (10 * length testingTasks <? 3 * length developmentTasks)%nat
      then ["Consider adding more testing tasks to ensure quality"]
      else [])
  ++ (if (length docTasks =? 0)%nat
      then ["Consider adding documentation tasks for better maintainability"]
      else []).

(** ** Validation report *)

Inductive IssueType := error | warning | info.

Global Instance IssueType_eq_dec : EqDecision IssueType.
Proof. solve_decision. Defined.

Record Issue := {
  type : IssueType;
  taskId : option string;
  message : string;
  suggestion : option string
}.

Record ValidationResults := {
  isValid : bool;
  totalHours : Z;
  criticalPath : list string;
  issues : list Issue;
  recommendations : list string
}.

Record Output := {
  validationResults : ValidationResults;
  optimizedTasks : list OptimizedTask;
  executionPlan : ExecutionPlan
}.

Record Context := {
  tasks : list Task;
  constraints : option Constraints
}.

(** The double-quote character of the message templates. *)
Definition dq : string := String "034"%char EmptyString.

(** [s.includes(sub)] *)
Fixpoint includes (s sub : string) : bool :=
  if String.prefix sub s then true
  else match s with
       | EmptyString => false
       | String _ s' => includes s' sub
       end.

(** [tasks.some(t => t.id === depId)] *)
Definition depExists (tasks : list Task) (depId : string) : bool :=
  existsb (λ t, String.eqb (id t) depId) tasks.

Section Execute.
(** [String.prototype.toLowerCase] is a library function (Unicode case
    mapping); the report is modelled for an arbitrary one. *)
Variable toLowerCase : string → string.

Definition mentions (text keyword : string) : bool :=
  includes (toLowerCase text) (toLowerCase keyword).

Definition constraint_issues (cs : option Constraints) (task : Task)
  : list Issue :=
  match cs ≫= technicalConstraints with
  | Some tcs =>
      if (0 <? length tcs)%nat then
        let hasConstraintViolation :=
          existsb (λ c, mentions (title task) c
                        || mentions (description task) c) tcs in
        if hasConstraintViolation then
          [{| type := warning; taskId := Some (id task);
              message := "Task " +:+ dq +:+ title task +:+ dq
                +:+ " may conflict with technical constraints";
              suggestion :=
                Some "Review task requirements against technical constraints"
           |}]
        else []
      else []
  | None => []
  end.

Definition dependency_issues (tasks : list Task) (task : Task) : list Issue :=
  flat_map
    (λ depId,
       if depExists tasks depId then []
       else
         [{| type := error; taskId := Some (id task);
             message := "Task " +:+ dq +:+ title task +:+ dq
               +:+ " depends on non-existent task " +:+ dq +:+ depId +:+ dq;
             suggestion :=
               Some "Remove invalid dependency or add the missing task" |}])
    (dependencies task).

Definition criteria_issues (task : Task) : list Issue :=
  if (length (acceptanceCriteria task) =? 0)%nat then
    [{| type := warning; taskId := Some (id task);
        message := "Task " +:+ dq +:+ title task +:+ dq
          +:+ " has no acceptance criteria";
        suggestion := Some "Add specific acceptance criteria for this task" |}]
  else [].

Definition task_issues (cs : option Constraints) (tasks : list Task)
    (task : Task) : list Issue :=
  constraint_issues cs task ++ dependency_issues tasks task
    ++ criteria_issues task.

Definition capability_issues (cs : option Constraints) (tasks : list Task)
  : list Issue :=
  match cs ≫= requiredCapabilities with
  | Some caps =>
      if (0 <? length caps)%nat then
        let missingCapabilities :=
          List.filter
            (λ capability,
               negb (existsb (λ task, mentions (title task) capability)
                             tasks))
            caps in
        if (0 <? length missingCapabilities)%nat then
          [{| type := warning; taskId := None;
              message := "Missing tasks for required capabilities: "
                +:+ join ", " missingCapabilities;
              suggestion :=
                Some "Add tasks to cover all required AI capabilities" |}]
        else []
      else []
  | None => []
  end.

Definition cycle_issue (cycle : list string) : Issue :=
  {| type := error; taskId := None;
     message := "Circular dependency detected: " +:+ join " -> " cycle;
     suggestion :=
       Some "Remove or restructure dependencies to eliminate cycles" |}.

Definition is_error (i : Issue) : bool := bool_decide (type i = error).

Definition execute (fuel : nat) (context : Context) : option Output :=
  let tasks := tasks context in
  let constraints := constraints context in
  let totalHours :=
    fold_left (λ sum task, sum + estimatedHours task) tasks 0 in
  let issues1 :=
    flat_map (task_issues constraints tasks) tasks
      ++ capability_issues constraints tasks in
  circularDeps ← findCircularDependencies fuel tasks;
  let issues := issues1 ++ map cycle_issue circularDeps in
  criticalPath ← calculateCriticalPath fuel tasks;
  optimizedTasks ← optimizeTaskExecution fuel tasks;
  executionPlan ← generateExecutionPlan optimizedTasks constraints;
  let recommendations := generateRecommendations tasks in
  Some {| validationResults :=
            {| isValid :=
                 (length (List.filter is_error issues) =? 0)%nat;
               totalHours := totalHours;
               criticalPath := criticalPath;
               issues := issues;
               recommendations := recommendations |};
          optimizedTasks := optimizedTasks;
          executionPlan := executionPlan |}.
End Execute.

(** * Properties *)

(** ** Loops *)

Lemma for_of_app {A S} (l1 l2 : list A) (body : A → S → option S) s :
  for_of (l1 ++ l2) body s = for_of l1 body s ≫= for_of l2 body.
Proof.
  revert s; induction l1 as [|x l1 IH]; intros s; simpl; [done|].
  destruct (body x s) as [s1|]; simpl; [apply IH|done].
Qed.

(** Invariant rule indexed by the elements already processed. *)
Lemma for_of_prefix_inv {A S} (P : list A → S → Prop)
    (body : A → S → option S) l s s' :
  for_of l body s = Some s' →
  P [] s →
  (∀ pre x suf s1 s2,
     l = pre ++ x :: suf → P pre s1 → body x s1 = Some s2 →
     P (pre ++ [x]) s2) →
  P l s'.
Proof.
  intros Hrun H0 Hstep.
  cut (∀ suf pre s1, l = pre ++ suf → P pre s1 →
         for_of suf body s1 = Some s' → P l s').
  { intros Hcut. by apply (Hcut l [] s). }
  induction suf as [|x suf IH]; intros pre s1 Hl HP Hr; simpl in Hr.
  - injection Hr as <-. by rewrite Hl, app_nil_r.
  - destruct (body x s1) as [s2|] eqn:Hb; simpl in Hr; [|done].
    apply (IH (pre ++ [x]) s2); [by rewrite <- app_assoc| |done].
    by eapply Hstep.
Qed.

(** Total-correctness rule: a loop whose body returns under the invariant
    returns. *)
Lemma for_of_total {A S} (P : S → Prop) (body : A → S → option S) l s :
  P s →
  (∀ x s1, x ∈ l → P s1 → ∃ s2, body x s1 = Some s2 ∧ P s2) →
  ∃ s', for_of l body s = Some s' ∧ P s'.
Proof.
  revert s; induction l as [|x l IH]; intros s HP Hstep; simpl.
  - eauto.
  - destruct (Hstep x s) as (s2 & -> & HP2); [set_solver|done|]. simpl.
    apply IH; [done|]. intros y s1 Hy. apply Hstep. set_solver.
Qed.

(** ** Resolving ids *)

Lemma find_task_Some tasks x t :
  find_task tasks x = Some t → id t = x ∧ t ∈ tasks.
Proof.
  unfold find_task. intros H. apply find_some in H as [Hin Heq].
  apply String.eqb_eq in Heq. split; [done|]. by apply list_elem_of_In.
Qed.

Lemma find_task_is_Some tasks x :
  is_Some (find_task tasks x) ↔ x ∈ map id tasks.
Proof.
  unfold find_task. induction tasks as [|t ts IH]; simpl.
  - split; [by intros [? ?]|]. by intros ?%elem_of_nil.
  - destruct (String.eqb_spec (id t) x) as [->|Hne].
    + split; [intros _; left|eauto].
    + rewrite IH. set_solver.
Qed.

Lemma find_task_None tasks x :
  find_task tasks x = None ↔ x ∉ map id tasks.
Proof.
  rewrite <- find_task_is_Some, eq_None_not_Some. done.
Qed.

Lemma taskMap_of_snoc tasks t :
  taskMap_of (tasks ++ [t]) = <[id t := t]> (taskMap_of tasks).
Proof. unfold taskMap_of. by rewrite fold_left_app. Qed.

Lemma taskMap_of_Some tasks x t :
  taskMap_of tasks !! x = Some t → id t = x ∧ t ∈ tasks.
Proof.
  induction tasks as [|u ts IH] using rev_ind.
  - unfold taskMap_of; simpl. by rewrite lookup_empty.
  - rewrite taskMap_of_snoc. destruct (decide (id u = x)) as [<-|Hne].
    + rewrite lookup_insert_eq. intros [= <-]. set_solver.
    + rewrite lookup_insert_ne by done. intros H%IH. set_solver.
Qed.

Lemma taskMap_of_is_Some tasks x :
  is_Some (taskMap_of tasks !! x) ↔ x ∈ map id tasks.
Proof.
  induction tasks as [|u ts IH] using rev_ind.
  - unfold taskMap_of; simpl. rewrite lookup_empty.
    split; [by intros [? ?]|]. by intros ?%elem_of_nil.
  - rewrite taskMap_of_snoc, map_app. simpl.
    destruct (decide (id u = x)) as [<-|Hne].
    + rewrite lookup_insert_eq. split; [set_solver|eauto].
    + rewrite lookup_insert_ne by done. rewrite IH. set_solver.
Qed.

Lemma taskMap_of_None tasks x :
  taskMap_of tasks !! x = None ↔ x ∉ map id tasks.
Proof.
  rewrite <- taskMap_of_is_Some, eq_None_not_Some. done.
Qed.

(** With unique ids the map and the linear search resolve an id to the same
    task, and every task is the one its id resolves to. *)
Lemma taskMap_of_unique tasks t :
  NoDup (map id tasks) → t ∈ tasks → taskMap_of tasks !! id t = Some t.
Proof.
  induction tasks as [|u ts IH] using rev_ind; [by intros _ ?%elem_of_nil|].
  rewrite map_app, taskMap_of_snoc. simpl.
  intros [Hnd [Hdisj _]]%NoDup_app Hin.
  apply elem_of_app in Hin as [Hin|Hin].
  - rewrite lookup_insert_ne; [by apply IH|].
    intros Heq. apply (Hdisj (id t)); [|set_solver].
    apply list_elem_of_fmap. eauto.
  - apply list_elem_of_singleton in Hin as ->. by rewrite lookup_insert_eq.
Qed.

Lemma find_task_unique tasks t :
  NoDup (map id tasks) → t ∈ tasks → find_task tasks (id t) = Some t.
Proof.
  unfold find_task.
  induction tasks as [|u ts IH]; [by intros _ ?%elem_of_nil|]. simpl.
  intros [Hnotin Hnd]%NoDup_cons Hin.
  destruct (String.eqb_spec (id u) (id t)) as [Heq|Hne].
  - apply elem_of_cons in Hin as [->|Hin]; [done|].
    exfalso. apply Hnotin. rewrite Heq. apply list_elem_of_fmap. eauto.
  - apply elem_of_cons in Hin as [->|Hin]; [done|]. by apply IH.
Qed.

Lemma taskMap_of_find_task tasks x :
  NoDup (map id tasks) → taskMap_of tasks !! x = find_task tasks x.
Proof.
  intros Hnd. destruct (find_task tasks x) as [t|] eqn:Hf.
  - apply find_task_Some in Hf as [<- Hin]. by apply taskMap_of_unique.
  - apply find_task_None in Hf. by apply taskMap_of_None.
Qed.

(** ** The dependency graph *)

(** [chain R l]: each element of [l] is related to the next one. *)
Fixpoint chain {A} (R : relation A) (l : list A) : Prop :=
  match l with
  | [] => True
  | x :: l' =>
      match l' with
      | [] => True
      | y :: _ => R x y ∧ chain R l'
      end
  end.

Lemma chain_cons {A} (R : relation A) x y l :
  chain R (x :: y :: l) ↔ R x y ∧ chain R (y :: l).
Proof. done. Qed.

Lemma chain_app_r {A} (R : relation A) l1 l2 :
  chain R (l1 ++ l2) → chain R l2.
Proof.
  induction l1 as [|x l1 IH]; [done|]. simpl.
  destruct (l1 ++ l2) eqn:E.
  - apply app_eq_nil in E as [_ ->]. done.
  - intros [_ H]. by apply IH.
Qed.

Lemma chain_snoc {A} (R : relation A) l x :
  chain R l → (∀ z, last l = Some z → R z x) → chain R (l ++ [x]).
Proof.
  induction l as [|a l IH]; [done|].
  destruct l as [|b l].
  - intros _ H. simpl. split; [by apply H|done].
  - intros [Hab Hc] H. change ((a :: b :: l) ++ [x]) with (a :: b :: (l ++ [x])).
    apply chain_cons. split; [done|]. apply IH; [done|].
    intros z Hz. apply H. done.
Qed.

Lemma chain_lookup {A} (R : relation A) l :
  chain R l ↔
  ∀ (i : nat) a b, l !! i = Some a → l !! S i = Some b → R a b.
Proof.
  induction l as [|x l IH]; [done|].
  destruct l as [|y l].
  - split; [|done]. intros _ [|i] a b; simpl; done.
  - rewrite chain_cons, IH. split.
    + intros [Hxy H] [|i] a b; simpl.
      * by intros [= <-] [= <-].
      * apply H.
    + intros H. split; [by apply (H 0%nat)|].
      intros i a b. apply (H (S i)).
Qed.

Lemma chain_tc {A} (R : relation A) x l y :
  chain R (x :: l ++ [y]) → tc R x y.
Proof.
  revert x; induction l as [|a l IH]; intros x; simpl.
  - intros [H _]. by apply tc_once.
  - intros [H Hc]. eapply tc_l; [done|]. by apply IH.
Qed.

Lemma indexOf_split path x :
  x ∈ path →
  ∃ pre suf, path = pre ++ x :: suf ∧ indexOf path x = Z.of_nat (length pre).
Proof.
  induction path as [|y p IH]; [by intros ?%elem_of_nil|].
  intros Hin. simpl. destruct (String.eqb_spec y x) as [->|Hne].
  - exists [], p. done.
  - destruct IH as (pre & suf & Hp & Hi); [set_solver|].
    exists (y :: pre), suf. split; [by rewrite Hp|].
    rewrite Hi. destruct (Z.ltb_spec (Z.of_nat (length pre)) 0); simpl; lia.
Qed.

Lemma slice_indexOf path x :
  x ∈ path →
  ∃ pre suf, path = pre ++ x :: suf ∧ slice path (indexOf path x) = x :: suf.
Proof.
  intros (pre & suf & Hp & Hi)%indexOf_split. exists pre, suf.
  split; [done|]. unfold slice. rewrite Hi.
  destruct (Z.ltb_spec (Z.of_nat (length pre)) 0); [lia|].
  rewrite Nat2Z.id, Hp. by rewrite drop_app_length.
Qed.

(** The ids of a task list, as a finite set. *)
Definition task_ids (tasks : list Task) : gset string :=
  list_to_set (map id tasks).

Lemma elem_of_task_ids tasks x : x ∈ task_ids tasks ↔ x ∈ map id tasks.
Proof. unfold task_ids. by rewrite elem_of_list_to_set. Qed.

Lemma size_task_ids tasks : (size (task_ids tasks) ≤ length tasks)%nat.
Proof.
  unfold task_ids. induction tasks as [|t ts IH].
  - change (size (∅ : gset string) ≤ 0)%nat. by rewrite size_empty.
  - change (size ({[id t]} ∪ list_to_set (map id ts) : gset string)
            ≤ S (length ts))%nat.
    rewrite size_union_alt, size_singleton.
    etrans; [|apply le_n_S, IH]. apply le_n_S, subseteq_size. set_solver.
Qed.

Section Graph.
Variable tasks : list Task.

(** [y] is a declared dependency of the task that [x] resolves to. *)
Definition depends_on (x y : string) : Prop :=
  ∃ t, find_task tasks x = Some t ∧ y ∈ dependencies t.

(** [y] is the id of a task of the set. *)
Definition resolves (y : string) : Prop := y ∈ map id tasks.

(** A dependency edge whose target resolves. *)
Definition dep_edge (x y : string) : Prop := depends_on x y ∧ resolves y.

Definition has_cycle : Prop := ∃ x, tc dep_edge x x.
Definition acyclic : Prop := ∀ x, ¬ tc dep_edge x x.

Lemma depends_on_resolves x y : depends_on x y → resolves x.
Proof.
  intros (t & Hf & _). apply find_task_is_Some. eauto.
Qed.

Lemma tc_depends_on_resolves x y : tc depends_on x y → resolves x.
Proof. destruct 1; by eapply depends_on_resolves. Qed.

(** Dangling targets have no outgoing edge, so they lie on no cycle:
    restricting the edges to resolvable targets keeps every cycle. *)
Lemma tc_depends_on_dep_edge x y :
  tc depends_on x y → resolves y → tc dep_edge x y.
Proof.
  induction 1 as [x y H|x y z H Htc IH]; intros Hy.
  - by apply tc_once.
  - eapply tc_l; [|by apply IH]. split; [done|].
    by eapply tc_depends_on_resolves.
Qed.

Lemma tc_dep_edge_depends_on x y : tc dep_edge x y → tc depends_on x y.
Proof.
  induction 1 as [x y [H _]|x y z [H _] _ IH]; [by apply tc_once|].
  by eapply tc_l.
Qed.

Lemma cycle_iff x : tc dep_edge x x ↔ tc depends_on x x.
Proof.
  split; [apply tc_dep_edge_depends_on|].
  intros H. apply tc_depends_on_dep_edge; [done|].
  by eapply tc_depends_on_resolves.
Qed.
End Graph.

(** ** Cycle detector: termination *)

Section DfsProps.
Variable tasks : list Task.

Lemma dfs_terminates fuel : ∀ x path st,
  (size (task_ids tasks ∖ dfs_visited st) < fuel)%nat →
  ∃ st', dfs fuel tasks x path st = Some st'
         ∧ dfs_visited st ⊆ dfs_visited st'.
Proof.
  induction fuel as [|fuel IH]; intros x path st Hsz; [lia|]. simpl.
  case_bool_decide as Hstack; [eauto|].
  case_bool_decide as Hvis; [eauto|].
  destruct (find_task tasks x) as [task|] eqn:Hfind; simpl.
  - set (st1 := {| dfs_visited := {[x]} ∪ dfs_visited st;
                   recursionStack := {[x]} ∪ recursionStack st;
                   cycles := cycles st |}).
    destruct (for_of_total (λ s, dfs_visited st1 ⊆ dfs_visited s)
                (λ dep s, dfs fuel tasks dep (path ++ [x]) s)
                (dependencies task) st1) as (s2 & -> & Hs2); [done| |].
    + intros dep s1 _ Hs1.
      destruct (IH dep (path ++ [x]) s1) as (s2 & Hrun & Hmono).
      * assert (x ∈ task_ids tasks) as Hx.
        { apply elem_of_task_ids, find_task_is_Some. eauto. }
        assert (size (task_ids tasks ∖ dfs_visited s1)
                ≤ size (task_ids tasks ∖ dfs_visited st1))%nat as H1.
        { apply subseteq_size. set_solver. }
        assert (size (task_ids tasks ∖ dfs_visited st1)
                < size (task_ids tasks ∖ dfs_visited st))%nat as H2.
        { apply subset_size, strict_spec_alt. simpl. split; [set_solver|].
          intros Heq.
          assert (x ∈ task_ids tasks ∖ dfs_visited st) as Hin by set_solver.
          rewrite <- Heq in Hin. set_solver. }
        lia.
      * exists s2. split; [done|]. set_solver.
    + simpl. eexists. split; [done|]. simpl in *. set_solver.
  - eexists. split; [done|]. simpl. set_solver.
Qed.

(** *** Invariants of the traversal *)

(** A reported cycle: it starts and ends with the same id and each element
    has the next one among its declared dependencies. *)
Definition cycle_ok (c : list string) : Prop :=
  ∃ y mid, c = y :: mid ++ [y] ∧ chain (depends_on tasks) c.

(** [path] lists the recursion stack, in call order. *)
Record dfs_wf (path : list string) (st : DfsState) : Prop := {
  wf_stack : ∀ y, y ∈ recursionStack st ↔ y ∈ path;
  wf_visited : recursionStack st ⊆ dfs_visited st;
  wf_chain : chain (depends_on tasks) path
}.

Definition linked (path : list string) (x : string) : Prop :=
  ∀ z, last path = Some z → depends_on tasks z x.

(** What a call may change: the stack is restored, [visited] and [cycles]
    only grow, and every added cycle is well formed. *)
Definition dfs_frame (st st' : DfsState) : Prop :=
  recursionStack st' = recursionStack st
  ∧ dfs_visited st ⊆ dfs_visited st'
  ∧ ∃ new, cycles st' = cycles st ++ new ∧ Forall cycle_ok new.

(** The finished nodes: visited and no longer on the stack. *)
Definition black (st : DfsState) : gset string :=
  dfs_visited st ∖ recursionStack st.

(** The finished nodes are closed under dependencies and lie on no
    cycle. *)
Definition black_closed (B : gset string) : Prop :=
  (∀ u v, u ∈ B → depends_on tasks u v → v ∈ B)
  ∧ (∀ u, u ∈ B → ¬ tc (depends_on tasks) u u).

(** As long as no cycle has been reported. *)
Definition black_inv (st : DfsState) : Prop :=
  cycles st = [] → black_closed (black st).

Lemma dfs_frame_refl st : dfs_frame st st.
Proof.
  split; [done|]. split; [done|]. exists []. by rewrite app_nil_r.
Qed.

Lemma dfs_frame_trans s1 s2 s3 :
  dfs_frame s1 s2 → dfs_frame s2 s3 → dfs_frame s1 s3.
Proof.
  intros (Hs & Hv & n1 & Hc & Hn1) (Hs' & Hv' & n2 & Hc' & Hn2).
  split; [congruence|]. split; [set_solver|].
  exists (n1 ++ n2). split; [by rewrite Hc', Hc, app_assoc|].
  by apply Forall_app.
Qed.

Lemma dfs_frame_nil s1 s2 : dfs_frame s1 s2 → cycles s2 = [] → cycles s1 = [].
Proof. intros (_ & _ & new & Hc & _) H. rewrite H in Hc. by destruct (cycles s1). Qed.

Lemma dfs_frame_black s1 s2 : dfs_frame s1 s2 → black s1 ⊆ black s2.
Proof. intros (Hs & Hv & _). unfold black. rewrite Hs. set_solver. Qed.

Lemma dfs_wf_frame path s1 s2 :
  dfs_wf path s1 → dfs_frame s1 s2 → dfs_wf path s2.
Proof.
  intros [H1 H2 H3] (Hs & Hv & _).
  split; [by rewrite Hs|rewrite Hs; set_solver|done].
Qed.

Lemma black_closed_rtc B u w :
  black_closed B → u ∈ B → rtc (depends_on tasks) u w → w ∈ B.
Proof.
  intros [Hcl _] Hu Hrtc. induction Hrtc as [|u v w Huv _ IH]; [done|].
  apply IH. by eapply Hcl.
Qed.

Lemma black_closed_add B x :
  black_closed B → (∀ v, depends_on tasks x v → v ∈ B) →
  black_closed ({[x]} ∪ B).
Proof.
  intros HB Hx. split.
  - intros u v [->%elem_of_singleton|Hu]%elem_of_union Huv.
    + apply elem_of_union_r. by apply Hx.
    + apply elem_of_union_r. by eapply (proj1 HB).
  - intros u [->%elem_of_singleton|Hu]%elem_of_union; [|by apply HB].
    intros Htc. destruct (decide (x ∈ B)) as [Hin|Hnin];
      [by apply (proj2 HB x)|].
    apply Hnin. inversion Htc as [? ? Hxx|? v ? Hxv Hvx]; subst.
    + by apply Hx.
    + eapply black_closed_rtc; [done|by apply Hx|]. by apply tc_rtc.
Qed.

Lemma cycle_pushed path x st :
  dfs_wf path st → linked path x → x ∈ recursionStack st →
  cycle_ok (slice path (indexOf path x) ++ [x])
  ∧ ∀ y, y ∈ path → last path = Some y →
         y ∈ slice path (indexOf path x) ++ [x].
Proof.
  intros [Hst _ Hch] Hlink Hin. apply Hst in Hin.
  destruct (slice_indexOf path x Hin) as (pre & suf & Hp & ->).
  split.
  - exists x, suf. split; [done|].
    apply chain_snoc.
    + rewrite Hp in Hch. by apply chain_app_r in Hch.
    + intros z Hz. apply Hlink. by rewrite Hp, last_app_cons.
  - intros y _ Hlast. rewrite Hp, last_app_cons in Hlast.
    apply elem_of_app. left. by apply last_Some_elem_of.
Qed.

(** *** What a call of [dfs] establishes *)

Lemma dfs_post fuel : ∀ x path st st',
  dfs fuel tasks x path st = Some st' →
  dfs_wf path st → linked path x → black_inv st →
  dfs_frame st st'
  ∧ x ∈ dfs_visited st'
  ∧ black_inv st'
  ∧ (cycles st' = [] → x ∉ recursionStack st).
Proof.
  induction fuel as [|fuel IH]; intros x path st st' Hrun Hwf Hlink Hinv;
    [done|].
  simpl in Hrun. case_bool_decide as Hstack.
  { (* the node is on the stack: a cycle is reported *)
    injection Hrun as <-. simpl.
    destruct (cycle_pushed path x st Hwf Hlink Hstack) as [Hok _].
    split; [|split; [|split]].
    - split; [done|]. split; [done|]. eexists. split; [done|].
      by apply Forall_singleton.
    - by apply (wf_visited _ _ Hwf).
    - intros Hnil. simpl in Hnil. by destruct (cycles st).
    - intros Hnil. by destruct (cycles st). }
  case_bool_decide as Hvis.
  { injection Hrun as <-. split; [apply dfs_frame_refl|]. done. }
  set (st1 := {| dfs_visited := {[x]} ∪ dfs_visited st;
                 recursionStack := {[x]} ∪ recursionStack st;
                 cycles := cycles st |}) in *.
  assert (dfs_wf (path ++ [x]) st1) as Hwf1.
  { destruct Hwf as [H1 H2 H3]. split; simpl.
    - intros y. rewrite elem_of_union, elem_of_app, H1. set_solver.
    - set_solver.
    - by apply chain_snoc. }
  assert (black st1 = black st) as Hb1.
  { unfold black. simpl. set_solver. }
  destruct (find_task tasks x) as [task|] eqn:Hfind; simpl in Hrun.
  - destruct (for_of (dependencies task) _ st1) as [s2|] eqn:Hloop;
      simpl in Hrun; [|done].
    injection Hrun as <-. simpl.
    pose (P := λ (pre : list string) (s : DfsState),
            dfs_frame st1 s ∧ black_inv s
            ∧ (cycles s = [] → ∀ d, d ∈ pre → d ∈ black s)).
    assert (P (dependencies task) s2) as (Hfr & Hinv2 & Hdeps).
    { apply (for_of_prefix_inv P _ _ _ _ Hloop).
      - split; [apply dfs_frame_refl|]. split.
        + intros Hnil. unfold black_inv in Hinv. rewrite Hb1. by apply Hinv.
        + by intros _ d ?%elem_of_nil.
      - intros pre dep suf s1 s3 Hdeps (Hfr1 & Hinv1 & Hpre) Hcall.
        destruct (IH dep (path ++ [x]) s1 s3 Hcall)
          as (Hfr3 & Hvis3 & Hinv3 & Hns).
        + by eapply dfs_wf_frame.
        + intros z Hz. rewrite last_snoc in Hz. injection Hz as <-.
          exists task. split; [done|]. rewrite Hdeps. set_solver.
        + done.
        + split; [by eapply dfs_frame_trans|]. split; [done|].
          intros Hnil d [Hd| ->%list_elem_of_singleton]%elem_of_app.
          * eapply dfs_frame_black; [done|]. apply Hpre; [|done].
            by eapply dfs_frame_nil.
          * unfold black. apply elem_of_difference. split; [done|].
            destruct Hfr3 as (Heq & _). rewrite Heq. by apply Hns. }
    destruct Hfr as (Hs2 & Hv2 & new & Hc2 & Hnew). simpl in *.
    split; [|split; [|split]].
    + split; [|split].
      * simpl. rewrite Hs2. set_solver.
      * simpl. set_solver.
      * simpl. eauto.
    + set_solver.
    + intros Hnil. simpl in Hnil.
      assert (black {| dfs_visited := dfs_visited s2;
                       recursionStack := recursionStack s2 ∖ {[x]};
                       cycles := cycles s2 |} = {[x]} ∪ black s2) as ->.
      { unfold black. simpl. rewrite Hs2.
        apply set_eq. intros y. set_unfold.
        destruct (decide (y = x)) as [->|]; [|naive_solver].
        split; [naive_solver|]. intros _. split; [set_solver|naive_solver]. }
      apply black_closed_add; [by apply Hinv2|].
      intros v (t & Ht & Hv). rewrite Hfind in Ht. injection Ht as <-.
      by apply Hdeps.
    + done.
  - injection Hrun as <-. simpl. split; [|split; [|split]].
    + split; [|split]; simpl.
      * set_solver.
      * set_solver.
      * exists []. by rewrite app_nil_r.
    + set_solver.
    + intros Hnil. simpl in Hnil.
      assert (black {| dfs_visited := {[x]} ∪ dfs_visited st;
                       recursionStack := ({[x]} ∪ recursionStack st) ∖ {[x]};
                       cycles := cycles st |} = {[x]} ∪ black st) as ->.
      { unfold black. simpl. apply set_eq. intros y. set_unfold.
        destruct (decide (y = x)) as [->|]; naive_solver. }
      apply black_closed_add; [by apply Hinv|].
      intros v (t & Ht & _). congruence.
    + done.
Qed.

(** The loop over the dependencies of [x], from any state reached inside
    it. *)
Lemma dfs_loop_post fuel x path deps st1 s2 :
  for_of deps (λ dep s, dfs fuel tasks dep (path ++ [x]) s) st1 = Some s2 →
  dfs_wf (path ++ [x]) st1 → black_inv st1 →
  (∀ d, d ∈ deps → depends_on tasks x d) →
  dfs_frame st1 s2 ∧ black_inv s2 ∧ ∀ d, d ∈ deps → d ∈ dfs_visited s2.
Proof.
  intros Hloop Hwf Hinv Hdeps.
  apply (for_of_prefix_inv
           (λ pre s, dfs_frame st1 s ∧ black_inv s
                     ∧ ∀ d, d ∈ pre → d ∈ dfs_visited s) _ _ _ _ Hloop).
  - split; [apply dfs_frame_refl|]. split; [done|].
    by intros d ?%elem_of_nil.
  - intros pre dep suf s1 s3 -> (Hfr1 & Hinv1 & Hpre) Hcall.
    destruct (dfs_post fuel dep (path ++ [x]) s1 s3 Hcall)
      as (Hfr3 & Hvis3 & Hinv3 & _).
    + by eapply dfs_wf_frame.
    + intros z Hz. rewrite last_snoc in Hz. injection Hz as <-.
      apply Hdeps. set_solver.
    + done.
    + split; [by eapply dfs_frame_trans|]. split; [done|].
      intros d [Hd| ->%list_elem_of_singleton]%elem_of_app; [|done].
      destruct Hfr3 as (_ & Hv & _). apply Hv. by apply Hpre.
Qed.

(** *** Two tasks that depend on each other *)

Definition mentions_both (a b : string) (cs : list (list string)) : Prop :=
  ∃ c, c ∈ cs ∧ a ∈ c ∧ b ∈ c.

(** [a] has not finished, and [b] was not entered before it. *)
Definition pending (a b : string) (st : DfsState) : Prop :=
  a ∈ dfs_visited st → a ∈ recursionStack st ∧ b ∉ dfs_visited st.

Definition mutual_inv (a b : string) (st : DfsState) : Prop :=
  mentions_both a b (cycles st) ∨ (pending a b st ∧ pending b a st).

Lemma mentions_both_sym a b cs : mentions_both a b cs → mentions_both b a cs.
Proof. intros (c & ? & ? & ?). exists c. done. Qed.

Lemma mutual_inv_sym a b st : mutual_inv a b st → mutual_inv b a st.
Proof.
  intros [H|[H1 H2]]; [left; by apply mentions_both_sym|right; done].
Qed.

Lemma mentions_both_frame a b s1 s2 :
  dfs_frame s1 s2 → mentions_both a b (cycles s1) →
  mentions_both a b (cycles s2).
Proof.
  intros (_ & _ & new & -> & _) (c & Hc & Ha & Hb).
  exists c. split; [set_solver|done].
Qed.

Lemma dfs_loop_mutual fuel a b x path deps st1 s2 :
  (∀ y p s s', dfs fuel tasks y p s = Some s' →
               dfs_wf p s → linked p y → black_inv s →
               mutual_inv a b s → mutual_inv a b s') →
  for_of deps (λ dep s, dfs fuel tasks dep (path ++ [x]) s) st1 = Some s2 →
  dfs_wf (path ++ [x]) st1 → black_inv st1 →
  (∀ d, d ∈ deps → depends_on tasks x d) →
  mutual_inv a b st1 → mutual_inv a b s2.
Proof.
  intros IH Hloop Hwf Hinv Hdeps HJ.
  apply (for_of_prefix_inv
           (λ pre s, dfs_frame st1 s ∧ black_inv s ∧ mutual_inv a b s)
           _ _ _ _ Hloop).
  - split; [apply dfs_frame_refl|]. done.
  - intros pre dep suf s1 s3 -> (Hfr1 & Hinv1 & HJ1) Hcall.
    assert (dfs_wf (path ++ [x]) s1) as Hwf1 by by eapply dfs_wf_frame.
    assert (linked (path ++ [x]) dep) as Hl.
    { intros z Hz. rewrite last_snoc in Hz. injection Hz as <-.
      apply Hdeps. set_solver. }
    destruct (dfs_post fuel dep (path ++ [x]) s1 s3 Hcall)
      as (Hfr3 & _ & Hinv3 & _); [done..|].
    split; [by eapply dfs_frame_trans|]. split; [done|].
    by eapply IH.
Qed.

(** A call on [b] while [b] is on the stack below the caller [x] reports
    a cycle through both. *)
Lemma dfs_on_stack_mentions fuel x b path s s' :
  dfs fuel tasks b (path ++ [x]) s = Some s' →
  dfs_wf (path ++ [x]) s → linked (path ++ [x]) b →
  b ∈ recursionStack s →
  mentions_both x b (cycles s').
Proof.
  intros Hrun Hwf Hl Hin. destruct fuel as [|fuel]; [done|].
  simpl in Hrun. rewrite bool_decide_eq_true_2 in Hrun by done.
  injection Hrun as <-. simpl.
  destruct (cycle_pushed _ _ _ Hwf Hl Hin) as [_ Hlast].
  eexists. split; [apply elem_of_app; right; by apply list_elem_of_singleton|].
  split.
  - apply Hlast; [set_solver|by rewrite last_snoc].
  - set_solver.
Qed.

Definition dfs_enter (x : string) (st : DfsState) : DfsState :=
  {| dfs_visited := {[x]} ∪ dfs_visited st;
     recursionStack := {[x]} ∪ recursionStack st;
     cycles := cycles st |}.

Lemma dfs_enter_wf path x st :
  dfs_wf path st → linked path x → dfs_wf (path ++ [x]) (dfs_enter x st).
Proof.
  intros [H1 H2 H3] Hl. split; simpl.
  - intros y. rewrite elem_of_union, elem_of_app, H1. set_solver.
  - set_solver.
  - by apply chain_snoc.
Qed.

Lemma dfs_enter_black_inv x st :
  x ∉ dfs_visited st → black_inv st → black_inv (dfs_enter x st).
Proof.
  intros Hx Hinv Hnil.
  assert (black (dfs_enter x st) = black st) as ->; [|by apply Hinv].
  unfold black. simpl. set_solver.
Qed.

(** The call that enters [a] first reports a cycle through [a] and [b]
    before it returns. *)
Lemma dfs_mutual_root fuel a b path st s2 task :
  (∀ y p s s', dfs fuel tasks y p s = Some s' →
               dfs_wf p s → linked p y → black_inv s →
               mutual_inv a b s → mutual_inv a b s') →
  find_task tasks a = Some task → b ∈ dependencies task →
  a ∉ dfs_visited st →
  dfs_wf path st → linked path a → black_inv st →
  pending b a st →
  for_of (dependencies task) (λ dep s, dfs fuel tasks dep (path ++ [a]) s)
         (dfs_enter a st) = Some s2 →
  mentions_both a b (cycles s2).
Proof.
  intros IH Hfind Hb Hvis Hwf Hl Hinv Hpb Hloop.
  pose proof (dfs_enter_wf _ _ _ Hwf Hl) as Hwf1.
  pose proof (dfs_enter_black_inv _ _ Hvis Hinv) as Hinv1.
  assert (∀ d, d ∈ dependencies task → depends_on tasks a d) as Hdeps.
  { intros d Hd. exists task. done. }
  destruct (decide (b ∈ recursionStack (dfs_enter a st))) as [Hon|Hoff].
  - apply list_elem_of_split in Hb as (pre & suf & Hsplit).
    rewrite Hsplit in Hloop, Hdeps. rewrite for_of_app in Hloop.
    destruct (for_of pre _ (dfs_enter a st)) as [sa|] eqn:Hpre;
      simpl in Hloop; [|done].
    destruct (dfs fuel tasks b (path ++ [a]) sa) as [sb|] eqn:Hcall;
      simpl in Hloop; [|done].
    destruct (dfs_loop_post _ _ _ _ _ _ Hpre Hwf1 Hinv1)
      as (Hfra & Hinva & _); [set_solver|].
    assert (dfs_wf (path ++ [a]) sa) as Hwfa by by eapply dfs_wf_frame.
    assert (linked (path ++ [a]) b) as Hlb.
    { intros z Hz. rewrite last_snoc in Hz. injection Hz as <-.
      apply Hdeps. set_solver. }
    destruct (dfs_post _ _ _ _ _ Hcall Hwfa Hlb Hinva)
      as (Hfrb & _ & Hinvb & _).
    destruct (dfs_loop_post _ _ _ _ _ _ Hloop) as (Hfr2 & _ & _);
      [by eapply dfs_wf_frame|done|set_solver|].
    eapply mentions_both_frame; [done|].
    eapply dfs_on_stack_mentions; [done..|].
    destruct Hfra as (Heq & _). by rewrite Heq.
  - assert (b ∉ dfs_visited (dfs_enter a st)) as Hbv.
    { simpl in *. intros [Hba%elem_of_singleton|Hbv]%elem_of_union.
      - set_solver.
      - apply Hpb in Hbv as [? _]. set_solver. }
    assert (mutual_inv a b s2) as [Hgood|[Hpa _]]; [|done|].
    { eapply dfs_loop_mutual; [done..|].
      right. split; intros Hin; [|done]. simpl. set_solver. }
    destruct (dfs_loop_post _ _ _ _ _ _ Hloop Hwf1 Hinv1 Hdeps)
      as ((_ & Hv & _) & _ & Hall).
    destruct Hpa as [_ Hnb]; [simpl in Hv; set_solver|].
    exfalso. by apply Hnb, Hall.
Qed.

Lemma dfs_mutual a b :
  depends_on tasks a b → depends_on tasks b a →
  ∀ fuel x path st st',
    dfs fuel tasks x path st = Some st' →
    dfs_wf path st → linked path x → black_inv st →
    mutual_inv a b st → mutual_inv a b st'.
Proof.
  intros (ta & Hta & Hab) (tb & Htb & Hba).
  induction fuel as [|fuel IH]; intros x path st st' Hrun Hwf Hl Hinv HJ;
    [done|].
  destruct (dfs_post _ _ _ _ _ Hrun Hwf Hl Hinv) as (Hfr & _).
  destruct HJ as [Hgood|[Hpa Hpb]];
    [left; by eapply mentions_both_frame|].
  simpl in Hrun. case_bool_decide as Hstack.
  { injection Hrun as <-. by right. }
  case_bool_decide as Hvis.
  { injection Hrun as <-. by right. }
  fold (dfs_enter x st) in Hrun.
  destruct (find_task tasks x) as [task|] eqn:Hfind; simpl in Hrun.
  - destruct (for_of (dependencies task) _ (dfs_enter x st)) as [s2|]
      eqn:Hloop; simpl in Hrun; [|done].
    injection Hrun as <-. unfold mutual_inv. simpl.
    destruct (decide (x = a)) as [->|Hxa].
    { left. rewrite Hta in Hfind. injection Hfind as <-.
      by eapply dfs_mutual_root. }
    destruct (decide (x = b)) as [->|Hxb].
    { left. rewrite Htb in Hfind. injection Hfind as <-.
      apply mentions_both_sym.
      eapply (dfs_mutual_root fuel b a); [|done..].
      intros y p s s' ? ? ? ? ?%mutual_inv_sym.
      apply mutual_inv_sym. by eapply IH. }
    assert (mutual_inv a b s2) as [Hgood|[Hpa2 Hpb2]]; [|by left|].
    { eapply dfs_loop_mutual; [done..|by apply dfs_enter_wf|
        by apply dfs_enter_black_inv| |].
      - intros d Hd. by exists task.
      - right. unfold pending in *. simpl. set_solver. }
    right. unfold pending in *. simpl. set_solver.
  - injection Hrun as <-. right.
    assert (x ≠ a) by congruence. assert (x ≠ b) by congruence.
    unfold pending in *. simpl. set_solver.
Qed.

(** *** The loop over all tasks *)

Lemma dfs_roots_return fuel :
  (length tasks < fuel)%nat →
  ∃ st, for_of tasks (dfs_root fuel tasks) dfs_init = Some st.
Proof.
  intros Hfuel.
  destruct (for_of_total (λ _, True) (dfs_root fuel tasks) tasks dfs_init)
    as (st & Hst & _); [done| |by exists st].
  intros t s _ _. unfold dfs_root. case_bool_decide; [by exists s|].
  destruct (dfs_terminates fuel (id t) [] s) as (s' & Hs' & _);
    [|by exists s'].
  eapply Nat.le_lt_trans; [|done]. etrans; [|apply size_task_ids].
  apply subseteq_size. set_solver.
Qed.

Lemma dfs_wf_top s : dfs_frame dfs_init s → dfs_wf [] s.
Proof.
  intros (Hs & _). split; [|rewrite Hs; set_solver|done].
  intros y. rewrite Hs. set_solver.
Qed.

Lemma dfs_roots_post fuel st :
  for_of tasks (dfs_root fuel tasks) dfs_init = Some st →
  dfs_frame dfs_init st
  ∧ black_inv st
  ∧ (∀ t, t ∈ tasks → id t ∈ dfs_visited st)
  ∧ (∀ a b, depends_on tasks a b → depends_on tasks b a →
            mutual_inv a b st).
Proof.
  intros Hrun.
  apply (for_of_prefix_inv
           (λ pre s, dfs_frame dfs_init s ∧ black_inv s
                     ∧ (∀ t, t ∈ pre → id t ∈ dfs_visited s)
                     ∧ (∀ a b, depends_on tasks a b → depends_on tasks b a →
                               mutual_inv a b s)) _ _ _ _ Hrun).
  - split; [apply dfs_frame_refl|]. split; [|split].
    + intros _. split; intros u; unfold black; set_solver.
    + by intros t ?%elem_of_nil.
    + intros a b _ _. right. split; intros Hin; set_solver.
  - intros pre t suf s1 s2 _ (Hfr & Hinv & Hpre & Hmut) Hbody.
    unfold dfs_root in Hbody. case_bool_decide as Hvis.
    { injection Hbody as <-. split; [done|]. split; [done|].
      split; [|done].
      intros u [Hu| ->%list_elem_of_singleton]%elem_of_app; eauto. }
    pose proof (dfs_wf_top _ Hfr) as Hwf.
    assert (linked [] (id t)) as Hl by by intros z [=].
    destruct (dfs_post _ _ _ _ _ Hbody Hwf Hl Hinv)
      as (Hfr2 & Hvis2 & Hinv2 & _).
    split; [by eapply dfs_frame_trans|]. split; [done|]. split.
    + intros u [Hu| ->%list_elem_of_singleton]%elem_of_app; [|done].
      destruct Hfr2 as (_ & Hv & _). apply Hv. by apply Hpre.
    + intros a b Hab Hba. eapply dfs_mutual; [done..|]. by apply Hmut.
Qed.

Lemma cycle_ok_tc c :
  cycle_ok c → ∃ y, tc (dep_edge tasks) y y.
Proof.
  intros (y & mid & -> & Hch). exists y. apply cycle_iff.
  by eapply chain_tc.
Qed.

Lemma cycle_ok_shape c :
  cycle_ok c →
  c ≠ [] ∧ head c = last c
  ∧ ∀ (i : nat) a b, c !! i = Some a → c !! S i = Some b →
                     depends_on tasks a b.
Proof.
  intros (y & mid & -> & Hch). split; [done|]. split.
  - change (y :: mid ++ [y]) with ((y :: mid) ++ [y]).
    by rewrite last_snoc.
  - by apply chain_lookup.
Qed.
End DfsProps.

(** ** Critical-path calculator: the duration computation returns *)

Lemma map_calls_total {A B S} (P : S → Prop) (Q : B → Prop)
    (f : A → S → option (B * S)) l s :
  P s →
  (∀ x s1, x ∈ l → P s1 → ∃ y s2, f x s1 = Some (y, s2) ∧ P s2 ∧ Q y) →
  ∃ ys s', map_calls f l s = Some (ys, s') ∧ P s' ∧ Forall Q ys.
Proof.
  revert s; induction l as [|x l IH]; intros s HP Hstep; simpl.
  - exists [], s. done.
  - destruct (Hstep x s) as (y & s1 & -> & HP1 & HQ); [set_solver|done|].
    simpl. destruct (IH s1) as (ys & s2 & -> & HP2 & HQs); [done| |].
    + intros z s' Hz. apply Hstep. set_solver.
    + simpl. exists (y :: ys), s2. split; [done|]. split; [done|].
      by apply Forall_cons.
Qed.

Lemma fold_max_ge xs m : m ≤ fold_left Z.max xs m.
Proof.
  revert m; induction xs as [|x xs IH]; intros m; simpl; [lia|].
  etrans; [|apply IH]. lia.
Qed.

Lemma fold_max_bound xs m b :
  m ≤ b → Forall (λ x, x ≤ b) xs → fold_left Z.max xs m ≤ b.
Proof.
  revert m; induction xs as [|x xs IH]; intros m Hm Hxs; simpl; [done|].
  apply Forall_cons in Hxs as [Hx Hxs]. apply IH; [lia|done].
Qed.

Lemma math_max0_zero xs : Forall (λ x, x = 0) xs → math_max0 xs = 0.
Proof.
  intros H. unfold math_max0. apply Z.le_antisymm; [|apply fold_max_ge].
  apply fold_max_bound; [done|]. eapply Forall_impl; [done|].
  simpl. lia.
Qed.

Lemma dom_taskMap_of tasks : dom (taskMap_of tasks) = task_ids tasks.
Proof.
  apply set_eq. intros x.
  by rewrite elem_of_dom, taskMap_of_is_Some, elem_of_task_ids.
Qed.

Section DurationProps.
Variable taskMap : gmap string Task.

(** The recursion of [calculateTaskDuration] is bounded by the number of
    tasks not yet visited; when no task has hours, every duration is 0. *)
Lemma calculateTaskDuration_returns fuel : ∀ x visited,
  (size (dom taskMap ∖ visited) < fuel)%nat →
  ∃ d visited',
    calculateTaskDuration taskMap fuel x visited = Some (d, visited')
    ∧ visited ⊆ visited'
    ∧ ((∀ y t, taskMap !! y = Some t → estimatedHours t = 0) → d = 0).
Proof.
  induction fuel as [|fuel IH]; intros x visited Hsz; [lia|]. simpl.
  case_bool_decide as Hvis; [by eauto|].
  destruct (taskMap !! x) as [task|] eqn:Hget;
    [|eexists _, _; split; [done|]; split; [set_solver|done]].
  destruct (map_calls_total (λ v, {[x]} ∪ visited ⊆ v)
              (λ d, (∀ y t, taskMap !! y = Some t → estimatedHours t = 0) →
                    d = 0)
              (calculateTaskDuration taskMap fuel) (dependencies task)
              ({[x]} ∪ visited)) as (ds & v2 & -> & Hv2 & Hds); [done| |].
  - intros dep v1 _ Hv1.
    destruct (IH dep v1) as (d & v' & Hrun & Hmono & Hzero).
    + assert (size (dom taskMap ∖ v1)
              ≤ size (dom taskMap ∖ ({[x]} ∪ visited)))%nat as H1.
      { apply subseteq_size. set_solver. }
      assert (size (dom taskMap ∖ ({[x]} ∪ visited))
              < size (dom taskMap ∖ visited))%nat as H2.
      { apply subset_size, strict_spec_alt. split; [set_solver|].
        intros Heq. assert (x ∈ dom taskMap ∖ visited) as Hin.
        { apply elem_of_difference. split; [|done].
          apply elem_of_dom. eauto. }
        rewrite <- Heq in Hin. set_solver. }
      lia.
    + exists d, v'. split; [done|]. split; [set_solver|done].
  - simpl. eexists _, _. split; [done|]. split; [set_solver|].
    intros Hzero. rewrite (Hzero x task Hget), math_max0_zero; [done|].
    eapply Forall_impl; [done|]. simpl. eauto.
Qed.
End DurationProps.

Lemma duration_from_clear_returns tasks fuel x :
  (length tasks < fuel)%nat →
  ∃ d, duration_from_clear (taskMap_of tasks) fuel x = Some d
       ∧ ((∀ t, t ∈ tasks → estimatedHours t = 0) → d = 0).
Proof.
  intros Hfuel. unfold duration_from_clear.
  destruct (calculateTaskDuration_returns (taskMap_of tasks) fuel x ∅)
    as (d & v & -> & _ & Hzero).
  - eapply Nat.le_lt_trans; [|done]. etrans; [|apply (size_task_ids tasks)].
    apply subseteq_size. rewrite dom_taskMap_of. set_solver.
  - exists d. split; [done|]. intros Hall. apply Hzero.
    intros y t Ht. apply Hall. by apply taskMap_of_Some in Ht as [_ ?].
Qed.

(** ** More stack depth never changes a result *)

Lemma for_of_mono {A S} (body body' : A → S → option S) l s r :
  (∀ x s1 r1, x ∈ l → body x s1 = Some r1 → body' x s1 = Some r1) →
  for_of l body s = Some r → for_of l body' s = Some r.
Proof.
  revert s; induction l as [|x l IH]; intros s Hb; simpl; [done|].
  destruct (body x s) as [s1|] eqn:Hx; simpl; [|done].
  rewrite (Hb x s s1); [|set_solver|done]. simpl.
  apply IH. intros y s2 r2 Hy. apply Hb. set_solver.
Qed.

Lemma map_calls_mono {A B S} (f f' : A → S → option (B * S)) l s r :
  (∀ x s1 r1, x ∈ l → f x s1 = Some r1 → f' x s1 = Some r1) →
  map_calls f l s = Some r → map_calls f' l s = Some r.
Proof.
  revert s r; induction l as [|x l IH]; intros s r Hf; simpl; [done|].
  destruct (f x s) as [[y s1]|] eqn:Hx; simpl; [|done].
  rewrite (Hf x s (y, s1)); [|set_solver|done]. simpl.
  destruct (map_calls f l s1) as [[ys s2]|] eqn:Hl; simpl; [|done].
  rewrite (IH s1 (ys, s2)); [done| |done].
  intros z s3 r3 Hz. apply Hf. set_solver.
Qed.

Section CriticalPathMono.
Variable taskMap : gmap string Task.

Lemma calculateTaskDuration_mono fuel : ∀ fuel' x visited r,
  (fuel ≤ fuel')%nat →
  calculateTaskDuration taskMap fuel x visited = Some r →
  calculateTaskDuration taskMap fuel' x visited = Some r.
Proof.
  induction fuel as [|fuel IH]; intros fuel' x visited r Hle; [done|].
  destruct fuel' as [|fuel']; [lia|]. simpl.
  case_bool_decide; [done|].
  destruct (taskMap !! x) as [task|]; [|done].
  destruct (map_calls _ _ _) as [[ds v2]|] eqn:Hcalls; simpl; [|done].
  intros <-.
  rewrite (map_calls_mono _ (calculateTaskDuration taskMap fuel') _ _ _
             (λ dep v1 r1 _, IH fuel' dep v1 r1 ltac:(lia)) Hcalls).
  done.
Qed.

Lemma pick_longer_mono fuel fuel' x best r :
  (fuel ≤ fuel')%nat →
  pick_longer taskMap fuel x best = Some r →
  pick_longer taskMap fuel' x best = Some r.
Proof.
  intros Hle. unfold pick_longer, duration_from_clear.
  destruct (calculateTaskDuration taskMap fuel x ∅) as [r1|] eqn:Hd;
    simpl; [|done].
  by rewrite (calculateTaskDuration_mono _ _ _ _ _ Hle Hd).
Qed.

Lemma buildPath_mono dfuel dfuel' fuel : ∀ fuel' x path r,
  (dfuel ≤ dfuel')%nat → (fuel ≤ fuel')%nat →
  buildPath taskMap dfuel fuel x path = Some r →
  buildPath taskMap dfuel' fuel' x path = Some r.
Proof.
  induction fuel as [|fuel IH]; intros fuel' x path r Hd Hle; [done|].
  destruct fuel' as [|fuel']; [lia|]. simpl.
  destruct (taskMap !! x) as [task|]; [|done].
  destruct (0 <? length (dependencies task))%nat; [|done].
  destruct (for_of _ (pick_longer taskMap dfuel) _) as [[m c]|] eqn:Hloop;
    simpl; [|done].
  rewrite (for_of_mono _ (pick_longer taskMap dfuel') _ _ _
             (λ dep b r1 _, pick_longer_mono dfuel dfuel' dep b r1 Hd) Hloop).
  simpl. destruct (truthy c); [|done]. apply IH; [done|lia].
Qed.
End CriticalPathMono.

Lemma calculateCriticalPath_mono tasks fuel fuel' r :
  (fuel ≤ fuel')%nat →
  calculateCriticalPath fuel tasks = Some r →
  calculateCriticalPath fuel' tasks = Some r.
Proof.
  intros Hle. unfold calculateCriticalPath.
  destruct (for_of tasks _ (0, "")) as [[m c]|] eqn:Hloop; simpl; [|done].
  rewrite (for_of_mono _
             (λ task, pick_longer (taskMap_of tasks) fuel' (id task)) _ _ _
             (λ t b r1 _, pick_longer_mono _ fuel fuel' (id t) b r1 Hle)
             Hloop).
  simpl. destruct (truthy c); [|done]. by apply buildPath_mono.
Qed.

(** ** Dependency paths and their hours *)

(** Each element of the path resolves and is a dependency of the next. *)
Definition dependency_path (tasks : list Task) (path : list string) : Prop :=
  Forall (resolves tasks) path ∧ chain (λ a b, dep_edge tasks b a) path.

Definition hours_of (tasks : list Task) (x : string) : Z :=
  match taskMap_of tasks !! x with
  | Some t => estimatedHours t
  | None => 0
  end.

Definition path_hours (tasks : list Task) (path : list string) : Z :=
  foldr (λ x sum, hours_of tasks x + sum) 0 path.

(** ** Phase assigner *)

Section PhaseProps.
Variable taskMap : gmap string Task.

(** The body of the loop over the dependencies in [assignPhase]. *)
Definition phase_step (fuel : nat) (dep : string) (acc : Z * PhaseState)
  : option (Z * PhaseState) :=
  let '(m, s) := acc in
  '(p, s') ← assignPhase taskMap fuel dep s;
  Some (Z.max m p, s').

Lemma assignPhase_unfold fuel x st :
  assignPhase taskMap (S fuel) x st =
  match phases st !! x with
  | Some p => Some (p, st)
  | None =>
      if bool_decide (x ∈ ph_visited st) then Some (1, st)
      else
        let st1 := {| phases := phases st;
                      ph_visited := {[x]} ∪ ph_visited st |} in
        match taskMap !! x with
        | None => Some (1, st1)
        | Some task =>
            '(m, st2) ← for_of (dependencies task) (phase_step fuel) (0, st1);
            Some (m + 1,
                  {| phases := <[x := m + 1]> (phases st2);
                     ph_visited := ph_visited st2 ∖ {[x]} |})
        end
  end.
Proof. reflexivity. Qed.

(** Tasks on the stack are exactly the resolvable ids in [visited]: a call
    leaves that part of [visited] as it found it. *)
Definition same_stack (st st' : PhaseState) : Prop :=
  dom taskMap ∖ ph_visited st' = dom taskMap ∖ ph_visited st.

Lemma assignPhase_returns fuel : ∀ x st,
  (size (dom taskMap ∖ ph_visited st) < fuel)%nat →
  ∃ p st', assignPhase taskMap fuel x st = Some (p, st') ∧ same_stack st st'.
Proof.
  induction fuel as [|fuel IH]; intros x st Hsz; [lia|].
  rewrite assignPhase_unfold.
  destruct (phases st !! x) as [p|];
    [eexists _, _; split; [done|reflexivity]|].
  case_bool_decide as Hvis; [eexists _, _; split; [done|reflexivity]|].
  cbv zeta. destruct (taskMap !! x) as [task|] eqn:Hget.
  - set (st1 := {| phases := phases st;
                   ph_visited := {[x]} ∪ ph_visited st |}).
    assert (x ∈ dom taskMap) as Hdom by (apply elem_of_dom; eauto).
    destruct (for_of_total (λ acc, same_stack st1 acc.2)
                (phase_step fuel) (dependencies task) (0, st1))
      as ([m s2] & -> & Hs2); [done| |].
    + intros dep [m s] _ Hs. simpl in Hs. unfold phase_step.
      destruct (IH dep s) as (p & s' & -> & Hs').
      * unfold same_stack in Hs. rewrite Hs. simpl.
        assert (size (dom taskMap ∖ ({[x]} ∪ ph_visited st))
                < size (dom taskMap ∖ ph_visited st))%nat; [|lia].
        apply subset_size, strict_spec_alt. split; [set_solver|].
        intros Heq. assert (x ∈ dom taskMap ∖ ph_visited st) as Hin
          by set_solver.
        rewrite <- Heq in Hin. set_solver.
      * simpl. eexists. split; [done|]. simpl. unfold same_stack in *.
        congruence.
    + simpl. eexists _, _. split; [done|].
      unfold same_stack in *. simpl in *.
      apply set_eq. intros y. pose proof (proj1 (set_eq _ _) Hs2 y) as Hy.
      set_unfold. destruct (decide (y = x)) as [->|]; naive_solver.
  - eexists _, _. split; [done|]. unfold same_stack. simpl.
    apply not_elem_of_dom in Hget. set_solver.
Qed.

(** A task whose dependency list is not empty and holds only ids that
    resolve to nothing. *)
Definition all_dangling (t : Task) : Prop :=
  dependencies t ≠ [] ∧ ∀ d, d ∈ dependencies t → taskMap !! d = None.

(** What holds of the phases at every moment, on any input. *)
Definition ph_inv (st : PhaseState) : Prop :=
  (∀ x p, phases st !! x = Some p →
          ∃ t, taskMap !! x = Some t ∧ 1 ≤ p ∧ (all_dangling t → p = 2))
  ∧ (∀ y, y ∈ ph_visited st → phases st !! y = None).

Record phase_post (x : string) (st : PhaseState) (p : Z) (st' : PhaseState)
  : Prop := {
  pp_inv : ph_inv st';
  pp_mono : phases st ⊆ phases st';
  pp_stack : same_stack st st';
  pp_pos : 1 ≤ p;
  pp_dangling : taskMap !! x = None → p = 1;
  pp_stored : is_Some (taskMap !! x) → x ∉ ph_visited st →
              phases st' !! x = Some p
}.

Lemma same_stack_trans s1 s2 s3 :
  same_stack s1 s2 → same_stack s2 s3 → same_stack s1 s3.
Proof. unfold same_stack. intros H1 H2. by rewrite H2. Qed.

Lemma same_stack_visited st st' x :
  same_stack st st' → x ∈ dom taskMap → x ∈ ph_visited st' ↔ x ∈ ph_visited st.
Proof.
  unfold same_stack. intros Heq Hx.
  pose proof (proj1 (set_eq _ _) Heq x) as Hy. set_unfold.
  destruct (decide (x ∈ ph_visited st)), (decide (x ∈ ph_visited st'));
    naive_solver.
Qed.

Lemma assignPhase_post fuel : ∀ x st p st',
  assignPhase taskMap fuel x st = Some (p, st') → ph_inv st →
  phase_post x st p st'.
Proof.
  induction fuel as [|fuel IH]; intros x st p st' Hrun Hinv; [done|].
  rewrite assignPhase_unfold in Hrun.
  destruct (phases st !! x) as [q|] eqn:Hq.
  { injection Hrun as <- <-. destruct (proj1 Hinv x q Hq) as (t & Ht & Hpos & _).
    split; try done. by rewrite Ht. }
  case_bool_decide as Hvis.
  { injection Hrun as <- <-. split; try done. }
  cbv zeta in Hrun. destruct (taskMap !! x) as [task|] eqn:Hget.
  - set (st1 := {| phases := phases st;
                   ph_visited := {[x]} ∪ ph_visited st |}) in *.
    destruct (for_of _ _ _) as [[m s2]|] eqn:Hloop; simpl in Hrun; [|done].
    injection Hrun as <- <-.
    assert (x ∈ dom taskMap) as Hdom by (apply elem_of_dom; eauto).
    pose (P := λ (pre : list string) (acc : Z * PhaseState),
            ph_inv acc.2 ∧ phases st ⊆ phases acc.2 ∧ same_stack st1 acc.2
            ∧ 0 ≤ acc.1
            ∧ ((∀ d, d ∈ pre → taskMap !! d = None) →
               acc.1 = if pre is [] then 0 else 1)).
    assert (P (dependencies task) (m, s2)) as (Hinv2 & Hmono & Hst & Hm & Hdang).
    { apply (for_of_prefix_inv P _ _ _ _ Hloop).
      - split; [|done]. destruct Hinv as [H1 H2]. split; [done|].
        intros y [->%elem_of_singleton|Hy]%elem_of_union; [done|by apply H2].
      - intros pre dep suf [m1 s1] [m3 s3] _ (Hi1 & Hm1 & Hs1 & Hpos1 & Hd1)
          Hstep.
        unfold phase_step in Hstep.
        destruct (assignPhase taskMap fuel dep s1) as [[q s']|] eqn:Hcall;
          simpl in Hstep; [|done].
        injection Hstep as <- <-.
        destruct (IH dep s1 q s' Hcall Hi1) as [Hi Hmn Hss Hq1 Hqd _].
        unfold P. cbn [fst snd] in *. split; [done|]. split; [by etrans|].
        split; [by eapply same_stack_trans|]. split; [lia|].
        intros Hall. rewrite Hqd by (apply Hall; set_solver).
        rewrite Hd1 by (intros d Hd; apply Hall; set_solver).
        destruct pre; simpl; lia. }
    simpl in *.
    assert (x ∈ ph_visited s2) as Hx2.
    { eapply same_stack_visited; [done..|]. simpl. set_solver. }
    assert (phases s2 !! x = None) as Hnone by by apply Hinv2.
    split; simpl.
    + unfold ph_inv. simpl. split.
      * intros y q. destruct (decide (x = y)) as [<-|Hne].
        -- rewrite lookup_insert_eq. intros [= <-]. exists task.
           split; [done|]. split; [lia|]. intros [Hne Hall].
           rewrite Hdang by done. by destruct (dependencies task).
        -- rewrite lookup_insert_ne by done. apply Hinv2.
      * intros y [Hy Hne]%elem_of_difference.
        rewrite lookup_insert_ne by set_solver. by apply Hinv2.
    + etrans; [done|]. by apply insert_subseteq.
    + unfold same_stack in *. simpl in *.
      apply set_eq. intros y. pose proof (proj1 (set_eq _ _) Hst y) as Hy.
      set_unfold. destruct (decide (y = x)) as [->|]; naive_solver.
    + lia.
    + intros ?. congruence.
    + intros _ _. by rewrite lookup_insert_eq.
  - injection Hrun as <- <-. split; simpl; try done.
    + destruct Hinv as [H1 H2]. split; [done|].
      intros y [->%elem_of_singleton|Hy]%elem_of_union; [done|by apply H2].
    + unfold same_stack. simpl. apply not_elem_of_dom in Hget. set_solver.
    + intros [? ?]. congruence.
Qed.

(** *** On an acyclic graph *)

(** The dependency relation as the phase assigner resolves it. *)
Definition map_depends_on (x y : string) : Prop :=
  ∃ t, taskMap !! x = Some t ∧ y ∈ dependencies t.

(** Every assigned phase is above the phases of the resolvable
    dependencies, which are assigned too; a task without dependencies has
    phase 1. *)
Definition ph_good (st : PhaseState) : Prop :=
  ∀ x p t, phases st !! x = Some p → taskMap !! x = Some t →
    (dependencies t = [] → p = 1)
    ∧ ∀ d, d ∈ dependencies t → is_Some (taskMap !! d) →
           ∃ q, phases st !! d = Some q ∧ q < p.

(** Every task on the stack reaches the id the call is about. *)
Definition reaches (st : PhaseState) (x : string) : Prop :=
  ∀ y, y ∈ ph_visited st → y ∈ dom taskMap → tc map_depends_on y x.

Lemma assignPhase_dag fuel :
  (∀ x, ¬ tc map_depends_on x x) →
  ∀ x st p st',
    assignPhase taskMap fuel x st = Some (p, st') →
    ph_inv st → ph_good st → reaches st x → ph_good st'.
Proof.
  intros Hacyc.
  induction fuel as [|fuel IH]; intros x st p st' Hrun Hinv Hgood Hreach;
    [done|].
  rewrite assignPhase_unfold in Hrun.
  destruct (phases st !! x) as [q|] eqn:Hq; [by injection Hrun as <- <-|].
  case_bool_decide as Hvis; [by injection Hrun as <- <-|].
  cbv zeta in Hrun. destruct (taskMap !! x) as [task|] eqn:Hget;
    [|by injection Hrun as <- <-].
  set (st1 := {| phases := phases st;
                 ph_visited := {[x]} ∪ ph_visited st |}) in *.
  destruct (for_of _ _ _) as [[m s2]|] eqn:Hloop; simpl in Hrun; [|done].
  injection Hrun as <- <-.
  assert (x ∈ dom taskMap) as Hdom by (apply elem_of_dom; eauto).
  assert (ph_inv st1) as Hinv1.
  { destruct Hinv as [H1 H2]. split; [done|].
    intros y [->%elem_of_singleton|Hy]%elem_of_union; [done|by apply H2]. }
  pose (P := λ (pre : list string) (acc : Z * PhaseState),
          ph_inv acc.2 ∧ same_stack st1 acc.2 ∧ ph_good acc.2
          ∧ (pre = [] → acc.1 = 0)
          ∧ ∀ d, d ∈ pre → is_Some (taskMap !! d) →
                 ∃ q, phases acc.2 !! d = Some q ∧ q ≤ acc.1).
  assert (P (dependencies task) (m, s2)) as (Hinv2 & Hst & Hgood2 & Hm & Hdeps).
  { apply (for_of_prefix_inv P _ _ _ _ Hloop).
    - split; [done|]. split; [done|]. split; [done|]. split; [done|].
      by intros d ?%elem_of_nil.
    - intros pre dep suf [m1 s1] [m3 s3] Hsplit (Hi1 & Hs1 & Hg1 & Hm1 & Hd1)
        Hstep.
      unfold phase_step in Hstep.
      destruct (assignPhase taskMap fuel dep s1) as [[q s']|] eqn:Hcall;
        simpl in Hstep; [|done].
      injection Hstep as <- <-.
      destruct (assignPhase_post fuel dep s1 q s' Hcall Hi1)
        as [Hi Hmn Hss Hq1 _ Hstored].
      assert (reaches s1 dep) as Hr1.
      { intros y Hy Hyd.
        assert (map_depends_on x dep) as Hxd.
        { exists task. split; [done|]. rewrite Hsplit. set_solver. }
        apply (same_stack_visited _ _ _ Hs1 Hyd) in Hy. simpl in Hy.
        apply elem_of_union in Hy as [->%elem_of_singleton|Hy];
          [by apply tc_once|].
        eapply tc_r; [|done]. by apply Hreach. }
      unfold P. cbn [fst snd] in *. split; [done|].
      split; [by eapply same_stack_trans|].
      split; [by eapply IH|]. split; [by destruct pre|].
      intros d [Hd| ->%list_elem_of_singleton]%elem_of_app Hres.
      + destruct (Hd1 d Hd Hres) as (qd & Hqd & Hle). exists qd.
        split; [by eapply lookup_weaken|lia].
      + exists q. split; [|lia]. apply Hstored; [done|].
        intros Hin. apply (Hacyc dep). apply Hr1; [done|].
        by apply elem_of_dom. }
  cbn [fst snd] in *.
  assert (x ∈ ph_visited s2) as Hx2.
  { eapply same_stack_visited; [done..|]. simpl. set_solver. }
  assert (phases s2 !! x = None) as Hnone by by apply Hinv2.
  assert (∀ d q, phases s2 !! d = Some q →
                 <[x := m + 1]> (phases s2) !! d = Some q) as Hkeep.
  { intros d q Hd. rewrite lookup_insert_ne; [done|]. congruence. }
  intros y q t. simpl. destruct (decide (x = y)) as [<-|Hne].
  - rewrite lookup_insert_eq, Hget. intros [= <-] [= <-]. split.
    + intros Hnil. rewrite Hm by done. done.
    + intros d Hd Hres. destruct (Hdeps d Hd Hres) as (qd & Hqd & Hle).
      exists qd. split; [by apply Hkeep|lia].
  - rewrite lookup_insert_ne by done. intros Hy Ht.
    destruct (Hgood2 y q t Hy Ht) as [Hroot Hbelow]. split; [done|].
    intros d Hd Hres. destruct (Hbelow d Hd Hres) as (qd & Hqd & Hlt).
    exists qd. split; [by apply Hkeep|done].
Qed.
End PhaseProps.

(** *** The loop over all tasks and the annotated output *)

Lemma assign_all_returns tasks fuel :
  (length tasks < fuel)%nat → ∃ st, assign_all fuel tasks = Some st.
Proof.
  intros Hfuel. unfold assign_all.
  destruct (for_of_total
              (λ s, same_stack (taskMap_of tasks) phase_init s)
              (λ task s,
                 snd <$> assignPhase (taskMap_of tasks) fuel (id task) s)
              tasks phase_init) as (st & Hst & _); [done| |by exists st].
  intros t s _ Hs.
  destruct (assignPhase_returns (taskMap_of tasks) fuel (id t) s)
    as (p & s' & -> & Hs').
  - unfold same_stack in Hs. rewrite Hs. simpl.
    eapply Nat.le_lt_trans; [|done]. etrans; [|apply (size_task_ids tasks)].
    apply subseteq_size. rewrite dom_taskMap_of. set_solver.
  - simpl. exists s'. split; [done|]. by eapply same_stack_trans.
Qed.

Lemma assign_all_post tasks fuel st :
  assign_all fuel tasks = Some st →
  ph_inv (taskMap_of tasks) st
  ∧ (∀ t, t ∈ tasks → is_Some (phases st !! id t))
  ∧ ((∀ x, ¬ tc (map_depends_on (taskMap_of tasks)) x x) →
     ph_good (taskMap_of tasks) st).
Proof.
  intros Hrun. unfold assign_all in Hrun.
  pose (P := λ (pre : list Task) (s : PhaseState),
          ph_inv (taskMap_of tasks) s
          ∧ same_stack (taskMap_of tasks) phase_init s
          ∧ (∀ t, t ∈ pre → is_Some (phases s !! id t))
          ∧ ((∀ x, ¬ tc (map_depends_on (taskMap_of tasks)) x x) →
             ph_good (taskMap_of tasks) s)).
  assert (P tasks st) as (H1 & _ & H3 & H4); [|done].
  apply (for_of_prefix_inv P _ _ _ _ Hrun).
  - split; [|split; [done|split]].
    + split; [|done]. intros x p. simpl. by rewrite lookup_empty.
    + by intros t ?%elem_of_nil.
    + intros _ x p t. simpl. by rewrite lookup_empty.
  - intros pre t suf s1 s2 Hsplit (Hi1 & Hs1 & Hpre & Hg1) Hbody.
    destruct (assignPhase (taskMap_of tasks) fuel (id t) s1)
      as [[p s']|] eqn:Hcall; simpl in Hbody; [|done].
    injection Hbody as <-.
    destruct (assignPhase_post _ fuel (id t) s1 p s' Hcall Hi1)
      as [Hi Hmn Hss _ _ Hstored].
    assert (∀ y, y ∈ ph_visited s1 → y ∉ dom (taskMap_of tasks)) as Hfree.
    { intros y Hy Hyd.
      apply (same_stack_visited _ _ _ _ Hs1 Hyd) in Hy. set_solver. }
    split; [done|]. split; [by eapply same_stack_trans|]. split.
    + intros u [Hu| ->%list_elem_of_singleton]%elem_of_app.
      * destruct (Hpre u Hu) as [q Hq]. exists q. by eapply lookup_weaken.
      * assert (id t ∈ map id tasks) as Hid.
        { apply list_elem_of_fmap. exists t. split; [done|].
          rewrite Hsplit. set_solver. }
        exists p. apply Hstored; [by apply taskMap_of_is_Some|].
        intros Hin. by apply (Hfree _ Hin), elem_of_dom, taskMap_of_is_Some.
    + intros Hacyc. eapply assignPhase_dag; [done..|by apply Hg1|].
      intros y Hy Hyd. by destruct (Hfree y).
Qed.

Lemma phase_or_1_assigned taskMap st x p :
  ph_inv taskMap st → phases st !! x = Some p → phase_or_1 (phases st) x = p.
Proof.
  intros [Hinv _] Hp. unfold phase_or_1. rewrite Hp.
  destruct (Hinv x p Hp) as (_ & _ & Hpos & _).
  destruct (Z.eqb_spec p 0); [lia|done].
Qed.

Lemma has_phase_true phases p t :
  has_phase phases p t = true ↔ phases !! id t = Some p.
Proof.
  unfold has_phase. destruct (phases !! id t) as [q|]; [|done].
  rewrite Z.eqb_eq. split; congruence.
Qed.

Lemma optimizeTaskExecution_tasks phases tasks :
  map task_of (map (annotate phases tasks) tasks) = tasks.
Proof. rewrite map_map. simpl. apply map_id. Qed.

Lemma length_gt_1_other {A} `{EqDecision A} (l : list A) x :
  NoDup l → x ∈ l → (1 < length l)%nat ↔ ∃ y, y ∈ l ∧ y ≠ x.
Proof.
  intros Hnd Hx. split.
  - destruct l as [|a [|b l]]; simpl; [lia..|]. intros _.
    apply NoDup_cons in Hnd as [Hab _].
    destruct (decide (a = x)) as [->|Hne].
    + exists b. split; [set_solver|]. intros ->. set_solver.
    + exists a. split; [set_solver|done].
  - intros (y & Hy & Hne). destruct l as [|a [|b l]]; simpl; [|exfalso|lia].
    + by apply elem_of_nil in Hx.
    + apply list_elem_of_singleton in Hx, Hy. congruence.
Qed.

(** The result of [optimizeTaskExecution], read through the final phases. *)
Lemma optimizeTaskExecution_returns tasks fuel :
  (length tasks < fuel)%nat →
  ∃ st, assign_all fuel tasks = Some st
    ∧ optimizeTaskExecution fuel tasks
      = Some (map (annotate (phases st) tasks) tasks)
    ∧ ∀ t, t ∈ tasks →
        ∃ p, phases st !! id t = Some p
             ∧ phase (annotate (phases st) tasks t) = p.
Proof.
  intros Hfuel. destruct (assign_all_returns tasks fuel Hfuel) as (st & Hst).
  exists st. split; [done|]. unfold optimizeTaskExecution. rewrite Hst.
  split; [done|]. intros t Ht.
  destruct (assign_all_post tasks fuel st Hst) as (Hinv & Hall & _).
  destruct (Hall t Ht) as [p Hp]. exists p. split; [done|].
  by eapply phase_or_1_assigned.
Qed.

Lemma elem_of_annotated phases tasks o :
  o ∈ map (annotate phases tasks) tasks →
  ∃ t, t ∈ tasks ∧ o = annotate phases tasks t ∧ task_of o = t.
Proof.
  intros H. apply list_elem_of_fmap in H as (t & -> & Ht). exists t.
  split; [done|]. split; reflexivity.
Qed.

Lemma map_depends_on_unique tasks x y :
  NoDup (map id tasks) →
  map_depends_on (taskMap_of tasks) x y ↔ depends_on tasks x y.
Proof.
  intros Hnd. unfold map_depends_on, depends_on.
  by rewrite taskMap_of_find_task.
Qed.

Lemma acyclic_map_depends_on tasks :
  NoDup (map id tasks) → acyclic tasks →
  ∀ x, ¬ tc (map_depends_on (taskMap_of tasks)) x x.
Proof.
  intros Hnd Hacyc x Hx. apply (Hacyc x), cycle_iff.
  assert (∀ a b, tc (map_depends_on (taskMap_of tasks)) a b →
                 tc (depends_on tasks) a b) as Htc; [|by apply Htc].
  induction 1 as [a b H|a b c H _ IH].
  - apply tc_once. by apply (map_depends_on_unique _ _ _ Hnd).
  - eapply tc_l; [|done]. by apply (map_depends_on_unique _ _ _ Hnd).
Qed.

(** ** Execution-plan builder *)

(** The tasks of [pre] that are in phase [q], in order. *)
Definition in_phase (q : Z) (pre : list OptimizedTask) : list OptimizedTask :=
  filter (λ o, phase o = q) pre.

Definition entry_ok (pre : list OptimizedTask)
    (entry : Z * list OptimizedTask) : Prop :=
  entry.2 = in_phase entry.1 pre ∧ entry.2 ≠ [].

Lemma in_phase_snoc q pre t :
  in_phase q (pre ++ [t])
  = in_phase q pre ++ (if decide (phase t = q) then [t] else []).
Proof.
  unfold in_phase. rewrite filter_app. f_equal.
Qed.

Lemma phaseMap_push_keys m t :
  map fst (phaseMap_push m t)
  = map fst m ++ (if decide (phase t ∈ map fst m) then [] else [phase t]).
Proof.
  induction m as [|[q ts] m IH]; simpl.
  - destruct (decide (phase t ∈ [])) as [?%elem_of_nil|]; done.
  - destruct (Z.eqb_spec q (phase t)) as [->|Hne]; simpl.
    + destruct (decide (phase t ∈ phase t :: map fst m)) as [_|Hn];
        [by rewrite app_nil_r|].
      destruct Hn. set_solver.
    + rewrite IH. f_equal. f_equal.
      destruct (decide (phase t ∈ map fst m)),
               (decide (phase t ∈ q :: map fst m)); set_solver.
Qed.

Lemma phaseMap_push_ok pre m t :
  NoDup (map fst m) → Forall (entry_ok pre) m →
  (phase t ∉ map fst m → in_phase (phase t) pre = []) →
  Forall (entry_ok (pre ++ [t])) (phaseMap_push m t).
Proof.
  induction m as [|[q ts] m IH]; simpl; intros Hnd Hok Hnew.
  - apply Forall_singleton. unfold entry_ok. simpl.
    rewrite in_phase_snoc, Hnew by set_solver.
    destruct (decide (phase t = phase t)); done.
  - apply NoDup_cons in Hnd as [Hq Hnd].
    apply Forall_cons in Hok as [[Hts Hne] Hok]. simpl in *.
    destruct (Z.eqb_spec q (phase t)) as [->|Hqt].
    + apply Forall_cons. split.
      * unfold entry_ok. simpl. rewrite in_phase_snoc, Hts.
        destruct (decide (phase t = phase t)); [|done].
        split; [done|]. by destruct (in_phase _ _).
      * apply Forall_forall. intros [q' ts'] Hin.
        pose proof (proj1 (Forall_forall _ _) Hok _ Hin) as [H1 H2].
        unfold entry_ok in *. simpl in *. rewrite in_phase_snoc.
        destruct (decide (phase t = q')) as [<-|_];
          [|by rewrite app_nil_r].
        destruct Hq. apply list_elem_of_fmap. by exists (phase t, ts').
    + apply Forall_cons. split.
      * unfold entry_ok. simpl. rewrite in_phase_snoc.
        destruct (decide (phase t = q)); [congruence|].
        by rewrite app_nil_r.
      * apply IH; [done..|]. intros Hnot. apply Hnew. set_solver.
Qed.

Lemma group_by_phase_spec ots :
  NoDup (map fst (group_by_phase ots))
  ∧ Forall (entry_ok ots) (group_by_phase ots)
  ∧ ∀ o, o ∈ ots → phase o ∈ map fst (group_by_phase ots).
Proof.
  unfold group_by_phase.
  induction ots as [|t pre IH] using rev_ind; simpl.
  - split; [constructor|]. split; [constructor|]. by intros o ?%elem_of_nil.
  - rewrite fold_left_app. simpl.
    destruct IH as (Hnd & Hok & Hall).
    set (m := fold_left phaseMap_push pre []) in *.
    split; [|split].
    + rewrite phaseMap_push_keys.
      destruct (decide (phase t ∈ map fst m)); [by rewrite app_nil_r|].
      apply NoDup_app. split; [done|]. split; [set_solver|].
      apply NoDup_singleton.
    + apply phaseMap_push_ok; [done..|].
      intros Hnot. unfold in_phase.
      destruct (filter _ pre) as [|o l] eqn:Hf; [done|].
      assert (o ∈ filter (λ o, phase o = phase t) pre) as Ho
        by (rewrite Hf; set_solver).
      apply list_elem_of_filter in Ho as [Hp Ho].
      destruct Hnot. rewrite <- Hp. by apply Hall.
    + rewrite phaseMap_push_keys.
      intros o [Ho| ->%list_elem_of_singleton]%elem_of_app.
      * apply elem_of_app. left. by apply Hall.
      * destruct (decide (phase t ∈ map fst m)); set_solver.
Qed.

Lemma math_max_spec xs m :
  math_max xs = Some m → m ∈ xs ∧ ∀ x, x ∈ xs → x ≤ m.
Proof.
  destruct xs as [|x xs]; [done|]. simpl. intros [= <-].
  revert x. induction xs as [|y ys IH]; intros x; simpl.
  - split; [set_solver|]. intros z ->%list_elem_of_singleton. lia.
  - destruct (IH (Z.max x y)) as [Hin Hle]. split.
    + apply elem_of_cons in Hin as [Heq|Hin]; [|set_solver].
      rewrite Heq. destruct (Z.max_spec x y) as [[_ ->]|[_ ->]]; set_solver.
    + intros z [Hz|[Hz|Hz]%elem_of_cons]%elem_of_cons.
      * trans (Z.max x y); [lia|apply Hle; set_solver].
      * trans (Z.max x y); [lia|apply Hle; set_solver].
      * apply Hle. set_solver.
Qed.

Lemma plan_phase_of_spec ots entry :
  entry_ok ots entry →
  ∃ ph, plan_phase_of entry = Some ph
    ∧ pp_phase ph = entry.1
    ∧ pp_tasks ph = map (λ o, id (task_of o)) (in_phase entry.1 ots)
    ∧ (∃ o, o ∈ in_phase entry.1 ots
            ∧ estimatedHours (task_of o) = pp_estimatedHours ph)
    ∧ (∀ o, o ∈ in_phase entry.1 ots →
            estimatedHours (task_of o) ≤ pp_estimatedHours ph).
Proof.
  destruct entry as [q ts]. intros [Hts Hne]. simpl in *. subst ts.
  destruct (math_max (map (λ t, estimatedHours (task_of t)) (in_phase q ots)))
    as [m|] eqn:Hmax.
  - apply math_max_spec in Hmax as [Hin Hle]. eexists. split; [done|].
    simpl. split; [done|]. split; [done|]. split.
    + apply list_elem_of_fmap in Hin as (o & -> & Ho). by exists o.
    + intros o Ho. apply Hle. apply list_elem_of_fmap. by exists o.
  - by destruct (in_phase q ots).
Qed.

(** What the plan says of one phase: its tasks are the tasks of the input
    in that phase, in order, and its hours are the greatest hours among
    them. *)
Definition plan_phase_ok (ots : list OptimizedTask) (ph : PlanPhase) : Prop :=
  pp_tasks ph = map (λ o, id (task_of o)) (in_phase (pp_phase ph) ots)
  ∧ (∃ o, o ∈ in_phase (pp_phase ph) ots
          ∧ estimatedHours (task_of o) = pp_estimatedHours ph)
  ∧ (∀ o, o ∈ in_phase (pp_phase ph) ots →
          estimatedHours (task_of o) ≤ pp_estimatedHours ph).

Lemma mapM_plan_phase_of ots g :
  Forall (entry_ok ots) g →
  ∃ phs, mapM plan_phase_of g = Some phs
    ∧ map pp_phase phs = map fst g
    ∧ Forall (plan_phase_ok ots) phs.
Proof.
  induction g as [|entry g IH]; intros Hok.
  - exists []. done.
  - apply Forall_cons in Hok as [He Hok].
    destruct (plan_phase_of_spec ots entry He)
      as (ph & Hph & Hq & Hts & Hmax & Hle).
    destruct (IH Hok) as (phs & Hphs & Hkeys & Hall).
    exists (ph :: phs). split; [|split].
    + change (mapM plan_phase_of (entry :: g))
        with (y ← plan_phase_of entry; k ← mapM plan_phase_of g;
              mret (y :: k)).
      rewrite Hph. simpl. rewrite Hphs. done.
    + simpl. by rewrite Hq, Hkeys.
    + apply Forall_cons. split; [|done]. unfold plan_phase_ok.
      rewrite Hq. done.
Qed.

Definition sum_list (xs : list Z) : Z := foldr Z.add 0 xs.

Lemma fold_left_sum {A} (f : A → Z) l acc :
  fold_left (λ sum x, sum + f x) l acc = acc + sum_list (map f l).
Proof.
  revert acc; induction l as [|x l IH]; intros acc; simpl; [lia|].
  rewrite IH. unfold sum_list. simpl. lia.
Qed.

(** [ceil_div a b] is the least integer [n] with [a <= n * b]. *)
Lemma ceil_div_spec a b :
  0 < b → (ceil_div a b - 1) * b < a ≤ ceil_div a b * b.
Proof.
  intros Hb. unfold ceil_div.
  pose proof (Z.div_mod (- a) b ltac:(lia)) as Hdm.
  pose proof (Z.mod_pos_bound (- a) b Hb) as Hmod.
  nia.
Qed.

(** ** Validation report *)

Lemma filter_flat_map {A B} (p : B → bool) (f : A → list B) l :
  List.filter p (flat_map f l) = flat_map (λ x, List.filter p (f x)) l.
Proof.
  induction l as [|x l IH]; simpl; [done|].
  by rewrite List.filter_app, IH.
Qed.

Lemma flat_map_nil {A B} (f : A → list B) l :
  flat_map f l = [] ↔ ∀ x, x ∈ l → f x = [].
Proof.
  induction l as [|x l IH]; simpl.
  - split; [by intros _ y ?%elem_of_nil|done].
  - split.
    + intros [Hx Hl]%app_eq_nil y [->|Hy]%elem_of_cons; [done|].
      by apply IH.
    + intros H. rewrite (H x) by set_solver. simpl. apply IH.
      intros y Hy. apply H. set_solver.
Qed.

Lemma depExists_true tasks d : depExists tasks d = true ↔ d ∈ map id tasks.
Proof.
  unfold depExists. rewrite existsb_exists, list_elem_of_fmap. split.
  - intros (t & Hin & Heq). exists t. apply String.eqb_eq in Heq.
    split; [done|]. by apply list_elem_of_In.
  - intros (t & -> & Hin). exists t. split; [by apply list_elem_of_In|].
    apply String.eqb_refl.
Qed.

Lemma dependency_issues_errors tasks t :
  List.filter is_error (dependency_issues tasks t) = dependency_issues tasks t.
Proof.
  unfold dependency_issues. induction (dependencies t) as [|d ds IH];
    simpl; [done|].
  destruct (depExists tasks d); simpl; [done|]. by rewrite IH.
Qed.

Lemma dependency_issues_nil tasks t :
  dependency_issues tasks t = [] ↔
  ∀ d, d ∈ dependencies t → d ∈ map id tasks.
Proof.
  unfold dependency_issues. rewrite flat_map_nil. split.
  - intros H d Hd. specialize (H d Hd). apply depExists_true.
    by destruct (depExists tasks d).
  - intros H d Hd. apply H, depExists_true in Hd. by rewrite Hd.
Qed.

Lemma task_issues_errors toLowerCase cs tasks t :
  List.filter is_error (task_issues toLowerCase cs tasks t)
  = dependency_issues tasks t.
Proof.
  unfold task_issues. rewrite !List.filter_app, dependency_issues_errors.
  assert (List.filter is_error (constraint_issues toLowerCase cs t) = [])
    as ->.
  { unfold constraint_issues. destruct (cs ≫= technicalConstraints); [|done].
    destruct (0 <? length _)%nat; [|done]. by destruct (existsb _ _). }
  assert (List.filter is_error (criteria_issues t) = []) as ->.
  { unfold criteria_issues. by destruct (_ =? 0)%nat. }
  by rewrite app_nil_r.
Qed.

Lemma capability_issues_errors toLowerCase cs tasks :
  List.filter is_error (capability_issues toLowerCase cs tasks) = [].
Proof.
  unfold capability_issues. destruct (cs ≫= requiredCapabilities); [|done].
  destruct (0 <? length _)%nat; [|done].
  by destruct (0 <? length (List.filter _ _))%nat.
Qed.

Lemma cycle_issues_errors cycles :
  List.filter is_error (map cycle_issue cycles) = map cycle_issue cycles.
Proof. induction cycles as [|c cs IH]; simpl; [done|]. by rewrite IH. Qed.

Lemma generateExecutionPlan_returns ots cs :
  ∃ plan, generateExecutionPlan ots cs = Some plan.
Proof.
  destruct (group_by_phase_spec ots) as (_ & Hok & _).
  destruct (mapM_plan_phase_of ots _ Hok) as (phs & Hphs & _).
  unfold generateExecutionPlan. rewrite Hphs. simpl. eauto.
Qed.

(** ** On an acyclic graph [buildPath] and [execute] return *)

Section BuildPathReturns.
Variable taskMap : gmap string Task.
Hypothesis acyclic_map : ∀ x, ¬ tc (map_depends_on taskMap) x x.

Lemma pick_loop_returns dfuel deps best :
  (size (dom taskMap) < dfuel)%nat →
  ∃ m c, for_of deps (pick_longer taskMap dfuel) best = Some (m, c)
         ∧ (c = best.2 ∨ c ∈ deps).
Proof.
  intros Hd.
  destruct (for_of_total (λ b : Z * string, b.2 = best.2 ∨ b.2 ∈ deps)
              (pick_longer taskMap dfuel) deps best)
    as ([m c] & Hrun & Hc); [by left| |by exists m, c].
  intros dep b Hdep Hb. unfold pick_longer, duration_from_clear.
  destruct (calculateTaskDuration_returns taskMap dfuel dep ∅)
    as (d & v & -> & _).
  - eapply Nat.le_lt_trans; [|done]. apply subseteq_size. set_solver.
  - simpl. eexists. split; [done|]. destruct (b.1 <? d); simpl; auto.
Qed.

Lemma stack_length path :
  NoDup path → (∀ y, y ∈ path → y ∈ dom taskMap) →
  (length path ≤ size (dom taskMap))%nat.
Proof.
  intros Hnd Hin. rewrite <- (size_list_to_set (C := gset string) path Hnd).
  apply subseteq_size. intros y Hy. apply Hin. set_solver.
Qed.

Lemma buildPath_returns dfuel fuel : ∀ x path,
  (size (dom taskMap) < dfuel)%nat →
  NoDup path →
  (∀ y, y ∈ path → y ∈ dom taskMap ∧ tc (map_depends_on taskMap) y x) →
  (size (dom taskMap) < fuel + length path)%nat →
  ∃ r, buildPath taskMap dfuel fuel x path = Some r.
Proof.
  induction fuel as [|fuel IH]; intros x path Hd Hnd Hpath Hsz.
  - pose proof (stack_length path Hnd (λ y Hy, proj1 (Hpath y Hy))). lia.
  - simpl. destruct (taskMap !! x) as [task|] eqn:Hx; [|by eauto].
    destruct (0 <? length (dependencies task))%nat; [|by eauto].
    destruct (pick_loop_returns dfuel (dependencies task) (0, "") Hd)
      as (m & c & -> & Hc).
    simpl. destruct (truthy c) eqn:Htr; [|by eauto].
    destruct Hc as [-> |Hc]; [done|].
    assert (map_depends_on taskMap x c) as Hxc by by exists task.
    apply IH; [done| | |simpl; lia].
    + apply NoDup_cons. split; [|done]. intros Hin.
      by apply (acyclic_map x), Hpath.
    + intros y [->|Hy]%elem_of_cons.
      * split; [apply elem_of_dom; eauto|by apply tc_once].
      * split; [by apply Hpath|]. eapply tc_r; [|done]. by apply Hpath.
Qed.
End BuildPathReturns.

Lemma calculateCriticalPath_returns tasks fuel :
  (∀ x, ¬ tc (map_depends_on (taskMap_of tasks)) x x) →
  (length tasks < fuel)%nat →
  ∃ path, calculateCriticalPath fuel tasks = Some path.
Proof.
  intros Hacyc Hfuel. unfold calculateCriticalPath.
  assert (size (dom (taskMap_of tasks)) < fuel)%nat as Hsz.
  { rewrite dom_taskMap_of. pose proof (size_task_ids tasks). lia. }
  destruct (for_of_total (λ _, True)
              (λ task, pick_longer (taskMap_of tasks) fuel (id task))
              tasks (0, "")) as ([m c] & -> & _); [done| |].
  - intros t b _ _. unfold pick_longer.
    destruct (duration_from_clear_returns tasks fuel (id t) Hfuel)
      as (d & -> & _).
    simpl. eauto.
  - simpl. destruct (truthy c); [|by eauto].
    apply buildPath_returns; [done..|constructor| |simpl; lia].
    by intros y ?%elem_of_nil.
Qed.

(** On an acyclic task set, [execute] returns a report. *)
Lemma execute_returns toLowerCase context fuel :
  (∀ x, ¬ tc (map_depends_on (taskMap_of (tasks context))) x x) →
  (length (tasks context) < fuel)%nat →
  ∃ out, execute toLowerCase fuel context = Some out.
Proof.
  intros Hacyc Hfuel. unfold execute.
  destruct (dfs_roots_return (tasks context) fuel Hfuel) as (st & Hst).
  unfold findCircularDependencies. rewrite Hst. simpl.
  destruct (calculateCriticalPath_returns _ fuel Hacyc Hfuel) as (path & ->).
  simpl.
  destruct (optimizeTaskExecution_returns _ fuel Hfuel) as (ps & _ & -> & _).
  simpl.
  destruct (generateExecutionPlan_returns
              (map (annotate (phases ps) (tasks context)) (tasks context))
              (constraints context)) as (plan & ->).
  simpl. eauto.
Qed.

(** ** Example task sets *)

Definition mkTask (i : string) (h : Z) (deps : list string) : Task :=
  {| id := i; title := i; description := ""; category := backend;
     priority := medium; estimatedHours := h; skillLevel := mid;
     dependencies := deps; acceptanceCriteria := ["done"] |}.

(** The scenario of the specification: B and C both depend on A. *)
Definition ex_abc : list Task :=
  [mkTask "A" 2 []; mkTask "B" 3 ["A"]; mkTask "C" 1 ["A"]].

(** Two tasks that depend on each other. *)
Definition ex_xy : list Task := [mkTask "X" 1 ["Y"]; mkTask "Y" 1 ["X"]].

(** A task that depends on itself. *)
Definition ex_self : list Task := [mkTask "X" 1 ["X"]].

(** A diamond: D depends on B and C, which both depend on A. *)
Definition ex_diamond : list Task :=
  [mkTask "A" 1 []; mkTask "B" 1 ["A"]; mkTask "C" 2 ["A"];
   mkTask "D" 1 ["B"; "C"]].

(** Two tasks without hours. *)
Definition ex_zero : list Task := [mkTask "A" 0 []; mkTask "B" 0 ["A"]].

(** A task whose only dependency is absent from the set. *)
Definition ex_ghost : list Task := [mkTask "Z" 1 ["ghost"]].

(** Two tasks with the same id: the first has only a dangling dependency,
    the second has none. *)
Definition ex_dup : list Task := [mkTask "A" 1 ["ghost"]; mkTask "A" 1 []].

(** A rank that decreases along every resolvable dependency shows that a
    task set is acyclic; the check is executable. *)
Definition rank_ok (tasks : list Task) (rank : string → nat) : bool :=
  forallb
    (λ t, forallb
            (λ d, negb (bool_decide (d ∈ map id tasks))
                  || (rank d <? rank (id t))%nat)
            (dependencies t))
    tasks.

Lemma rank_ok_acyclic tasks rank : rank_ok tasks rank = true → acyclic tasks.
Proof.
  intros Hok.
  assert (∀ x y, dep_edge tasks x y → (rank y < rank x)%nat) as Hedge.
  { intros x y [(t & Ht & Hy) Hres]. apply find_task_Some in Ht as [<- Hin].
    unfold rank_ok in Hok. rewrite forallb_forall in Hok.
    apply list_elem_of_In, Hok in Hin. rewrite forallb_forall in Hin.
    apply list_elem_of_In, Hin in Hy.
    apply orb_true_iff in Hy as [Hy|Hy].
    - apply negb_true_iff, bool_decide_eq_false in Hy. by destruct Hy.
    - by apply Nat.ltb_lt in Hy. }
  assert (∀ x y, tc (dep_edge tasks) x y → (rank y < rank x)%nat) as Htc.
  { induction 1 as [x y H|x y z H _ IH]; [by apply Hedge|].
    apply Hedge in H. lia. }
  intros x Hx. apply Htc in Hx. lia.
Qed.

(** ** A self-dependency sends [buildPath] into unbounded recursion *)

Lemma ex_self_lookup :
  taskMap_of ex_self !! "X" = Some (mkTask "X" 1 ["X"]).
Proof. vm_compute. reflexivity. Qed.

Lemma ex_self_pick fuel best :
  pick_longer (taskMap_of ex_self) fuel "X" (0, best) = None
  ∨ pick_longer (taskMap_of ex_self) fuel "X" (0, best) = Some (1, "X").
Proof.
  destruct fuel as [|[|fuel]]; [left; reflexivity..|]. right.
  unfold pick_longer, duration_from_clear.
  assert (calculateTaskDuration (taskMap_of ex_self) 2 "X" ∅
          = Some (1, {["X"]} ∪ ∅)) as H2 by (vm_compute; reflexivity).
  rewrite (calculateTaskDuration_mono _ 2 (S (S fuel)) _ _ _
             ltac:(lia) H2).
  reflexivity.
Qed.

Lemma ex_self_buildPath dfuel fuel : ∀ path,
  buildPath (taskMap_of ex_self) dfuel fuel "X" path = None.
Proof.
  induction fuel as [|fuel IH]; intros path; [done|]. simpl.
  rewrite ex_self_lookup. simpl.
  destruct (ex_self_pick dfuel "") as [-> | ->]; simpl; [done|apply IH].
Qed.

Lemma ex_self_calculateCriticalPath fuel :
  calculateCriticalPath fuel ex_self = None.
Proof.
  unfold calculateCriticalPath. simpl.
  destruct (ex_self_pick fuel "") as [-> | ->]; simpl;
    [done|apply ex_self_buildPath].
Qed.

(** The same happens on two tasks that depend on each other, the cyclic
    scenario of the specification. *)
Lemma ex_xy_lookup :
  taskMap_of ex_xy !! "X" = Some (mkTask "X" 1 ["Y"])
  ∧ taskMap_of ex_xy !! "Y" = Some (mkTask "Y" 1 ["X"]).
Proof. split; vm_compute; reflexivity. Qed.

Lemma ex_xy_pick fuel x best :
  x = "X" ∨ x = "Y" →
  pick_longer (taskMap_of ex_xy) fuel x (0, best) = None
  ∨ pick_longer (taskMap_of ex_xy) fuel x (0, best) = Some (2, x).
Proof.
  intros Hx.
  destruct fuel as [|[|[|fuel]]];
    [left; destruct Hx as [-> | ->]; reflexivity..|].
  right. unfold pick_longer, duration_from_clear.
  assert (∃ v, calculateTaskDuration (taskMap_of ex_xy) 3 x ∅ = Some (2, v))
    as [v H3].
  { destruct Hx as [-> | ->]; eexists; vm_compute; reflexivity. }
  rewrite (calculateTaskDuration_mono _ 3 (S (S (S fuel))) _ _ _
             ltac:(lia) H3).
  reflexivity.
Qed.

Lemma ex_xy_buildPath dfuel fuel : ∀ path,
  buildPath (taskMap_of ex_xy) dfuel fuel "X" path = None
  ∧ buildPath (taskMap_of ex_xy) dfuel fuel "Y" path = None.
Proof.
  destruct ex_xy_lookup as [HX HY].
  induction fuel as [|fuel IH]; intros path; [done|]. simpl.
  rewrite HX, HY. simpl. split.
  - destruct (ex_xy_pick dfuel "Y" "") as [-> | ->]; simpl; [auto|done|].
    apply IH.
  - destruct (ex_xy_pick dfuel "X" "") as [-> | ->]; simpl; [auto|done|].
    apply IH.
Qed.

Lemma ex_xy_calculateCriticalPath fuel :
  calculateCriticalPath fuel ex_xy = None.
Proof.
  unfold calculateCriticalPath. simpl.
  destruct (ex_xy_pick fuel "X" "") as [-> | ->]; simpl; [auto|done|].
  unfold pick_longer at 1.
  destruct (duration_from_clear _ fuel "Y") as [d|] eqn:Hd; simpl; [|done].
  destruct (ex_xy_pick fuel "Y" "X") as [H|H]; [auto|..];
    unfold pick_longer in H; rewrite Hd in H; simpl in H; [done|].
  assert (d = 2) as ->.
  { destruct (0 <? d) eqn:E; [congruence|]. discriminate. }
  simpl. apply ex_xy_buildPath.
Qed.

(** With unique ids, [depends_on] is the declared dependency relation of
    the task set. *)
Lemma depends_on_unique tasks x y :
  NoDup (map id tasks) →
  depends_on tasks x y ↔ ∃ t, t ∈ tasks ∧ id t = x ∧ y ∈ dependencies t.
Proof.
  intros Hnd. split.
  - intros (t & Ht & Hy). apply find_task_Some in Ht as [Hid Hin]. eauto.
  - intros (t & Hin & <- & Hy). exists t. split; [|done].
    by apply find_task_unique.
Qed.

(** The three-task scenario of the specification: phases 1, 2, 2, the
    critical path A, B, and B and C startable in parallel. *)
Example scenario_abc :
  (map (λ o, (id (task_of o), phase o, canStartInParallel o))
     <$> optimizeTaskExecution 4 ex_abc)
  = Some [("A", 1, false); ("B", 2, true); ("C", 2, true)]
  ∧ calculateCriticalPath 4 ex_abc = Some ["A"; "B"]
  ∧ path_hours ex_abc ["A"; "B"] = 5
  ∧ findCircularDependencies 4 ex_abc = Some [].
Proof. repeat split; vm_compute; reflexivity. Qed.

(** The cyclic scenario: the detector reports the cycle X, Y, X. *)
Example scenario_xy :
  findCircularDependencies 3 ex_xy = Some [["X"; "Y"; "X"]].
Proof. vm_compute. reflexivity. Qed.

(** The plan of the three-task scenario: phase 2 costs the 3 hours of B,
    not the 4 hours of B and C together. *)
Example scenario_abc_plan :
  (plan ← (optimizeTaskExecution 4 ex_abc
           ≫= λ ots, generateExecutionPlan ots None);
   Some (map (λ ph, (pp_phase ph, pp_tasks ph, pp_estimatedHours ph))
             (plan_phases plan),
         estimatedDuration plan))
  = Some ([(1, ["A"], 2); (2, ["B"; "C"], 3)], "1 days").
Proof. vm_compute. reflexivity. Qed.

(** Facts about the example task sets. *)

Lemma ex_xy_edges : dep_edge ex_xy "X" "Y" ∧ dep_edge ex_xy "Y" "X".
Proof.
  split; (split; [|unfold resolves; simpl; set_solver]).
  - exists (mkTask "X" 1 ["Y"]). split; [reflexivity|set_solver].
  - exists (mkTask "Y" 1 ["X"]). split; [reflexivity|set_solver].
Qed.

Lemma ex_xy_has_cycle : has_cycle ex_xy.
Proof.
  destruct ex_xy_edges as [Hxy Hyx].
  exists "X". eapply tc_l; [exact Hxy|]. apply tc_once. exact Hyx.
Qed.

Lemma ex_abc_facts : NoDup (map id ex_abc) ∧ acyclic ex_abc.
Proof.
  split.
  - simpl. repeat (constructor; [set_solver|]). constructor.
  - apply (rank_ok_acyclic _ (λ x, if decide (x = "A") then 0 else 1)%nat).
    vm_compute. reflexivity.
Qed.

(** * The claims *)

(** C1, at a failing input.  On the diamond (unique ids, acyclic, every
    dependency resolves) the path that [calculateCriticalPath] returns is
    A, C, with 3 hours in total,
    while A, C, D is a dependency path with 4 hours: while computing the
    duration of D, the dependency A of C has already been visited through B
    and counts for 0, so D is never selected as the terminal task. *)
Theorem calculateCriticalPath_diamond_not_longest :
  NoDup (map id ex_diamond)
  ∧ acyclic ex_diamond
  ∧ (∀ t d, t ∈ ex_diamond → d ∈ dependencies t → d ∈ map id ex_diamond)
  ∧ (∀ fuel, (4 < fuel)%nat →
       calculateCriticalPath fuel ex_diamond = Some ["A"; "C"])
  ∧ dependency_path ex_diamond ["A"; "C"]
  ∧ dependency_path ex_diamond ["A"; "C"; "D"]
  ∧ path_hours ex_diamond ["A"; "C"] = 3
  ∧ path_hours ex_diamond ["A"; "C"; "D"] = 4.
Proof.
  assert (∀ x y, (x, y) ∈ [("C", "A"); ("D", "C")] → dep_edge ex_diamond x y)
    as Hedge.
  { intros x y Hin.
    repeat (apply elem_of_cons in Hin as [[= -> ->]|Hin];
            [split; [eexists; split; [reflexivity|set_solver]
                    |unfold resolves; simpl; set_solver]|]).
    by apply elem_of_nil in Hin. }
  assert (Forall (resolves ex_diamond) ["A"; "C"; "D"]) as Hres.
  { repeat constructor; unfold resolves; simpl; set_solver. }
  split; [|split; [|split; [|split; [|split; [|split; [|split]]]]]].
  - simpl. repeat (constructor; [set_solver|]). constructor.
  - apply (rank_ok_acyclic _
             (λ x, if decide (x = "A") then 0
                   else if decide (x = "D") then 2 else 1)%nat).
    vm_compute. reflexivity.
  - intros t d Ht Hd. unfold ex_diamond in Ht.
    repeat (apply elem_of_cons in Ht as [->|Ht]; [simpl in *; set_solver|]).
    by apply elem_of_nil in Ht.
  - intros fuel Hfuel. apply (calculateCriticalPath_mono _ 5); [lia|].
    vm_compute. reflexivity.
  - split.
    + apply Forall_cons in Hres as [HA [HC _]%Forall_cons].
      by repeat constructor.
    + simpl. split; [|done]. apply Hedge. set_solver.
  - split; [done|]. simpl.
    split; [apply Hedge; set_solver|]. split; [apply Hedge; set_solver|done].
  - vm_compute. reflexivity.
  - vm_compute. reflexivity.
Qed.



(** C3. For every task set with unique ids whose resolvable dependency
    edges form a DAG, the phase assigner returns the tasks annotated with
    an integer phase that is at least 1, that is strictly greater than the
    phase of every dependency that resolves to a task of the set, and that
    is exactly 1 for a task with an empty dependency list. *)
Theorem phases_respect_dependencies (tasks : list Task) (fuel : nat) :
  NoDup (map id tasks) → acyclic tasks → (length tasks < fuel)%nat →
  ∃ out, optimizeTaskExecution fuel tasks = Some out
    ∧ map task_of out = tasks
    ∧ ∀ o, o ∈ out →
        1 ≤ phase o
        ∧ (dependencies (task_of o) = [] → phase o = 1)
        ∧ ∀ o', o' ∈ out →
                id (task_of o') ∈ dependencies (task_of o) →
                phase o' < phase o.
Proof.
  intros Hnd Hacyc Hfuel.
  destruct (optimizeTaskExecution_returns tasks fuel Hfuel)
    as (st & Hst & -> & Hph).
  eexists. split; [done|]. split; [apply optimizeTaskExecution_tasks|].
  destruct (assign_all_post tasks fuel st Hst) as (Hinv & _ & Hgood).
  specialize (Hgood (acyclic_map_depends_on tasks Hnd Hacyc)).
  intros o (t & Ht & -> & Hto)%elem_of_annotated. rewrite Hto.
  destruct (Hph t Ht) as (p & Hp & ->).
  destruct (proj1 Hinv _ _ Hp) as (_ & _ & Hpos & _).
  destruct (Hgood (id t) p t Hp (taskMap_of_unique tasks t Hnd Ht))
    as [Hroot Hbelow].
  split; [done|]. split; [done|].
  intros o' (t' & Ht' & -> & Hto')%elem_of_annotated. rewrite Hto'.
  intros Hdep. destruct (Hph t' Ht') as (q & Hq & ->).
  destruct (Hbelow (id t') Hdep) as (q' & Hq' & Hlt).
  - apply taskMap_of_is_Some, list_elem_of_fmap. eauto.
  - assert (q = q') as -> by congruence. done.
Qed.

Lemma phases_respect_dependencies_witness :
  NoDup (map id ex_abc) ∧ acyclic ex_abc
  ∧ ∃ out, optimizeTaskExecution 4 ex_abc = Some out
      ∧ map task_of out = ex_abc
      ∧ ∀ o, o ∈ out →
          1 ≤ phase o
          ∧ (dependencies (task_of o) = [] → phase o = 1)
          ∧ ∀ o', o' ∈ out →
                  id (task_of o') ∈ dependencies (task_of o) →
                  phase o' < phase o.
Proof.
  destruct ex_abc_facts as [Hnd Hacyc].
  split; [exact Hnd|]. split; [exact Hacyc|].
  apply (phases_respect_dependencies ex_abc 4 Hnd Hacyc). simpl. lia.
Defined.



(** C5, at two failing inputs.  For a single task that depends on itself
    the cycle detector and the phase assigner return, but [buildPath] calls
    itself on the same task at every depth: [calculateCriticalPath], and
    with it [execute], returns at no stack depth.  The same holds for two
    tasks that depend on each other. *)
Theorem execute_cyclic_never_returns :
  findCircularDependencies 2 ex_self = Some [["X"; "X"]]
  ∧ (∃ out, optimizeTaskExecution 2 ex_self = Some out)
  ∧ (∀ fuel, calculateCriticalPath fuel ex_self = None)
  ∧ (∀ toLowerCase fuel,
       execute toLowerCase fuel {| tasks := ex_self; constraints := None |}
       = None)
  ∧ (∀ toLowerCase fuel,
       execute toLowerCase fuel {| tasks := ex_xy; constraints := None |}
       = None).
Proof.
  split; [vm_compute; reflexivity|].
  split; [eexists; vm_compute; reflexivity|].
  split; [apply ex_self_calculateCriticalPath|].
  split; intros toLowerCase fuel; unfold execute; simpl tasks.
  - destruct (findCircularDependencies fuel ex_self); simpl; [|done].
    by rewrite ex_self_calculateCriticalPath.
  - destruct (findCircularDependencies fuel ex_xy); simpl; [|done].
    by rewrite ex_xy_calculateCriticalPath.
Qed.


(** C7. For every task set whose dependency edges, restricted to ids
    present in the set, form a DAG, [findCircularDependencies] returns
    (at any stack depth above the number of tasks) the empty list. *)
Theorem findCircularDependencies_acyclic_empty (tasks : list Task) (fuel : nat) :
  acyclic tasks → (length tasks < fuel)%nat →
  findCircularDependencies fuel tasks = Some [].
Proof.
  intros Hacyc Hfuel. unfold findCircularDependencies.
  destruct (dfs_roots_return tasks fuel Hfuel) as (st & Hrun).
  rewrite Hrun. simpl. f_equal.
  destruct (dfs_roots_post tasks fuel st Hrun)
    as ((_ & _ & new & Hnew & Hok) & _).
  simpl in Hnew. rewrite Hnew. destruct new as [|c new]; [done|].
  apply Forall_cons in Hok as [Hc _].
  apply cycle_ok_tc in Hc as (y & Hy). by destruct (Hacyc y).
Qed.

Lemma findCircularDependencies_acyclic_empty_witness :
  acyclic ex_abc ∧ findCircularDependencies 4 ex_abc = Some [].
Proof.
  assert (acyclic ex_abc) as Hacyc.
  { apply (rank_ok_acyclic _ (λ x, if decide (x = "A") then 0 else 1)%nat).
    vm_compute. reflexivity. }
  split; [exact Hacyc|].
  apply (findCircularDependencies_acyclic_empty ex_abc 4 Hacyc).
  simpl. lia.
Defined.

(** C8. For every task set with unique ids, a task of the annotated output
    has [canStartInParallel = true] if and only if some other task of the
    output (one with a different id) has the same phase. *)
Theorem canStartInParallel_iff (tasks : list Task) (fuel : nat) :
  NoDup (map id tasks) → (length tasks < fuel)%nat →
  ∃ out, optimizeTaskExecution fuel tasks = Some out
    ∧ map task_of out = tasks
    ∧ ∀ o, o ∈ out →
        canStartInParallel o = true ↔
        ∃ o', o' ∈ out ∧ id (task_of o') ≠ id (task_of o)
              ∧ phase o' = phase o.
Proof.
  intros Hnd Hfuel.
  destruct (optimizeTaskExecution_returns tasks fuel Hfuel)
    as (st & Hst & -> & Hph).
  eexists. split; [done|]. split; [apply optimizeTaskExecution_tasks|].
  intros o (t & Ht & -> & _)%elem_of_annotated.
  destruct (Hph t Ht) as (p & Hp & Hpt).
  set (same := filter (λ u, has_phase (phases st) p u = true) tasks).
  assert (canStartInParallel (annotate (phases st) tasks t)
          = (1 <? length (map id same))%nat) as ->.
  { unfold annotate in *. simpl in *. rewrite Hpt. by rewrite length_map. }
  assert (NoDup (map id same)) as Hnd'.
  { eapply sublist_NoDup; [exact Hnd|].
    apply fmap_sublist, sublist_filter. }
  assert (id t ∈ map id same) as Hin.
  { apply list_elem_of_fmap. exists t. split; [done|].
    apply list_elem_of_filter. split; [by apply has_phase_true|done]. }
  rewrite Nat.ltb_lt, (length_gt_1_other _ _ Hnd' Hin). split.
  - intros (y & (u & -> & [Hu Hin']%list_elem_of_filter)%list_elem_of_fmap
              & Hne).
    exists (annotate (phases st) tasks u).
    split; [apply list_elem_of_fmap; eauto|]. split; [exact Hne|].
    destruct (Hph u Hin') as (q & Hq & Hqu). apply has_phase_true in Hu.
    rewrite Hqu, Hpt. congruence.
  - intros (o' & (u & Hu & -> & _)%elem_of_annotated & Hne & Heq).
    exists (id u). split; [|exact Hne].
    apply list_elem_of_fmap. exists u. split; [done|].
    apply list_elem_of_filter. split; [|done]. apply has_phase_true.
    destruct (Hph u Hu) as (q & Hq & Hqu). rewrite Hqu, Hpt in Heq.
    congruence.
Qed.

Lemma canStartInParallel_iff_witness :
  NoDup (map id ex_abc)
  ∧ ∃ out, optimizeTaskExecution 4 ex_abc = Some out
      ∧ map task_of out = ex_abc
      ∧ ∀ o, o ∈ out →
          canStartInParallel o = true ↔
          ∃ o', o' ∈ out ∧ id (task_of o') ≠ id (task_of o)
                ∧ phase o' = phase o.
Proof.
  destruct ex_abc_facts as [Hnd _]. split; [exact Hnd|].
  apply (canStartInParallel_iff ex_abc 4 Hnd). simpl. lia.
Defined.

(** C9, as stated, fails when two tasks share an id.  In [ex_dup] the first
    task has a non-empty dependency list made of one dangling reference, but
    the task map resolves its id to the second task, which has no
    dependency: both tasks are given phase 1. *)
Lemma dangling_phase_2_counterexample :
  ∃ out o,
    optimizeTaskExecution 3 ex_dup = Some out
    ∧ o ∈ out
    ∧ task_of o = mkTask "A" 1 ["ghost"]
    ∧ dependencies (task_of o) ≠ []
    ∧ (∀ d, d ∈ dependencies (task_of o) → d ∉ map id ex_dup)
    ∧ phase o = 1.
Proof.
  eexists _, {| task_of := mkTask "A" 1 ["ghost"]; phase := 1;
                canStartInParallel := true |}.
  split; [vm_compute; reflexivity|].
  split; [set_solver|]. split; [done|]. split; [done|]. split; [|done].
  simpl. set_solver.
Qed.

(** C9, amended.  On every input, a task that is the one its id resolves
    to in the task map (the last task with that id; every task when the ids
    are unique), and whose dependency list is not empty and holds only
    dangling references, is given phase 2: each dangling dependency counts
    as a phase 1, so such a task is never in phase 1. *)
Theorem dangling_dependencies_phase_2 (tasks : list Task) (fuel : nat) :
  (length tasks < fuel)%nat →
  ∃ out, optimizeTaskExecution fuel tasks = Some out
    ∧ map task_of out = tasks
    ∧ (∀ o, o ∈ out →
         taskMap_of tasks !! id (task_of o) = Some (task_of o) →
         dependencies (task_of o) ≠ [] →
         (∀ d, d ∈ dependencies (task_of o) → d ∉ map id tasks) →
         phase o = 2)
    ∧ (NoDup (map id tasks) →
       ∀ o, o ∈ out →
         dependencies (task_of o) ≠ [] →
         (∀ d, d ∈ dependencies (task_of o) → d ∉ map id tasks) →
         phase o = 2).
Proof.
  intros Hfuel.
  destruct (optimizeTaskExecution_returns tasks fuel Hfuel)
    as (st & Hst & -> & Hph).
  eexists. split; [done|]. split; [apply optimizeTaskExecution_tasks|].
  destruct (assign_all_post tasks fuel st Hst) as (Hinv & _ & _).
  assert (∀ o, o ∈ map (annotate (phases st) tasks) tasks →
            taskMap_of tasks !! id (task_of o) = Some (task_of o) →
            dependencies (task_of o) ≠ [] →
            (∀ d, d ∈ dependencies (task_of o) → d ∉ map id tasks) →
            phase o = 2) as Hmain.
  { intros o (t & Ht & -> & Hto)%elem_of_annotated. rewrite Hto.
    intros Hres Hne Hdang. destruct (Hph t Ht) as (p & Hp & ->).
    destruct (proj1 Hinv _ _ Hp) as (t' & Ht' & _ & H2).
    rewrite Hres in Ht'. injection Ht' as <-. apply H2.
    split; [done|]. intros d Hd. by apply taskMap_of_None, Hdang. }
  split; [exact Hmain|].
  intros Hnd o Ho. apply Hmain; [done|].
  apply elem_of_annotated in Ho as (t & Ht & _ & ->).
  by apply taskMap_of_unique.
Qed.

Lemma dangling_dependencies_phase_2_witness :
  ∃ out, optimizeTaskExecution 2 ex_ghost = Some out
    ∧ map task_of out = ex_ghost
    ∧ (∀ o, o ∈ out →
         taskMap_of ex_ghost !! id (task_of o) = Some (task_of o) →
         dependencies (task_of o) ≠ [] →
         (∀ d, d ∈ dependencies (task_of o) → d ∉ map id ex_ghost) →
         phase o = 2)
    ∧ (NoDup (map id ex_ghost) →
       ∀ o, o ∈ out →
         dependencies (task_of o) ≠ [] →
         (∀ d, d ∈ dependencies (task_of o) → d ∉ map id ex_ghost) →
         phase o = 2).
Proof.
  apply (dangling_dependencies_phase_2 ex_ghost 2). simpl. lia.
Defined.

(** C10. When every task has [estimatedHours] 0, [calculateCriticalPath]
    returns the empty list, whatever the dependencies are: no duration is
    strictly greater than the initial maximum 0, so no terminal task is
    selected.  (The statement does not need the set to be non-empty.) *)
Theorem calculateCriticalPath_zero_hours (tasks : list Task) (fuel : nat) :
  (∀ t, t ∈ tasks → estimatedHours t = 0) → (length tasks < fuel)%nat →
  calculateCriticalPath fuel tasks = Some [].
Proof.
  intros Hzero Hfuel. unfold calculateCriticalPath.
  destruct (for_of_total (λ best, best = (0, ""))
              (λ task, pick_longer (taskMap_of tasks) fuel (id task))
              tasks (0, "")) as (best & -> & ->); [done| |done].
  intros t best _ ->. unfold pick_longer.
  destruct (duration_from_clear_returns tasks fuel (id t) Hfuel)
    as (d & -> & Hd).
  rewrite (Hd Hzero). simpl. eauto.
Qed.

Lemma calculateCriticalPath_zero_hours_witness :
  ex_zero ≠ []
  ∧ (∀ t, t ∈ ex_zero → estimatedHours t = 0)
  ∧ calculateCriticalPath 3 ex_zero = Some [].
Proof.
  assert (∀ t, t ∈ ex_zero → estimatedHours t = 0) as Hzero.
  { intros t Ht. unfold ex_zero in Ht.
    repeat (apply elem_of_cons in Ht as [->|Ht]; [reflexivity|]).
    by apply elem_of_nil in Ht. }
  split; [done|]. split; [exact Hzero|].
  apply (calculateCriticalPath_zero_hours ex_zero 3 Hzero). simpl. lia.
Defined.

(** * Further properties of the scheduler *)

(** ** Cycle detector *)

Section DfsMore.
Variable tasks : list Task.

(** A cycle without repetition: only its two ends are equal. *)
Definition simple_cycle (c : list string) : Prop :=
  ∃ y mid, c = y :: mid ++ [y] ∧ NoDup (y :: mid).

Lemma cycle_pushed_simple path x st :
  dfs_wf tasks path st → NoDup path → x ∈ recursionStack st →
  simple_cycle (slice path (indexOf path x) ++ [x]).
Proof.
  intros [Hst _ _] Hnd Hin. apply Hst in Hin.
  destruct (slice_indexOf path x Hin) as (pre & suf & Hp & ->).
  exists x, suf. split; [done|].
  rewrite Hp in Hnd. by apply NoDup_app in Hnd as (_ & _ & Hnd).
Qed.

Lemma dfs_simple fuel : ∀ x path st st',
  dfs fuel tasks x path st = Some st' →
  dfs_wf tasks path st → linked tasks path x → black_inv tasks st →
  NoDup path → Forall simple_cycle (cycles st) →
  Forall simple_cycle (cycles st').
Proof.
  induction fuel as [|fuel IH];
    intros x path st st' Hrun Hwf Hlink Hinv Hnd Hsimple; [done|].
  simpl in Hrun. case_bool_decide as Hstack.
  { injection Hrun as <-. simpl. apply Forall_app. split; [done|].
    apply Forall_singleton. by eapply cycle_pushed_simple. }
  case_bool_decide as Hvis; [by injection Hrun as <-|].
  fold (dfs_enter x st) in Hrun.
  destruct (find_task tasks x) as [task|] eqn:Hfind; simpl in Hrun;
    [|by injection Hrun as <-].
  destruct (for_of (dependencies task) _ (dfs_enter x st)) as [s2|]
    eqn:Hloop; simpl in Hrun; [|done].
  injection Hrun as <-. simpl.
  assert (NoDup (path ++ [x])) as Hnd1.
  { apply NoDup_app. split; [done|]. split; [|apply NoDup_singleton].
    intros y Hy ->%list_elem_of_singleton. by apply Hstack, Hwf. }
  assert (∀ d, d ∈ dependencies task → depends_on tasks x d) as Hdeps.
  { intros d Hd. by exists task. }
  apply (for_of_prefix_inv
           (λ (_ : list string) s,
              dfs_frame tasks (dfs_enter x st) s ∧ black_inv tasks s
              ∧ Forall simple_cycle (cycles s)) _ _ _ _ Hloop).
  - split; [apply dfs_frame_refl|]. split; [|done].
    by apply dfs_enter_black_inv.
  - intros pre dep suf s1 s3 Hsplit (Hfr1 & Hinv1 & Hs1) Hcall.
    assert (dfs_wf tasks (path ++ [x]) s1) as Hwf1.
    { eapply dfs_wf_frame; [|done]. by apply dfs_enter_wf. }
    assert (linked tasks (path ++ [x]) dep) as Hl.
    { intros z Hz. rewrite last_snoc in Hz. injection Hz as <-.
      apply Hdeps. rewrite Hsplit. set_solver. }
    destruct (dfs_post tasks fuel dep (path ++ [x]) s1 s3 Hcall Hwf1 Hl Hinv1)
      as (Hfr3 & _ & Hinv3 & _).
    split; [by eapply dfs_frame_trans|]. split; [done|]. by eapply IH.
Qed.

(** A cycle, the two-element list [[x; x]], is reported for [x]. *)
Definition self_inv (x : string) (st : DfsState) : Prop :=
  x ∈ dfs_visited st → [x; x] ∈ cycles st.

Lemma self_inv_frame x s1 s2 :
  dfs_frame tasks s1 s2 → [x; x] ∈ cycles s1 → [x; x] ∈ cycles s2.
Proof. intros (_ & _ & new & -> & _) H. set_solver. Qed.

Lemma slice_fresh path x :
  x ∉ path → slice (path ++ [x]) (indexOf (path ++ [x]) x) = [x].
Proof.
  intros Hx.
  destruct (slice_indexOf (path ++ [x]) x) as (pre & suf & Hp & ->);
    [set_solver|].
  destruct suf as [|z suf] using rev_ind; [done|].
  exfalso. apply Hx.
  change (pre ++ x :: suf ++ [z]) with (pre ++ (x :: suf) ++ [z]) in Hp.
  rewrite app_assoc in Hp. apply app_inj_tail in Hp as [-> _]. set_solver.
Qed.

Lemma dfs_self x :
  depends_on tasks x x →
  ∀ fuel v path st st',
    dfs fuel tasks v path st = Some st' →
    dfs_wf tasks path st → linked tasks path v → black_inv tasks st →
    self_inv x st → self_inv x st'.
Proof.
  intros (tx & Htx & Hxx).
  induction fuel as [|fuel IH]; intros v path st st' Hrun Hwf Hl Hinv HK;
    [done|].
  destruct (dfs_post _ _ _ _ _ _ Hrun Hwf Hl Hinv) as (Hfr & _).
  destruct (decide (x ∈ dfs_visited st)) as [Hin|Hout].
  { intros _. eapply self_inv_frame; [done|]. by apply HK. }
  simpl in Hrun. case_bool_decide as Hstack.
  { injection Hrun as <-. by intros ?. }
  case_bool_decide as Hvis; [by injection Hrun as <-|].
  fold (dfs_enter v st) in Hrun.
  destruct (find_task tasks v) as [task|] eqn:Hfind; simpl in Hrun.
  - destruct (for_of (dependencies task) _ (dfs_enter v st)) as [s2|]
      eqn:Hloop; simpl in Hrun; [|done].
    injection Hrun as <-. unfold self_inv. simpl.
    pose proof (dfs_enter_wf _ _ _ _ Hwf Hl) as Hwf1.
    pose proof (dfs_enter_black_inv _ _ _ Hvis Hinv) as Hinv1.
    assert (∀ d, d ∈ dependencies task → depends_on tasks v d) as Hdeps.
    { intros d Hd. by exists task. }
    destruct (decide (v = x)) as [->|Hvx].
    + intros _. rewrite Htx in Hfind. injection Hfind as <-.
      apply list_elem_of_split in Hxx as (pre & suf & Hsplit).
      rewrite Hsplit in Hloop, Hdeps. rewrite for_of_app in Hloop.
      destruct (for_of pre _ (dfs_enter x st)) as [sa|] eqn:Hpre;
        simpl in Hloop; [|done].
      destruct (dfs fuel tasks x (path ++ [x]) sa) as [sb|] eqn:Hcall;
        simpl in Hloop; [|done].
      destruct (dfs_loop_post _ _ _ _ _ _ _ Hpre Hwf1 Hinv1)
        as (Hfra & Hinva & _); [set_solver|].
      assert (dfs_wf tasks (path ++ [x]) sa) as Hwfa
        by by eapply dfs_wf_frame.
      assert (linked tasks (path ++ [x]) x) as Hlx.
      { intros z Hz. rewrite last_snoc in Hz. injection Hz as <-.
        apply Hdeps. set_solver. }
      destruct (dfs_post _ _ _ _ _ _ Hcall Hwfa Hlx Hinva)
        as (Hfrb & _ & Hinvb & _).
      destruct (dfs_loop_post _ _ _ _ _ _ _ Hloop) as (Hfr2 & _ & _);
        [by eapply dfs_wf_frame|done|set_solver|].
      eapply self_inv_frame; [done|].
      destruct fuel as [|fuel]; [done|]. simpl in Hcall.
      rewrite bool_decide_eq_true_2 in Hcall.
      * injection Hcall as <-. simpl. rewrite slice_fresh; [set_solver|].
        intros Hp. by apply Hstack, Hwf.
      * destruct Hfra as (Heq & _). rewrite Heq. simpl. set_solver.
    + assert (self_inv x s2) as HK2.
      { apply (for_of_prefix_inv
                 (λ (_ : list string) s,
                    dfs_frame tasks (dfs_enter v st) s ∧ black_inv tasks s
                    ∧ self_inv x s) _ _ _ _ Hloop).
        - split; [apply dfs_frame_refl|]. split; [done|].
          intros Hin. simpl in Hin. set_solver.
        - intros pre dep suf s1 s3 Hsplit (Hfr1 & Hi1 & HK1) Hcall.
          assert (dfs_wf tasks (path ++ [v]) s1) as Hwfs
            by by eapply dfs_wf_frame.
          assert (linked tasks (path ++ [v]) dep) as Hld.
          { intros z Hz. rewrite last_snoc in Hz. injection Hz as <-.
            apply Hdeps. rewrite Hsplit. set_solver. }
          destruct (dfs_post _ _ _ _ _ _ Hcall Hwfs Hld Hi1)
            as (Hfr3 & _ & Hi3 & _).
          split; [by eapply dfs_frame_trans|]. split; [done|].
          by eapply IH. }
      exact HK2.
  - injection Hrun as <-. unfold self_inv. simpl.
    assert (v ≠ x) by congruence. set_solver.
Qed.

Lemma dfs_roots_more fuel st :
  for_of tasks (dfs_root fuel tasks) dfs_init = Some st →
  Forall simple_cycle (cycles st)
  ∧ ∀ x, depends_on tasks x x → self_inv x st.
Proof.
  intros Hrun.
  apply (for_of_prefix_inv
           (λ (_ : list Task) s,
              dfs_frame tasks dfs_init s ∧ black_inv tasks s
              ∧ Forall simple_cycle (cycles s)
              ∧ ∀ x, depends_on tasks x x → self_inv x s) _ _ _ _ Hrun).
  - split; [apply dfs_frame_refl|]. split; [|split].
    + intros _. split; intros u; unfold black; set_solver.
    + constructor.
    + intros x _ Hin. set_solver.
  - intros pre t suf s1 s2 _ (Hfr & Hinv & Hs & Hself) Hbody.
    unfold dfs_root in Hbody. case_bool_decide as Hvis.
    { by injection Hbody as <-. }
    pose proof (dfs_wf_top _ _ Hfr) as Hwf.
    assert (linked tasks [] (id t)) as Hl by by intros z [=].
    destruct (dfs_post _ _ _ _ _ _ Hbody Hwf Hl Hinv)
      as (Hfr2 & _ & Hinv2 & _).
    split; [by eapply dfs_frame_trans|]. split; [done|]. split.
    + eapply dfs_simple; [done..|constructor|done].
    + intros x Hx. eapply dfs_self; [done..|]. by apply Hself.
Qed.
End DfsMore.

Lemma NoDup_ids_length tasks (l : list string) :
  NoDup l → (∀ y, y ∈ l → resolves tasks y) → (length l ≤ length tasks)%nat.
Proof.
  intros Hnd Hin. etrans; [|apply (size_task_ids tasks)].
  rewrite <- (size_list_to_set (C := gset string) l Hnd).
  apply subseteq_size. intros y Hy. apply elem_of_task_ids, Hin. set_solver.
Qed.

Lemma cycle_ok_resolves tasks y mid :
  chain (depends_on tasks) (y :: mid ++ [y]) →
  ∀ a, a ∈ y :: mid → resolves tasks a.
Proof.
  intros Hch a Ha. apply list_elem_of_lookup in Ha as [i Hi].
  rewrite chain_lookup in Hch.
  assert (is_Some ((y :: mid ++ [y]) !! S i)) as [b Hb].
  { apply lookup_lt_is_Some. apply lookup_lt_Some in Hi.
    simpl in *. rewrite length_app. simpl. lia. }
  eapply depends_on_resolves, (Hch i); [|done].
  change (y :: mid ++ [y]) with ((y :: mid) ++ [y]).
  by apply lookup_app_l_Some.
Qed.

Lemma findCircularDependencies_nil_iff tasks fuel cs :
  findCircularDependencies fuel tasks = Some cs →
  cs = [] ↔ acyclic tasks.
Proof.
  unfold findCircularDependencies.
  destruct (for_of tasks (dfs_root fuel tasks) dfs_init) as [st|] eqn:Hrun;
    simpl; [|done].
  intros [= <-].
  destruct (dfs_roots_post tasks fuel st Hrun)
    as ((Hstack & _ & new & Hnew & Hok) & Hinv & Hall & _).
  simpl in *. split.
  - intros Hnil x Hx. destruct (Hinv Hnil) as [_ Hno].
    apply cycle_iff in Hx. apply (Hno x); [|done].
    apply tc_depends_on_resolves in Hx.
    apply list_elem_of_fmap in Hx as (t & -> & Ht).
    unfold black. rewrite Hstack. apply Hall in Ht. set_solver.
  - intros Hacyc. rewrite Hnew. destruct new as [|c new]; [done|].
    apply Forall_cons in Hok as [Hc _].
    apply cycle_ok_tc in Hc as (y & Hy). by destruct (Hacyc y).
Qed.

(** X1. Every cycle that [findCircularDependencies] reports, on any input,
    is simple: it closes on its first id and repeats no other id, so it has
    at most one element more than there are tasks. *)
Theorem findCircularDependencies_simple (tasks : list Task) (fuel : nat) :
  (length tasks < fuel)%nat →
  ∃ cs, findCircularDependencies fuel tasks = Some cs
    ∧ ∀ c, c ∈ cs →
        ∃ y mid, c = y :: mid ++ [y] ∧ NoDup (y :: mid)
                 ∧ (length c ≤ S (length tasks))%nat.
Proof.
  intros Hfuel. unfold findCircularDependencies.
  destruct (dfs_roots_return tasks fuel Hfuel) as (st & Hrun).
  rewrite Hrun. simpl. eexists. split; [done|].
  destruct (dfs_roots_post tasks fuel st Hrun)
    as ((_ & _ & new & Hnew & Hok) & _).
  destruct (dfs_roots_more tasks fuel st Hrun) as (Hsimple & _).
  simpl in Hnew. intros c Hc.
  pose proof (proj1 (Forall_forall _ _) Hsimple c Hc) as (y & mid & -> & Hnd).
  rewrite Hnew in Hc.
  pose proof (proj1 (Forall_forall _ _) Hok _ Hc) as (y' & mid' & Heq & Hch).
  exists y, mid. split; [done|]. split; [done|].
  change (y :: mid ++ [y]) with ((y :: mid) ++ [y]).
  rewrite length_app. simpl length at 2.
  pose proof (NoDup_ids_length tasks (y :: mid) Hnd
                (cycle_ok_resolves tasks y mid Hch)).
  simpl in *. lia.
Qed.

Lemma findCircularDependencies_simple_witness :
  ∃ cs, findCircularDependencies 3 ex_xy = Some cs
    ∧ ∀ c, c ∈ cs →
        ∃ y mid, c = y :: mid ++ [y] ∧ NoDup (y :: mid)
                 ∧ (length c ≤ S (length ex_xy))%nat.
Proof.
  apply (findCircularDependencies_simple ex_xy 3). simpl. lia.
Defined.


Lemma ex_self_depends : depends_on ex_self "X" "X".
Proof. exists (mkTask "X" 1 ["X"]). split; [reflexivity|set_solver]. Qed.


(** ** Critical-path calculator *)

Section CriticalPathMore.
Variable taskMap : gmap string Task.

(** The "keep the strictly greatest" loop ends with the greatest duration
    seen (or the initial one) and with the first id that reached it. *)
Lemma pick_loop_post dfuel l init m c :
  for_of l (pick_longer taskMap dfuel) init = Some (m, c) →
  init.1 ≤ m
  ∧ (init.1 < m →
     c ∈ l ∧ duration_from_clear taskMap dfuel c = Some m)
  ∧ (m = init.1 → c = init.2)
  ∧ ∀ x, x ∈ l →
      ∃ d, duration_from_clear taskMap dfuel x = Some d ∧ d ≤ m.
Proof.
  intros Hloop.
  apply (for_of_prefix_inv
           (λ pre (b : Z * string),
              init.1 ≤ b.1
              ∧ (init.1 < b.1 →
                 b.2 ∈ pre
                 ∧ duration_from_clear taskMap dfuel b.2 = Some b.1)
              ∧ (b.1 = init.1 → b.2 = init.2)
              ∧ ∀ x, x ∈ pre →
                  ∃ d, duration_from_clear taskMap dfuel x = Some d
                       ∧ d ≤ b.1)
           _ _ _ _ Hloop).
  - split; [done|]. split; [lia|]. split; [done|].
    by intros x ?%elem_of_nil.
  - intros pre x suf [m1 c1] [m2 c2] _ (H1 & H2 & H3 & H4) Hstep.
    unfold pick_longer in Hstep. cbn [fst snd] in *.
    destruct (duration_from_clear taskMap dfuel x) as [d|] eqn:Hd;
      simpl in Hstep; [|done].
    destruct (Z.ltb_spec m1 d) as [Hlt|Hge]; injection Hstep as <- <-.
    + split; [lia|]. split; [split; [set_solver|done]|]. split; [lia|].
      intros y [Hy| ->%list_elem_of_singleton]%elem_of_app.
      * destruct (H4 y Hy) as (dy & Hdy & Hle). exists dy. split; [done|lia].
      * exists d. split; [done|lia].
    + split; [done|]. split; [intros Hlt; split; [set_solver|by apply H2]|].
      split; [done|].
      intros y [Hy| ->%list_elem_of_singleton]%elem_of_app.
      * by apply H4.
      * exists d. split; [done|lia].
Qed.

(** A duration is at least the hours of the task itself, and it is not
    positive when no task has positive hours. *)
Lemma duration_from_clear_bounds dfuel x d :
  duration_from_clear taskMap dfuel x = Some d →
  (∀ t, taskMap !! x = Some t → estimatedHours t ≤ d)
  ∧ ((∀ y t, taskMap !! y = Some t → estimatedHours t ≤ 0) → d ≤ 0).
Proof.
  unfold duration_from_clear.
  destruct (calculateTaskDuration taskMap dfuel x ∅) as [[d' v]|] eqn:Hrun;
    [|done].
  simpl. intros [= <-]. split.
  - intros t Ht. destruct dfuel as [|dfuel]; [done|]. simpl in Hrun.
    rewrite bool_decide_eq_false_2 in Hrun by set_solver.
    rewrite Ht in Hrun.
    destruct (map_calls _ _ _) as [[ds v2]|]; simpl in Hrun; [|done].
    injection Hrun as <- _. pose proof (fold_max_ge ds 0).
    unfold math_max0. lia.
  - intros Hall. revert x d' v Hrun. generalize (∅ : gset string) as v0.
    induction dfuel as [|dfuel IH]; intros v0 x d' v Hrun; [done|].
    simpl in Hrun. case_bool_decide; [by injection Hrun as <- _|].
    destruct (taskMap !! x) as [t|] eqn:Ht; [|by injection Hrun as <- _].
    destruct (map_calls _ _ _) as [[ds v2]|] eqn:Hcalls; simpl in Hrun;
      [|done].
    injection Hrun as <- _.
    assert (Forall (λ z, z ≤ 0) ds) as Hds.
    { clear Ht. revert Hcalls. generalize ({[x]} ∪ v0) as v1.
      generalize (dependencies t) as deps. intros deps. revert ds v2.
      induction deps as [|dep deps IHd]; intros ds v2 v1; simpl.
      - by intros [= <- _].
      - destruct (calculateTaskDuration taskMap dfuel dep v1)
          as [[dd vd]|] eqn:Hdep; simpl; [|done].
        destruct (map_calls _ deps vd) as [[ds' v']|] eqn:Hrest; simpl;
          [|done].
        intros [= <- _]. apply Forall_cons. split; [by eapply IH|].
        by eapply IHd. }
    pose proof (fold_max_bound ds 0 0 ltac:(done) Hds) as Hmax.
    specialize (Hall x t Ht). unfold math_max0. lia.
Qed.

(** [buildPath] only adds, in front of the path it is given, ids that
    resolve to a task, each a declared dependency of the one after it. *)
Definition dep_chain (path : list string) : Prop :=
  (∀ x, x ∈ path → is_Some (taskMap !! x))
  ∧ chain (λ a b, map_depends_on taskMap b a) path.

Lemma buildPath_chain dfuel fuel : ∀ x path r,
  buildPath taskMap dfuel fuel x path = Some r →
  dep_chain path →
  (∀ h, head path = Some h → map_depends_on taskMap h x) →
  dep_chain r ∧ (is_Some (taskMap !! x) → r ≠ []).
Proof.
  induction fuel as [|fuel IH]; intros x path r Hrun Hpath Hhead; [done|].
  simpl in Hrun. destruct (taskMap !! x) as [task|] eqn:Hx.
  - assert (dep_chain (x :: path)) as Hpath1.
    { destruct Hpath as [Hres Hch]. split.
      - intros y [->|Hy]%elem_of_cons; [by rewrite Hx|by apply Hres].
      - destruct path as [|h path]; [done|]. apply chain_cons.
        split; [by apply Hhead|done]. }
    assert (∀ r', r' = x :: path → dep_chain r' ∧ r' ≠ []) as Hdone.
    { by intros r' ->. }
    destruct (0 <? length (dependencies task))%nat;
      [|injection Hrun as <-; split; [done|]; by intros _].
    destruct (for_of _ _ _) as [[m c]|] eqn:Hloop; simpl in Hrun; [|done].
    destruct (truthy c) eqn:Htr;
      [|injection Hrun as <-; split; [done|]; by intros _].
    apply pick_loop_post in Hloop as (Hm & Hin & Heq & _). simpl in *.
    assert (c ∈ dependencies task) as Hc.
    { apply Hin. destruct (decide (m = 0)) as [->|]; [|lia].
      rewrite Heq in Htr by done. done. }
    destruct (IH c (x :: path) r Hrun Hpath1) as [Hr Hne].
    + intros h [= <-]. by exists task.
    + split; [done|]. intros _.
      destruct (taskMap !! c) as [tc|] eqn:Htc; [by apply Hne|].
      destruct fuel as [|fuel]; [done|]. simpl in Hrun. rewrite Htc in Hrun.
      by injection Hrun as <-.
  - injection Hrun as <-. split; [done|]. by intros [? ?].
Qed.
End CriticalPathMore.

Lemma for_of_map {A B S} (f : A → B) (body : B → S → option S) l s :
  for_of l (λ x, body (f x)) s = for_of (map f l) body s.
Proof.
  revert s; induction l as [|x l IH]; intros s; simpl; [done|].
  destruct (body (f x) s); simpl; [apply IH|done].
Qed.

Lemma truthy_true s : truthy s = true ↔ s ≠ "".
Proof. by destruct s. Qed.

Lemma tc_flip {A} (R : relation A) x y : tc (flip R) x y → tc R y x.
Proof.
  induction 1 as [x y H|x y z H _ IH]; [by apply tc_once|].
  eapply tc_r; [done|]. exact H.
Qed.

Lemma chain_reach {A} (R : relation A) x l y :
  chain R (x :: l) → y ∈ l → tc R x y.
Proof.
  revert x; induction l as [|a l IH]; intros x Hch Hy;
    [by apply elem_of_nil in Hy|].
  apply chain_cons in Hch as [Hxa Hch].
  apply elem_of_cons in Hy as [->|Hy]; [by apply tc_once|].
  eapply tc_l; [done|]. by apply IH.
Qed.

Lemma chain_NoDup {A} (R : relation A) l :
  (∀ x, ¬ tc R x x) → chain R l → NoDup l.
Proof.
  intros Hacyc. induction l as [|x l IH]; intros Hch; [constructor|].
  apply NoDup_cons. split.
  - intros Hin. apply (Hacyc x). by eapply chain_reach.
  - apply IH. destruct l; [done|]. by apply chain_cons in Hch as [_ ?].
Qed.

(** The two loops of [calculateCriticalPath], read together. *)
Lemma calculateCriticalPath_inv tasks fuel p :
  calculateCriticalPath fuel tasks = Some p →
  ∃ m c,
    for_of (map id tasks) (pick_longer (taskMap_of tasks) fuel) (0, "")
    = Some (m, c)
    ∧ (if truthy c
       then buildPath (taskMap_of tasks) fuel fuel c [] = Some p
       else p = []).
Proof.
  unfold calculateCriticalPath. rewrite (for_of_map id).
  destruct (for_of _ _ _) as [[m c]|]; simpl; [|done].
  intros Hrun. exists m, c. split; [done|].
  destruct (truthy c); [done|]. by injection Hrun as <-.
Qed.

(** X3. Whenever [calculateCriticalPath] returns, on any input, the path
    holds only ids of tasks of the set, and each id of the path is a
    declared dependency of the task that the next id resolves to: the path
    runs along dependency edges, from a dependency to its dependents. *)
Theorem calculateCriticalPath_chain (tasks : list Task) (fuel : nat)
    (p : list string) :
  calculateCriticalPath fuel tasks = Some p →
  (∀ x, x ∈ p → x ∈ map id tasks)
  ∧ ∀ (i : nat) a b, p !! i = Some a → p !! S i = Some b →
      ∃ t, taskMap_of tasks !! b = Some t ∧ a ∈ dependencies t.
Proof.
  intros (m & c & _ & Hp)%calculateCriticalPath_inv.
  destruct (truthy c).
  - destruct (buildPath_chain _ _ _ _ _ _ Hp) as [[Hres Hch] _].
    + split; [|done]. by intros x ?%elem_of_nil.
    + by intros h [=].
    + split.
      * intros x Hx. by apply taskMap_of_is_Some, Hres.
      * intros i a b Ha Hb. rewrite chain_lookup in Hch. by eapply Hch.
  - subst p. split; [by intros x ?%elem_of_nil|]. by intros [|i] a b [=].
Qed.

Lemma calculateCriticalPath_chain_witness :
  calculateCriticalPath 4 ex_abc = Some ["A"; "B"]
  ∧ (∀ x, x ∈ ["A"; "B"] → x ∈ map id ex_abc)
  ∧ ∀ (i : nat) a b, ["A"; "B"] !! i = Some a → ["A"; "B"] !! S i = Some b →
      ∃ t, taskMap_of ex_abc !! b = Some t ∧ a ∈ dependencies t.
Proof.
  assert (calculateCriticalPath 4 ex_abc = Some ["A"; "B"]) as Hrun
    by (vm_compute; reflexivity).
  split; [exact Hrun|].
  exact (calculateCriticalPath_chain ex_abc 4 _ Hrun).
Defined.

Lemma calculateCriticalPath_dag_path tasks fuel p :
  NoDup (map id tasks) → acyclic tasks →
  calculateCriticalPath fuel tasks = Some p →
  NoDup p ∧ dependency_path tasks p.
Proof.
  intros Hnd Hacyc Hp.
  pose proof (acyclic_map_depends_on tasks Hnd Hacyc) as Hmap.
  pose proof Hp as (m & c & _ & Hb)%calculateCriticalPath_inv.
  assert (dep_chain (taskMap_of tasks) p) as [Hres Hch].
  { destruct (truthy c); [|subst p; split; [|done];
                           by intros x ?%elem_of_nil].
    eapply buildPath_chain; [done| |by intros h [=]].
    split; [|done]. by intros x ?%elem_of_nil. }
  assert (chain (λ a b, dep_edge tasks b a) p) as Hedges.
  { rewrite chain_lookup in Hch. apply chain_lookup. intros i a b Hia Hib.
    split.
    - apply (map_depends_on_unique _ _ _ Hnd). by eapply Hch.
    - apply taskMap_of_is_Some, Hres. by eapply list_elem_of_lookup_2. }
  split; [|split; [|done]].
  - apply (chain_NoDup (flip (dep_edge tasks))); [|done].
    intros x Hx%tc_flip. by apply (Hacyc x).
  - apply Forall_forall. intros x Hx. by apply taskMap_of_is_Some, Hres.
Qed.

(** X4. On a task set with unique ids and no dependency cycle,
    [calculateCriticalPath] returns, and the path it returns is a dependency
    path that visits no task twice. *)
Theorem calculateCriticalPath_on_dag (tasks : list Task) (fuel : nat) :
  NoDup (map id tasks) → acyclic tasks → (length tasks < fuel)%nat →
  ∃ p, calculateCriticalPath fuel tasks = Some p
    ∧ NoDup p ∧ dependency_path tasks p.
Proof.
  intros Hnd Hacyc Hfuel.
  pose proof (acyclic_map_depends_on tasks Hnd Hacyc) as Hmap.
  destruct (calculateCriticalPath_returns tasks fuel Hmap Hfuel) as (p & Hp).
  exists p. split; [done|]. by eapply calculateCriticalPath_dag_path.
Qed.

Lemma calculateCriticalPath_on_dag_witness :
  NoDup (map id ex_abc) ∧ acyclic ex_abc
  ∧ ∃ p, calculateCriticalPath 4 ex_abc = Some p
      ∧ NoDup p ∧ dependency_path ex_abc p.
Proof.
  destruct ex_abc_facts as [Hnd Hacyc].
  split; [exact Hnd|]. split; [exact Hacyc|].
  apply (calculateCriticalPath_on_dag ex_abc 4 Hnd Hacyc). simpl. lia.
Defined.

(** X5. When no task id is the empty string, the path that
    [calculateCriticalPath] returns is empty exactly when no task (as its id
    resolves) has positive hours: one task with positive hours is enough for
    a non-empty path, and hours that are zero or negative never start
    one. *)
Theorem calculateCriticalPath_empty_iff (tasks : list Task) (fuel : nat)
    (p : list string) :
  calculateCriticalPath fuel tasks = Some p →
  (∀ t, t ∈ tasks → id t ≠ "") →
  p = [] ↔ ∀ x t, taskMap_of tasks !! x = Some t → estimatedHours t ≤ 0.
Proof.
  intros (m & c & Hloop & Hp)%calculateCriticalPath_inv Hids.
  apply pick_loop_post in Hloop as (Hm & Hin & Heq & Hall). simpl in *.
  split.
  - intros -> x t Ht. destruct (Z.le_gt_cases (estimatedHours t) 0) as [|Hpos];
      [done|exfalso].
    assert (x ∈ map id tasks) as Hx by (apply taskMap_of_is_Some; eauto).
    destruct (Hall x Hx) as (d & Hd & Hle).
    pose proof (proj1 (duration_from_clear_bounds _ _ _ _ Hd) t Ht).
    assert (c ∈ map id tasks) as Hc by (apply Hin; lia).
    assert (truthy c = true) as Htr.
    { apply truthy_true. apply list_elem_of_fmap in Hc as (u & -> & Hu).
      by apply Hids. }
    rewrite Htr in Hp.
    destruct (buildPath_chain _ _ _ _ _ _ Hp) as [_ Hne].
    + split; [|done]. by intros y ?%elem_of_nil.
    + by intros h [=].
    + destruct Hne; [by apply taskMap_of_is_Some|done].
  - intros Hnonpos. assert (m = 0) as ->.
    { destruct (decide (m = 0)) as [|Hne]; [done|exfalso].
      destruct Hin as [_ Hd]; [lia|].
      pose proof (proj2 (duration_from_clear_bounds _ _ _ _ Hd) Hnonpos).
      lia. }
    rewrite Heq in Hp by done. done.
Qed.

Lemma calculateCriticalPath_empty_iff_witness :
  calculateCriticalPath 4 ex_abc = Some ["A"; "B"]
  ∧ (∀ t, t ∈ ex_abc → id t ≠ "")
  ∧ (["A"; "B"] = [] ↔
     ∀ x t, taskMap_of ex_abc !! x = Some t → estimatedHours t ≤ 0).
Proof.
  assert (calculateCriticalPath 4 ex_abc = Some ["A"; "B"]) as Hrun
    by (vm_compute; reflexivity).
  assert (∀ t, t ∈ ex_abc → id t ≠ "") as Hids.
  { intros t Ht. unfold ex_abc in Ht.
    repeat (apply elem_of_cons in Ht as [->|Ht]; [done|]).
    by apply elem_of_nil in Ht. }
  split; [exact Hrun|]. split; [exact Hids|].
  exact (calculateCriticalPath_empty_iff ex_abc 4 _ Hrun Hids).
Defined.

(** X6. An empty string is a false condition: when every task id is the
    empty string, no terminal task is kept and [calculateCriticalPath]
    returns the empty path, whatever the hours are. *)
Theorem calculateCriticalPath_empty_id (tasks : list Task) (fuel : nat) :
  (∀ t, t ∈ tasks → id t = "") → (length tasks < fuel)%nat →
  calculateCriticalPath fuel tasks = Some [].
Proof.
  intros Hids Hfuel. unfold calculateCriticalPath. rewrite (for_of_map id).
  destruct (for_of_total (λ _, True)
              (pick_longer (taskMap_of tasks) fuel) (map id tasks) (0, ""))
    as ([m c] & Hloop & _); [done| |].
  - intros x b _ _. unfold pick_longer.
    destruct (duration_from_clear_returns tasks fuel x Hfuel) as (d & -> & _).
    simpl. eauto.
  - rewrite Hloop. simpl.
    apply pick_loop_post in Hloop as (Hm & Hin & Heq & _). simpl in *.
    assert (c = "") as ->; [|done].
    destruct (decide (m = 0)) as [->|Hne]; [by apply Heq|].
    destruct Hin as [(t & -> & Ht)%list_elem_of_fmap _]; [lia|].
    by apply Hids.
Qed.

Definition ex_noid : list Task := [mkTask "" 5 []].

Lemma calculateCriticalPath_empty_id_witness :
  (∀ t, t ∈ ex_noid → id t = "")
  ∧ calculateCriticalPath 2 ex_noid = Some [].
Proof.
  assert (∀ t, t ∈ ex_noid → id t = "") as Hids.
  { intros t ->%list_elem_of_singleton. reflexivity. }
  split; [exact Hids|].
  apply (calculateCriticalPath_empty_id ex_noid 2 Hids). simpl. lia.
Defined.

(** ** The critical path on tree-shaped dependencies *)

(** Invariant rule for [map_calls], indexed by the elements already
    processed. *)
Lemma map_calls_prefix_inv {A B S} (P : list A → S → Prop) (Q : A → B → Prop)
    (f : A → S → option (B * S)) l s ys s' :
  map_calls f l s = Some (ys, s') →
  P [] s →
  (∀ pre x suf s1 y s2,
     l = pre ++ x :: suf → P pre s1 → f x s1 = Some (y, s2) →
     P (pre ++ [x]) s2 ∧ Q x y) →
  P l s' ∧ Forall2 Q l ys.
Proof.
  intros Hrun H0 Hstep.
  cut (∀ suf pre s1 zs, l = pre ++ suf → P pre s1 →
         map_calls f suf s1 = Some (zs, s') → P l s' ∧ Forall2 Q suf zs).
  { intros Hcut. by apply (Hcut l [] s). }
  induction suf as [|x suf IH]; intros pre s1 zs Hl HP Hr; simpl in Hr.
  - injection Hr as <- <-. rewrite Hl, app_nil_r. by split.
  - destruct (f x s1) as [[y s2]|] eqn:Hf; simpl in Hr; [|done].
    destruct (map_calls f suf s2) as [[ws s3]|] eqn:Hrest; simpl in Hr;
      [|done].
    injection Hr as <- <-.
    destruct (Hstep pre x suf s1 y s2 Hl HP Hf) as [HP2 HQ].
    destruct (IH (pre ++ [x]) s2 ws) as [HPl HQs];
      [by rewrite <- app_assoc|done|done|].
    split; [done|]. by constructor.
Qed.

Lemma fold_max_elem xs m x : x ∈ xs → x ≤ fold_left Z.max xs m.
Proof.
  revert m; induction xs as [|y xs IH]; intros m; [by intros ?%elem_of_nil|].
  simpl. intros [->|Hx]%elem_of_cons; [|by apply IH].
  etrans; [|apply fold_max_ge]. lia.
Qed.

Lemma chain_app_l {A} (R : relation A) l1 l2 :
  chain R (l1 ++ l2) → chain R l1.
Proof.
  rewrite !chain_lookup. intros H i a b Ha Hb.
  apply (H i a b); by apply lookup_app_l_Some.
Qed.

Lemma duration_from_clear_missing (taskMap : gmap string Task) g x d :
  taskMap !! x = None → duration_from_clear taskMap g x = Some d → d = 0.
Proof.
  intros Hx. unfold duration_from_clear. destruct g as [|g]; [done|]. simpl.
  rewrite bool_decide_eq_false_2 by set_solver. rewrite Hx. simpl. congruence.
Qed.

Section CriticalPathTree.
Variable taskMap : gmap string Task.

(** No id is reached from two different entries of one dependency list. *)
Definition branches_apart : Prop :=
  ∀ x t (i j : nat) a b y,
    taskMap !! x = Some t →
    dependencies t !! i = Some a → dependencies t !! j = Some b → i ≠ j →
    rtc (map_depends_on taskMap) a y → rtc (map_depends_on taskMap) b y →
    False.

Hypothesis Hacyc : ∀ x, ¬ tc (map_depends_on taskMap) x x.
Hypothesis Htree : branches_apart.

(** Nothing that [x] reaches has been visited. *)
Definition unvisited (v : gset string) (x : string) : Prop :=
  ∀ y, rtc (map_depends_on taskMap) x y → y ∉ v.

(** A duration computation only visits what its task reaches. *)
Lemma calculateTaskDuration_visits fuel : ∀ x v d v',
  calculateTaskDuration taskMap fuel x v = Some (d, v') →
  ∀ y, y ∈ v' → y ∈ v ∨ rtc (map_depends_on taskMap) x y.
Proof.
  induction fuel as [|fuel IH]; intros x v d v' Hrun; [done|].
  simpl in Hrun. case_bool_decide; [injection Hrun as <- <-; by left|].
  destruct (taskMap !! x) as [t|] eqn:Hx.
  - destruct (map_calls _ _ _) as [[ds v2]|] eqn:Hcalls; simpl in Hrun;
      [|done].
    injection Hrun as <- <-.
    destruct (map_calls_prefix_inv
                (λ _ s, ∀ y, y ∈ s →
                   y ∈ v ∨ rtc (map_depends_on taskMap) x y)
                (λ _ _, True) _ _ _ _ _ Hcalls) as [Hv2 _]; [| |done].
    + intros y [->%elem_of_singleton|Hy]%elem_of_union; [by right|by left].
    + intros pre dep suf s1 dd s2 Hsplit Hs1 Hdep. split; [|done].
      intros y Hy. destruct (IH _ _ _ _ Hdep y Hy) as [Hy1|Hy1].
      * by apply Hs1.
      * right. eapply rtc_l; [|done]. exists t. split; [done|].
        rewrite Hsplit. set_solver.
  - injection Hrun as <- <-.
    intros y [->%elem_of_singleton|Hy]%elem_of_union; [by right|by left].
Qed.

(** What the calls for the dependencies of [x] see: the ids visited before
    [x], then [x], then what the earlier dependencies reach. *)
Lemma sibling_unvisited x t pre dep suf v s :
  taskMap !! x = Some t → dependencies t = pre ++ dep :: suf →
  unvisited v x →
  (∀ y, y ∈ s → y ∈ {[x]} ∪ v
                ∨ ∃ a, a ∈ pre ∧ rtc (map_depends_on taskMap) a y) →
  unvisited s dep.
Proof.
  intros Hx Hsplit Hv Hs y Hy Hin.
  assert (map_depends_on taskMap x dep) as Hxd.
  { exists t. split; [done|]. rewrite Hsplit. set_solver. }
  destruct (Hs y Hin) as [[->%elem_of_singleton|Hyv]%elem_of_union
                         |(a & Ha & Hay)].
  - apply (Hacyc x). by eapply tc_rtc_r; [apply tc_once|].
  - apply (Hv y); [|done]. by eapply rtc_l.
  - apply list_elem_of_lookup in Ha as (i & Hi).
    apply (Htree x t i (length pre) a dep y Hx).
    + rewrite Hsplit. by apply lookup_app_l_Some.
    + rewrite Hsplit. by apply list_lookup_middle.
    + apply lookup_lt_Some in Hi. lia.
    + done.
    + done.
Qed.

(** On tree-shaped dependencies, the ids visited earlier have no part in a
    duration: two computations for the same id give the same hours. *)
Lemma calculateTaskDuration_same f : ∀ g x v w d v' e w',
  unvisited v x → unvisited w x →
  calculateTaskDuration taskMap f x v = Some (d, v') →
  calculateTaskDuration taskMap g x w = Some (e, w') →
  d = e.
Proof.
  induction f as [|f IH]; intros g x v w d v' e w' Hv Hw Hf Hg; [done|].
  destruct g as [|g]; [done|]. simpl in Hf, Hg.
  rewrite bool_decide_eq_false_2 in Hf by (by apply Hv).
  rewrite bool_decide_eq_false_2 in Hg by (by apply Hw).
  destruct (taskMap !! x) as [t|] eqn:Hx; [|congruence].
  destruct (map_calls _ _ ({[x]} ∪ v)) as [[ds v2]|] eqn:Hcf;
    simpl in Hf; [|done].
  destruct (map_calls _ _ ({[x]} ∪ w)) as [[es w2]|] eqn:Hcg;
    simpl in Hg; [|done].
  injection Hf as <- <-. injection Hg as <- <-.
  destruct (map_calls_prefix_inv
              (λ pre s, ∀ y, y ∈ s →
                 y ∈ {[x]} ∪ v
                 ∨ ∃ a, a ∈ pre ∧ rtc (map_depends_on taskMap) a y)
              (λ dep dd, ∀ g s e s', unvisited s dep →
                 calculateTaskDuration taskMap g dep s = Some (e, s') →
                 dd = e)
              _ _ _ _ _ Hcf) as [_ Hds].
  { intros y Hy. by left. }
  { intros pre dep suf s1 dd s2 Hsplit Hs1 Hdep.
    pose proof (sibling_unvisited _ _ _ _ _ _ _ Hx Hsplit Hv Hs1) as Hfresh.
    split.
    - intros y Hy.
      destruct (calculateTaskDuration_visits _ _ _ _ _ Hdep y Hy) as [Hy1|Hy1].
      + destruct (Hs1 y Hy1) as [?|(a & Ha & Hay)]; [by left|right].
        exists a. split; [set_solver|done].
      + right. exists dep. split; [set_solver|done].
    - intros g' s e s' Hs Hrun.
      exact (IH g' dep s1 s dd s2 e s' Hfresh Hs Hdep Hrun). }
  destruct (map_calls_prefix_inv
              (λ pre s, ∀ y, y ∈ s →
                 y ∈ {[x]} ∪ w
                 ∨ ∃ a, a ∈ pre ∧ rtc (map_depends_on taskMap) a y)
              (λ dep ee, ∃ s s', unvisited s dep ∧
                 calculateTaskDuration taskMap g dep s = Some (ee, s'))
              _ _ _ _ _ Hcg) as [_ Hes].
  { intros y Hy. by left. }
  { intros pre dep suf s1 ee s2 Hsplit Hs1 Hdep.
    pose proof (sibling_unvisited _ _ _ _ _ _ _ Hx Hsplit Hw Hs1) as Hfresh.
    split; [|by eauto].
    intros y Hy.
    destruct (calculateTaskDuration_visits _ _ _ _ _ Hdep y Hy) as [Hy1|Hy1].
    - destruct (Hs1 y Hy1) as [?|(a & Ha & Hay)]; [by left|right].
      exists a. split; [set_solver|done].
    - right. exists dep. split; [set_solver|done]. }
  f_equal. f_equal. clear Hcf Hcg. revert es Hes.
  induction Hds as [|dep dd deps ds Hdd _ IHds]; intros es Hes.
  - by apply Forall2_nil_inv_l in Hes as ->.
  - apply Forall2_cons_inv_l in Hes as (ee & es' & (s & s' & Hs & Hrun)
                                        & Hes & ->).
    f_equal; [by eapply Hdd|by apply IHds].
Qed.

(** The equation of the durations: the hours of the task plus the greatest
    duration among its dependencies, each taken from a cleared set, or
    plus 0 when none is positive. *)
Lemma duration_from_clear_unfold g x t d :
  (∀ y, is_Some (duration_from_clear taskMap g y)) →
  taskMap !! x = Some t →
  duration_from_clear taskMap g x = Some d →
  ∃ ds, Forall2 (λ dep dd, duration_from_clear taskMap g dep = Some dd)
                (dependencies t) ds
        ∧ d = math_max0 ds + estimatedHours t.
Proof.
  intros Htotal Hx. unfold duration_from_clear at 1.
  destruct g as [|g]; [done|]. simpl.
  rewrite bool_decide_eq_false_2 by set_solver. rewrite Hx.
  destruct (map_calls _ _ _) as [[ds v2]|] eqn:Hcalls; simpl; [|done].
  intros [= <-]. exists ds. split; [|done].
  destruct (map_calls_prefix_inv
              (λ pre s, ∀ y, y ∈ s →
                 y ∈ {[x]} ∪ (∅ : gset string)
                 ∨ ∃ a, a ∈ pre ∧ rtc (map_depends_on taskMap) a y)
              (λ dep dd, duration_from_clear taskMap (S g) dep = Some dd)
              _ _ _ _ _ Hcalls) as [_ Hds]; [| |done].
  { intros y Hy. by left. }
  intros pre dep suf s1 dd s2 Hsplit Hs1 Hdep.
  assert (unvisited ∅ x) as Hv by (intros y _; set_solver).
  pose proof (sibling_unvisited _ _ _ _ _ _ _ Hx Hsplit Hv Hs1) as Hfresh.
  split.
  - intros y Hy.
    destruct (calculateTaskDuration_visits _ _ _ _ _ Hdep y Hy) as [Hy1|Hy1].
    + destruct (Hs1 y Hy1) as [?|(a & Ha & Hay)]; [by left|right].
      exists a. split; [set_solver|done].
    + right. exists dep. split; [set_solver|done].
  - destruct (Htotal dep) as [e He]. rewrite He. f_equal.
    unfold duration_from_clear in He.
    destruct (calculateTaskDuration taskMap (S g) dep ∅) as [[e' w']|] eqn:Hc;
      [|done].
    injection He as <-. symmetry.
    eapply (calculateTaskDuration_same g (S g) dep s1 ∅); [done| |done..].
    intros y _. set_solver.
Qed.

Definition map_hours (x : string) : Z :=
  match taskMap !! x with
  | Some t => estimatedHours t
  | None => 0
  end.

Definition map_path_hours (path : list string) : Z :=
  foldr (λ x sum, map_hours x + sum) 0 path.

Lemma map_path_hours_app p q :
  map_path_hours (p ++ q) = map_path_hours p + map_path_hours q.
Proof.
  induction p as [|x p IH]; simpl; [done|].
  unfold map_path_hours in *. simpl. rewrite IH. lia.
Qed.

(** No dependency path that ends in [x] has more hours than the duration
    of [x]. *)
Lemma duration_from_clear_longest g :
  (∀ y, is_Some (duration_from_clear taskMap g y)) →
  ∀ q x d,
    duration_from_clear taskMap g x = Some d →
    chain (λ a b, map_depends_on taskMap b a) (q ++ [x]) →
    map_path_hours (q ++ [x]) ≤ d.
Proof.
  intros Htotal q. induction q as [|y q IH] using rev_ind; intros x d Hd Hch.
  - unfold map_path_hours, map_hours. simpl.
    destruct (taskMap !! x) as [t|] eqn:Hx.
    + pose proof (proj1 (duration_from_clear_bounds _ _ _ _ Hd) t Hx). lia.
    + apply duration_from_clear_missing in Hd as ->; [lia|done].
  - pose proof (chain_app_l _ _ _ Hch) as Hq.
    rewrite <- app_assoc in Hch. apply chain_app_r in Hch.
    destruct Hch as [(t & Hx & Hy) _].
    destruct (Htotal y) as [dy Hdy].
    specialize (IH y dy Hdy Hq).
    destruct (duration_from_clear_unfold g x t d Htotal Hx Hd)
      as (ds & Hds & ->).
    assert (dy ≤ math_max0 ds).
    { apply list_elem_of_lookup in Hy as (i & Hi).
      destruct (Forall2_lookup_l _ _ _ _ _ Hds Hi) as (dd & Hdd & Hrun).
      assert (dd = dy) as -> by congruence.
      apply fold_max_elem. by eapply list_elem_of_lookup_2. }
    rewrite map_path_hours_app. unfold map_path_hours at 2. simpl.
    unfold map_hours at 1. rewrite Hx. lia.
Qed.

Hypothesis Hnoempty : taskMap !! "" = None.

(** [buildPath] puts in front of the path a chain whose hours are the
    duration of the task it starts from. *)
Lemma buildPath_hours g fuel :
  (∀ y, is_Some (duration_from_clear taskMap g y)) →
  ∀ x path r d,
    buildPath taskMap g fuel x path = Some r →
    duration_from_clear taskMap g x = Some d →
    map_path_hours r = d + map_path_hours path.
Proof.
  intros Htotal.
  induction fuel as [|fuel IH]; intros x path r d Hrun Hd; [done|].
  simpl in Hrun. destruct (taskMap !! x) as [t|] eqn:Hx.
  - destruct (duration_from_clear_unfold g x t d Htotal Hx Hd)
      as (ds & Hds & ->).
    assert (map_path_hours (x :: path)
            = estimatedHours t + map_path_hours path) as Hsum.
    { unfold map_path_hours. simpl. unfold map_hours at 1. by rewrite Hx. }
    destruct (dependencies t) as [|dep0 deps0] eqn:Hdeps.
    { simpl in Hrun. injection Hrun as <-.
      apply Forall2_nil_inv_l in Hds as ->. rewrite Hsum.
      unfold math_max0. simpl. lia. }
    rewrite <- Hdeps in *.
    replace (0 <? length (dependencies t))%nat with true in Hrun
      by (symmetry; apply Nat.ltb_lt; rewrite Hdeps; simpl; lia).
    destruct (for_of _ _ _) as [[m c]|] eqn:Hloop; simpl in Hrun; [|done].
    apply pick_loop_post in Hloop as (Hm & Hin & Heq & Hall).
    cbn [fst snd] in *.
    assert (math_max0 ds = m) as Hmax.
    { apply Z.le_antisymm.
      - apply fold_max_bound; [done|]. apply Forall_forall. intros dd Hdd.
        apply list_elem_of_lookup in Hdd as (i & Hi).
        destruct (Forall2_lookup_r _ _ _ _ _ Hds Hi) as (dep & Hdep & Hrd).
        destruct (Hall dep) as (dd' & Hdd' & Hle);
          [by eapply list_elem_of_lookup_2|].
        assert (dd' = dd) as -> by congruence. done.
      - destruct (decide (m = 0)) as [->|Hne]; [apply fold_max_ge|].
        destruct Hin as [Hc Hdc]; [lia|].
        apply list_elem_of_lookup in Hc as (i & Hi).
        destruct (Forall2_lookup_l _ _ _ _ _ Hds Hi) as (dd & Hdd & Hrd).
        assert (dd = m) as -> by congruence.
        apply fold_max_elem. by eapply list_elem_of_lookup_2. }
    assert (m = 0 ∨ (0 < m ∧ c ≠ ""
                     ∧ duration_from_clear taskMap g c = Some m))
      as [->|(Hpos & Hc & Hdc)].
    { destruct (decide (m = 0)) as [|Hne]; [by left|right].
      destruct Hin as [_ Hdc]; [lia|]. split; [lia|]. split; [|done].
      intros ->. apply duration_from_clear_missing in Hdc; [lia|done]. }
    + rewrite Heq in Hrun by done. simpl in Hrun. injection Hrun as <-.
      rewrite Hsum, Hmax. lia.
    + apply truthy_true in Hc. rewrite Hc in Hrun.
      rewrite (IH c (x :: path) r m Hrun Hdc), Hsum, Hmax. lia.
  - injection Hrun as <-.
    apply duration_from_clear_missing in Hd as ->; [lia|done].
Qed.
End CriticalPathTree.

(** No id is reached, in zero or more dependency steps, from two different
    entries of the dependency list of one task: the tasks below a task form
    a tree. *)
Definition tree_shaped (tasks : list Task) : Prop :=
  ∀ t (i j : nat) a b y, t ∈ tasks →
    dependencies t !! i = Some a → dependencies t !! j = Some b → i ≠ j →
    rtc (depends_on tasks) a y → rtc (depends_on tasks) b y → False.

Lemma tree_shaped_branches_apart tasks :
  NoDup (map id tasks) → tree_shaped tasks →
  branches_apart (taskMap_of tasks).
Proof.
  intros Hnd Htree x t i j a b y Hx Hi Hj Hij Hay Hby.
  apply taskMap_of_Some in Hx as [_ Ht].
  apply (Htree t i j a b y Ht Hi Hj Hij).
  - eapply rtc_subrel; [|done].
    intros u v. by apply (map_depends_on_unique _ _ _ Hnd).
  - eapply rtc_subrel; [|done].
    intros u v. by apply (map_depends_on_unique _ _ _ Hnd).
Qed.


Lemma ex_abc_tree : tree_shaped ex_abc ∧ ∀ t, t ∈ ex_abc → id t ≠ "".
Proof.
  split.
  - intros t i j a b y Ht Hi Hj Hij _ _. unfold ex_abc in Ht.
    repeat (apply elem_of_cons in Ht as [->|Ht];
            [destruct i as [|i], j as [|j]; done|]).
    by apply elem_of_nil in Ht.
  - intros t Ht. unfold ex_abc in Ht.
    repeat (apply elem_of_cons in Ht as [->|Ht]; [done|]).
    by apply elem_of_nil in Ht.
Qed.


(** ** Phase assigner *)

Section PhaseMore.
Variable taskMap : gmap string Task.

(** A stored phase is 1 exactly for a task without dependencies. *)
Definition ph_first (st : PhaseState) : Prop :=
  ∀ x p t, phases st !! x = Some p → taskMap !! x = Some t →
    dependencies t = [] ↔ p = 1.

Lemma ph_inv_enter x st :
  ph_inv taskMap st → phases st !! x = None →
  ph_inv taskMap {| phases := phases st;
                    ph_visited := {[x]} ∪ ph_visited st |}.
Proof.
  intros [H1 H2] Hx. split; [done|].
  intros y [->%elem_of_singleton|Hy]%elem_of_union; [done|by apply H2].
Qed.

Lemma assignPhase_first fuel : ∀ x st p st',
  assignPhase taskMap fuel x st = Some (p, st') →
  ph_inv taskMap st → ph_first st → ph_first st'.
Proof.
  induction fuel as [|fuel IH]; intros x st p st' Hrun Hinv Hfirst; [done|].
  rewrite assignPhase_unfold in Hrun.
  destruct (phases st !! x) as [q|] eqn:Hq; [by injection Hrun as <- <-|].
  case_bool_decide as Hvis; [by injection Hrun as <- <-|].
  cbv zeta in Hrun. destruct (taskMap !! x) as [task|] eqn:Hget;
    [|by injection Hrun as <- <-].
  destruct (for_of _ _ _) as [[m s2]|] eqn:Hloop; simpl in Hrun; [|done].
  injection Hrun as <- <-.
  pose (P := λ (pre : list string) (acc : Z * PhaseState),
          ph_inv taskMap acc.2 ∧ ph_first acc.2
          ∧ (pre = [] → acc.1 = 0) ∧ (pre ≠ [] → 1 ≤ acc.1)).
  assert (P (dependencies task) (m, s2)) as (Hinv2 & Hfirst2 & Hm0 & Hm1).
  { apply (for_of_prefix_inv P _ _ _ _ Hloop).
    - split; [by apply ph_inv_enter|]. done.
    - intros pre dep suf [m1 s1] [m3 s3] _ (Hi1 & Hf1 & H0 & H1) Hstep.
      unfold phase_step in Hstep.
      destruct (assignPhase taskMap fuel dep s1) as [[q s']|] eqn:Hcall;
        simpl in Hstep; [|done].
      injection Hstep as <- <-.
      destruct (assignPhase_post _ fuel dep s1 q s' Hcall Hi1)
        as [Hi _ _ Hq1 _ _].
      unfold P. cbn [fst snd] in *. split; [done|]. split; [by eapply IH|].
      split; [by destruct pre|]. intros _.
      destruct pre; [rewrite H0 by done|specialize (H1 ltac:(done))]; lia. }
  cbn [fst snd] in *.
  intros y q t. simpl. destruct (decide (x = y)) as [<-|Hne].
  - rewrite lookup_insert_eq, Hget. intros [= <-] [= <-]. split.
    + intros Hnil. rewrite Hm0 by done. done.
    + intros Hp. destruct (dependencies task) as [|d ds]; [done|].
      specialize (Hm1 ltac:(done)). lia.
  - rewrite lookup_insert_ne by done. apply Hfirst2.
Qed.

(** On an acyclic graph a stored phase is the least one that its
    dependencies allow: it is 1 for a task without dependencies, and
    otherwise one more than the phase of some dependency, a dangling
    dependency counting as phase 1. *)
Definition ph_tight (st : PhaseState) : Prop :=
  ∀ x p t, phases st !! x = Some p → taskMap !! x = Some t →
    (p = 1 ∧ dependencies t = [])
    ∨ ∃ d, d ∈ dependencies t
           ∧ ((taskMap !! d = None ∧ p = 2)
              ∨ ∃ q, phases st !! d = Some q ∧ p = q + 1).

Lemma assignPhase_tight fuel :
  (∀ x, ¬ tc (map_depends_on taskMap) x x) →
  ∀ x st p st',
    assignPhase taskMap fuel x st = Some (p, st') →
    ph_inv taskMap st → reaches taskMap st x → ph_tight st → ph_tight st'.
Proof.
  intros Hacyc.
  induction fuel as [|fuel IH]; intros x st p st' Hrun Hinv Hreach Htight;
    [done|].
  rewrite assignPhase_unfold in Hrun.
  destruct (phases st !! x) as [q|] eqn:Hq; [by injection Hrun as <- <-|].
  case_bool_decide as Hvis; [by injection Hrun as <- <-|].
  cbv zeta in Hrun. destruct (taskMap !! x) as [task|] eqn:Hget;
    [|by injection Hrun as <- <-].
  set (st1 := {| phases := phases st;
                 ph_visited := {[x]} ∪ ph_visited st |}) in *.
  destruct (for_of _ _ _) as [[m s2]|] eqn:Hloop; simpl in Hrun; [|done].
  injection Hrun as <- <-.
  assert (x ∈ dom taskMap) as Hdom by (apply elem_of_dom; eauto).
  pose (P := λ (pre : list string) (acc : Z * PhaseState),
          ph_inv taskMap acc.2 ∧ same_stack taskMap st1 acc.2
          ∧ ph_tight acc.2
          ∧ ((acc.1 = 0 ∧ pre = [])
             ∨ ∃ d, d ∈ pre
                 ∧ ((taskMap !! d = None ∧ acc.1 = 1)
                    ∨ phases acc.2 !! d = Some acc.1))).
  assert (P (dependencies task) (m, s2)) as (Hinv2 & Hst & Ht2 & Hm).
  { apply (for_of_prefix_inv P _ _ _ _ Hloop).
    - split; [by apply ph_inv_enter|]. split; [done|]. split; [done|].
      by left.
    - intros pre dep suf [m1 s1] [m3 s3] Hsplit (Hi1 & Hs1 & Ht1 & Hm1) Hstep.
      unfold phase_step in Hstep.
      destruct (assignPhase taskMap fuel dep s1) as [[q s']|] eqn:Hcall;
        simpl in Hstep; [|done].
      injection Hstep as <- <-.
      destruct (assignPhase_post _ fuel dep s1 q s' Hcall Hi1)
        as [Hi Hmn Hss Hq1 Hqd Hstored].
      assert (reaches taskMap s1 dep) as Hr1.
      { intros y Hy Hyd.
        assert (map_depends_on taskMap x dep) as Hxd.
        { exists task. split; [done|]. rewrite Hsplit. set_solver. }
        apply (same_stack_visited _ _ _ _ Hs1 Hyd) in Hy. simpl in Hy.
        apply elem_of_union in Hy as [->%elem_of_singleton|Hy];
          [by apply tc_once|].
        eapply tc_r; [|done]. by apply Hreach. }
      unfold P. cbn [fst snd] in *. split; [done|].
      split; [by eapply same_stack_trans|]. split; [by eapply IH|].
      right.
      assert ((taskMap !! dep = None ∧ q = 1) ∨ phases s' !! dep = Some q)
        as Hdep.
      { destruct (taskMap !! dep) as [td|] eqn:Htd; [right|left; auto].
        apply Hstored; [done|]. intros Hin. apply (Hacyc dep).
        apply Hr1; [done|]. apply elem_of_dom. eauto. }
      destruct (Z.max_spec m1 q) as [[Hlt ->]|[Hge ->]].
      + exists dep. split; [set_solver|done].
      + destruct Hm1 as [[-> ->]|(d & Hd & Hdm)].
        * exists dep. split; [set_solver|].
          assert (q = 0) as -> by lia. lia.
        * exists d. split; [set_solver|].
          destruct Hdm as [?|Hdm]; [by left|right].
          by eapply lookup_weaken. }
  cbn [fst snd] in *.
  assert (x ∈ ph_visited s2) as Hx2.
  { eapply same_stack_visited; [done..|]. simpl. set_solver. }
  assert (phases s2 !! x = None) as Hnone by by apply Hinv2.
  assert (∀ d q, phases s2 !! d = Some q →
                 <[x := m + 1]> (phases s2) !! d = Some q) as Hkeep.
  { intros d q Hd. rewrite lookup_insert_ne; [done|]. congruence. }
  intros y q t. simpl. destruct (decide (x = y)) as [<-|Hne].
  - rewrite lookup_insert_eq, Hget. intros [= <-] [= <-].
    destruct Hm as [[-> Hnil]|(d & Hd & Hdm)]; [by left|right].
    exists d. split; [done|]. destruct Hdm as [[? ->]|Hdm]; [by left|right].
    exists m. split; [by apply Hkeep|done].
  - rewrite lookup_insert_ne by done. intros Hy Ht.
    destruct (Ht2 y q t Hy Ht) as [?|(d & Hd & Hdq)]; [by left|right].
    exists d. split; [done|].
    destruct Hdq as [?|(q' & Hq' & ->)]; [by left|right].
    exists q'. split; [by apply Hkeep|done].
Qed.
End PhaseMore.

Lemma assign_all_more tasks fuel st :
  assign_all fuel tasks = Some st →
  ph_first (taskMap_of tasks) st
  ∧ ((∀ x, ¬ tc (map_depends_on (taskMap_of tasks)) x x) →
     ph_tight (taskMap_of tasks) st).
Proof.
  intros Hrun. unfold assign_all in Hrun.
  pose (P := λ (pre : list Task) (s : PhaseState),
          ph_inv (taskMap_of tasks) s
          ∧ same_stack (taskMap_of tasks) phase_init s
          ∧ ph_first (taskMap_of tasks) s
          ∧ ((∀ x, ¬ tc (map_depends_on (taskMap_of tasks)) x x) →
             ph_tight (taskMap_of tasks) s)).
  assert (P tasks st) as (_ & _ & H3 & H4); [|done].
  apply (for_of_prefix_inv P _ _ _ _ Hrun).
  - split; [|split; [done|split]].
    + split; [|done]. intros x p. simpl. by rewrite lookup_empty.
    + intros x p t. simpl. by rewrite lookup_empty.
    + intros _ x p t. simpl. by rewrite lookup_empty.
  - intros pre t suf s1 s2 Hsplit (Hi1 & Hs1 & Hf1 & Ht1) Hbody.
    destruct (assignPhase (taskMap_of tasks) fuel (id t) s1)
      as [[p s']|] eqn:Hcall; simpl in Hbody; [|done].
    injection Hbody as <-.
    destruct (assignPhase_post _ fuel (id t) s1 p s' Hcall Hi1)
      as [Hi _ Hss _ _ _].
    split; [done|]. split; [by eapply same_stack_trans|].
    split; [by eapply assignPhase_first|].
    intros Hacyc. eapply assignPhase_tight; [done..| |by apply Ht1].
    intros y Hy Hyd.
    apply (same_stack_visited _ _ _ _ Hs1 Hyd) in Hy. set_solver.
Qed.

(** X8. On every input, cyclic or not, [optimizeTaskExecution] returns the
    same tasks in the same order, each with a phase that is at least 1; a
    task (as its id resolves) is in phase 1 exactly when its dependency
    list is empty; and tasks with the same id get the same phase. *)
Theorem optimizeTaskExecution_total (tasks : list Task) (fuel : nat) :
  (length tasks < fuel)%nat →
  ∃ out, optimizeTaskExecution fuel tasks = Some out
    ∧ map task_of out = tasks
    ∧ ∀ o, o ∈ out →
        1 ≤ phase o
        ∧ (∀ t, taskMap_of tasks !! id (task_of o) = Some t →
                phase o = 1 ↔ dependencies t = [])
        ∧ ∀ o', o' ∈ out → id (task_of o') = id (task_of o) →
                phase o' = phase o.
Proof.
  intros Hfuel.
  destruct (optimizeTaskExecution_returns tasks fuel Hfuel)
    as (st & Hst & -> & Hph).
  eexists. split; [done|]. split; [apply optimizeTaskExecution_tasks|].
  destruct (assign_all_post tasks fuel st Hst) as (Hinv & _ & _).
  destruct (assign_all_more tasks fuel st Hst) as (Hfirst & _).
  intros o (t & Ht & -> & Hto)%elem_of_annotated. rewrite Hto.
  destruct (Hph t Ht) as (p & Hp & Hpt). rewrite Hpt.
  destruct (proj1 Hinv _ _ Hp) as (_ & _ & Hpos & _).
  split; [done|]. split.
  - intros u Hu. symmetry. by eapply Hfirst.
  - intros o' (t' & Ht' & -> & Hto')%elem_of_annotated. rewrite Hto'.
    intros Hid. destruct (Hph t' Ht') as (q & Hq & ->). congruence.
Qed.

Lemma optimizeTaskExecution_total_witness :
  ∃ out, optimizeTaskExecution 3 ex_xy = Some out
    ∧ map task_of out = ex_xy
    ∧ ∀ o, o ∈ out →
        1 ≤ phase o
        ∧ (∀ t, taskMap_of ex_xy !! id (task_of o) = Some t →
                phase o = 1 ↔ dependencies t = [])
        ∧ ∀ o', o' ∈ out → id (task_of o') = id (task_of o) →
                phase o' = phase o.
Proof.
  apply (optimizeTaskExecution_total ex_xy 3). simpl. lia.
Defined.



(** ** Execution-plan builder *)

Lemma length_filter_map {A B} (P : B → Prop) (Q : A → Prop)
    `{∀ y, Decision (P y)} `{∀ x, Decision (Q x)} (f : A → B) l :
  (∀ x, x ∈ l → P (f x) ↔ Q x) →
  length (filter P (map f l)) = length (filter Q l).
Proof.
  induction l as [|x l IH]; intros HPQ; [done|].
  change (map f (x :: l)) with (f x :: map f l). rewrite !filter_cons.
  specialize (IH (λ y Hy, HPQ y ltac:(set_solver))).
  destruct (decide (P (f x))) as [HP|HP],
           (decide (Q x)) as [HQ|HQ]; simpl; try by rewrite IH.
  - destruct HQ. apply HPQ; [set_solver|done].
  - destruct HP. apply HPQ; [set_solver|done].
Qed.

Lemma phaseMap_push_concat m t :
  concat (map snd (phaseMap_push m t)) ≡ₚ concat (map snd m) ++ [t].
Proof.
  induction m as [|[q ts] m IH]; simpl; [done|].
  destruct (q =? phase t); simpl.
  - rewrite <- !app_assoc. apply Permutation_app_head, Permutation_app_comm.
  - by rewrite IH, app_assoc.
Qed.

Lemma group_by_phase_concat ots :
  concat (map snd (group_by_phase ots)) ≡ₚ ots.
Proof.
  unfold group_by_phase.
  induction ots as [|t pre IH] using rev_ind; [done|].
  rewrite fold_left_app. simpl. by rewrite phaseMap_push_concat, IH.
Qed.

Lemma distinct_from_snoc {A} `{EqDecision A} (seen xs : list A) x :
  distinct_from seen (xs ++ [x])
  = distinct_from seen xs
      ++ (if decide (x ∈ seen ++ xs) then [] else [x]).
Proof.
  revert seen; induction xs as [|y xs IH]; intros seen; simpl.
  - rewrite app_nil_r. case_bool_decide; destruct (decide _); done.
  - case_bool_decide as Hy.
    + rewrite IH. f_equal.
      destruct (decide (x ∈ seen ++ xs)), (decide (x ∈ seen ++ (y :: xs)));
        set_solver.
    + rewrite IH. simpl. f_equal. f_equal.
      destruct (decide (x ∈ y :: (seen ++ xs))),
               (decide (x ∈ seen ++ (y :: xs))); set_solver.
Qed.

Lemma distinct_from_elem {A} `{EqDecision A} (xs : list A) x :
  x ∈ distinct_from [] xs ↔ x ∈ xs.
Proof.
  induction xs as [|y xs IH] using rev_ind; [done|].
  rewrite distinct_from_snoc. simpl.
  destruct (decide (y ∈ xs)); set_solver.
Qed.

Lemma group_by_phase_keys ots :
  map fst (group_by_phase ots) = distinct_from [] (map phase ots).
Proof.
  unfold group_by_phase.
  induction ots as [|t pre IH] using rev_ind; [done|].
  rewrite fold_left_app, map_app. simpl.
  rewrite phaseMap_push_keys, distinct_from_snoc, IH. simpl. f_equal.
  destruct (decide (phase t ∈ distinct_from [] (map phase pre))) as [Hin|Hin],
           (decide (phase t ∈ map phase pre)) as [Hin'|Hin']; try done.
  - destruct Hin'. by apply distinct_from_elem.
  - destruct Hin. by apply distinct_from_elem.
Qed.

(** The plan and the grouping it is computed from. *)
Lemma generateExecutionPlan_phases ots cs :
  ∃ plan, generateExecutionPlan ots cs = Some plan
    ∧ Forall2 (λ entry ph, plan_phase_of entry = Some ph)
              (group_by_phase ots) (plan_phases plan)
    ∧ map pp_phase (plan_phases plan) = map fst (group_by_phase ots)
    ∧ Forall (plan_phase_ok ots) (plan_phases plan)
    ∧ totalPhases plan = length (plan_phases plan).
Proof.
  destruct (group_by_phase_spec ots) as (_ & Hok & _).
  destruct (mapM_plan_phase_of ots _ Hok) as (phs & Hphs & Hkeys & Hgood).
  unfold generateExecutionPlan. rewrite Hphs. simpl.
  eexists. split; [done|]. simpl. split; [by apply mapM_Some_1|]. done.
Qed.

(** X10. The flag and the plan agree.  On every input, each annotated task
    is listed in the plan entry of its phase, and its [canStartInParallel]
    is true exactly when that entry lists more than one task. *)
Theorem canStartInParallel_matches_plan (tasks : list Task) (fuel : nat)
    (cs : option Constraints) :
  (length tasks < fuel)%nat →
  ∃ out plan,
    optimizeTaskExecution fuel tasks = Some out
    ∧ generateExecutionPlan out cs = Some plan
    ∧ ∀ o, o ∈ out →
        ∃ ph, ph ∈ plan_phases plan
          ∧ pp_phase ph = phase o
          ∧ id (task_of o) ∈ pp_tasks ph
          ∧ (canStartInParallel o = true ↔ (1 < length (pp_tasks ph))%nat).
Proof.
  intros Hfuel.
  destruct (optimizeTaskExecution_returns tasks fuel Hfuel)
    as (st & Hst & -> & Hph).
  set (out := map (annotate (phases st) tasks) tasks).
  destruct (generateExecutionPlan_phases out cs)
    as (plan & Hplan & _ & Hkeys & Hgood & _).
  exists out, plan. split; [done|]. split; [done|].
  destruct (group_by_phase_spec out) as (_ & _ & Hall).
  intros o Ho. specialize (Hall o Ho). rewrite <- Hkeys in Hall.
  apply list_elem_of_fmap in Hall as (ph & Hp & Hin).
  exists ph. split; [done|]. split; [done|].
  pose proof (proj1 (Forall_forall _ _) Hgood ph Hin) as (Hts & _ & _).
  rewrite Hts, <- Hp. split.
  - apply list_elem_of_fmap. exists o. split; [done|].
    by apply list_elem_of_filter.
  - rewrite length_map. unfold in_phase, out.
    apply elem_of_annotated in Ho as (t & Ht & -> & _).
    destruct (Hph t Ht) as (p & Hpt & Hpa).
    rewrite (length_filter_map _
               (λ u, has_phase (phases st) (phase (annotate (phases st) tasks t))
                       u = true)).
    + unfold annotate at 1. simpl. by rewrite Nat.ltb_lt.
    + intros u Hu. destruct (Hph u Hu) as (q & Hq & Hqa).
      rewrite has_phase_true, Hqa, Hq. split; congruence.
Qed.

Lemma canStartInParallel_matches_plan_witness :
  ∃ out plan,
    optimizeTaskExecution 4 ex_abc = Some out
    ∧ generateExecutionPlan out None = Some plan
    ∧ ∀ o, o ∈ out →
        ∃ ph, ph ∈ plan_phases plan
          ∧ pp_phase ph = phase o
          ∧ id (task_of o) ∈ pp_tasks ph
          ∧ (canStartInParallel o = true ↔ (1 < length (pp_tasks ph))%nat).
Proof.
  apply (canStartInParallel_matches_plan ex_abc 4 None). simpl. lia.
Defined.

Lemma plan_phase_of_Some q ts ph :
  plan_phase_of (q, ts) = Some ph →
  pp_phase ph = q
  ∧ pp_tasks ph = map (λ o, id (task_of o)) ts
  ∧ math_max (map (λ o, estimatedHours (task_of o)) ts)
    = Some (pp_estimatedHours ph).
Proof.
  unfold plan_phase_of.
  destruct (math_max _) as [m|]; simpl; [|done]. by intros [= <-].
Qed.

Lemma sum_list_app xs ys : sum_list (xs ++ ys) = sum_list xs + sum_list ys.
Proof.
  unfold sum_list. induction xs as [|x xs IH]; simpl; [done|].
  rewrite IH. lia.
Qed.

Lemma sum_list_perm xs ys : xs ≡ₚ ys → sum_list xs = sum_list ys.
Proof.
  unfold sum_list. induction 1; simpl; lia.
Qed.

Lemma sum_list_elem xs x :
  Forall (λ y, 0 ≤ y) xs → x ∈ xs → x ≤ sum_list xs.
Proof.
  unfold sum_list. induction 1 as [|y xs Hy Hxs IH]; [by intros ?%elem_of_nil|].
  assert (0 ≤ foldr Z.add 0 xs).
  { clear IH. induction Hxs; simpl; lia. }
  simpl. intros [->|Hx]%elem_of_cons; [lia|]. specialize (IH Hx). lia.
Qed.

(** The tasks and the hours of the plan, read off the grouping. *)
Lemma plan_phases_of_groups g phs :
  Forall2 (λ entry ph, plan_phase_of entry = Some ph) g phs →
  concat (map pp_tasks phs)
  = map (λ o, id (task_of o)) (concat (map snd g))
  ∧ ((∀ o, o ∈ concat (map snd g) → 0 ≤ estimatedHours (task_of o)) →
     sum_list (map pp_estimatedHours phs)
     ≤ sum_list (map (λ o, estimatedHours (task_of o))
                     (concat (map snd g)))).
Proof.
  induction 1 as [|[q ts] ph g phs Hph _ [IH1 IH2]]; [done|].
  apply plan_phase_of_Some in Hph as (_ & Hts & Hmax). simpl. split.
  - by rewrite map_app, Hts, IH1.
  - intros Hpos. rewrite map_app, sum_list_app.
    apply math_max_spec in Hmax as [Hin _].
    assert (pp_estimatedHours ph
            ≤ sum_list (map (λ o, estimatedHours (task_of o)) ts)).
    { apply sum_list_elem; [|done]. apply Forall_forall.
      intros h (o & -> & Ho)%list_elem_of_fmap. apply Hpos. set_solver. }
    assert (sum_list (map pp_estimatedHours phs)
            ≤ sum_list (map (λ o, estimatedHours (task_of o))
                            (concat (map snd g)))).
    { apply IH2. intros o Ho. apply Hpos. set_solver. }
    unfold sum_list in *. simpl. lia.
Qed.

(** X11. For every phase-annotated task list, the plan lists its phases in
    the order in which their numbers first occur in the list, not sorted by
    number, and the task lists of the phases together hold each task of the
    input once. *)
Theorem generateExecutionPlan_partition
    (ots : list OptimizedTask) (cs : option Constraints) :
  ∃ plan, generateExecutionPlan ots cs = Some plan
    ∧ map pp_phase (plan_phases plan) = distinct_from [] (map phase ots)
    ∧ concat (map pp_tasks (plan_phases plan))
      ≡ₚ map (λ o, id (task_of o)) ots.
Proof.
  destruct (generateExecutionPlan_phases ots cs)
    as (plan & Hplan & Hall & Hkeys & _).
  exists plan. split; [done|]. split.
  - by rewrite Hkeys, group_by_phase_keys.
  - rewrite (proj1 (plan_phases_of_groups _ _ Hall)).
    by rewrite group_by_phase_concat.
Qed.

(** X12. When no task has negative hours, the hours of the phases of the
    plan add up to at most the hours of all tasks together, and to at
    least the hours of each single task. *)
Theorem generateExecutionPlan_hours_between
    (ots : list OptimizedTask) (cs : option Constraints) :
  (∀ o, o ∈ ots → 0 ≤ estimatedHours (task_of o)) →
  ∃ plan, generateExecutionPlan ots cs = Some plan
    ∧ sum_list (map pp_estimatedHours (plan_phases plan))
      ≤ sum_list (map (λ o, estimatedHours (task_of o)) ots)
    ∧ ∀ o, o ∈ ots →
        estimatedHours (task_of o)
        ≤ sum_list (map pp_estimatedHours (plan_phases plan)).
Proof.
  intros Hpos.
  destruct (generateExecutionPlan_phases ots cs)
    as (plan & Hplan & Hall & Hkeys & Hgood & _).
  exists plan. split; [done|]. split.
  - etrans; [apply (proj2 (plan_phases_of_groups _ _ Hall))|].
    + intros o Ho. apply Hpos. by rewrite <- (group_by_phase_concat ots).
    + apply Z.eq_le_incl, sum_list_perm, fmap_Permutation,
        group_by_phase_concat.
  - intros o Ho.
    destruct (group_by_phase_spec ots) as (_ & _ & Hin).
    specialize (Hin o Ho). rewrite <- Hkeys in Hin.
    apply list_elem_of_fmap in Hin as (ph & Hp & Hph).
    pose proof (proj1 (Forall_forall _ _) Hgood ph Hph) as (_ & _ & Hle).
    etrans; [apply (Hle o)|].
    + apply list_elem_of_filter. by split.
    + apply sum_list_elem; [|apply list_elem_of_fmap; eauto].
      apply Forall_forall. intros h (ph' & -> & Hph')%list_elem_of_fmap.
      destruct (proj1 (Forall_forall _ _) Hgood ph' Hph')
        as (_ & (o' & Ho' & <-) & _).
      apply Hpos. by apply list_elem_of_filter in Ho' as [_ ?].
Qed.

Definition ex_annotated : list OptimizedTask :=
  [ {| task_of := mkTask "B" 3 ["A"]; phase := 2;
       canStartInParallel := false |};
    {| task_of := mkTask "A" 2 []; phase := 1;
       canStartInParallel := false |} ].

Lemma generateExecutionPlan_hours_between_witness :
  (∀ o, o ∈ ex_annotated → 0 ≤ estimatedHours (task_of o))
  ∧ ∃ plan, generateExecutionPlan ex_annotated None = Some plan
      ∧ sum_list (map pp_estimatedHours (plan_phases plan))
        ≤ sum_list (map (λ o, estimatedHours (task_of o)) ex_annotated)
      ∧ ∀ o, o ∈ ex_annotated →
          estimatedHours (task_of o)
          ≤ sum_list (map pp_estimatedHours (plan_phases plan)).
Proof.
  assert (∀ o, o ∈ ex_annotated → 0 ≤ estimatedHours (task_of o)) as Hpos.
  { intros o Ho. unfold ex_annotated in Ho.
    repeat (apply elem_of_cons in Ho as [->|Ho]; [simpl; lia|]).
    by apply elem_of_nil in Ho. }
  split; [exact Hpos|].
  exact (generateExecutionPlan_hours_between ex_annotated None Hpos).
Defined.

(** X13. On a task set with unique ids, no dependency cycle and no
    dangling dependency, the phases leave no gap: below the phase of a
    task, every phase down to 1 holds some task. *)
Theorem phases_have_no_gap (tasks : list Task) (fuel : nat) :
  NoDup (map id tasks) → acyclic tasks →
  (∀ t d, t ∈ tasks → d ∈ dependencies t → d ∈ map id tasks) →
  (length tasks < fuel)%nat →
  ∃ out, optimizeTaskExecution fuel tasks = Some out
    ∧ ∀ o q, o ∈ out → 1 ≤ q ≤ phase o →
        ∃ o', o' ∈ out ∧ phase o' = q.
Proof.
  intros Hnd Hacyc Hres Hfuel.
  destruct (optimizeTaskExecution_returns tasks fuel Hfuel)
    as (st & Hst & -> & Hph).
  eexists. split; [done|].
  destruct (assign_all_more tasks fuel st Hst) as (_ & Htight).
  specialize (Htight (acyclic_map_depends_on tasks Hnd Hacyc)).
  destruct (assign_all_post tasks fuel st Hst) as ((Hinv & _) & _).
  assert (∀ (n : nat) x p q, phases st !! x = Some p → 1 ≤ q ≤ p →
            Z.to_nat (p - q) = n →
            ∃ y, phases st !! y = Some q) as Hdown.
  { induction n as [|n IH]; intros x p q Hp Hq Hn.
    - exists x. rewrite Hp. f_equal. lia.
    - destruct (Hinv x p Hp) as (t & Ht & _).
      destruct (Htight x p t Hp Ht) as [[-> _]|(d & Hd & Hdq)]; [lia|].
      destruct Hdq as [[Hnone _]|(p' & Hp' & ->)].
      + exfalso. apply taskMap_of_None in Hnone. apply Hnone.
        apply taskMap_of_Some in Ht as [_ Ht]. by eapply Hres.
      + apply (IH d p' q Hp'); lia. }
  intros o q (t & Ht & -> & _)%elem_of_annotated Hq.
  destruct (Hph t Ht) as (p & Hp & Hpa). rewrite Hpa in Hq.
  destruct (Hdown _ (id t) p q Hp Hq eq_refl) as (y & Hy).
  destruct (Hinv y q Hy) as (u & Hu & _).
  apply taskMap_of_Some in Hu as [<- Hu].
  exists (annotate (phases st) tasks u).
  split; [apply list_elem_of_fmap; eauto|].
  destruct (Hph u Hu) as (q' & Hq' & ->). congruence.
Qed.

Lemma phases_have_no_gap_witness :
  NoDup (map id ex_abc) ∧ acyclic ex_abc
  ∧ (∀ t d, t ∈ ex_abc → d ∈ dependencies t → d ∈ map id ex_abc)
  ∧ ∃ out, optimizeTaskExecution 4 ex_abc = Some out
      ∧ ∀ o q, o ∈ out → 1 ≤ q ≤ phase o →
          ∃ o', o' ∈ out ∧ phase o' = q.
Proof.
  destruct ex_abc_facts as [Hnd Hacyc].
  assert (∀ t d, t ∈ ex_abc → d ∈ dependencies t → d ∈ map id ex_abc)
    as Hres.
  { intros t d Ht Hd. unfold ex_abc in Ht.
    repeat (apply elem_of_cons in Ht as [->|Ht];
            [simpl in *; set_solver|]).
    by apply elem_of_nil in Ht. }
  split; [exact Hnd|]. split; [exact Hacyc|]. split; [exact Hres|].
  apply (phases_have_no_gap ex_abc 4 Hnd Hacyc Hres). simpl. lia.
Defined.

(** ** The critical path when following dependencies never ends *)

Section BuildPathNever.
Variable taskMap : gmap string Task.

Hypothesis Hnoempty : taskMap !! "" = None.
Hypothesis Hhours : ∀ x t, taskMap !! x = Some t → 0 < estimatedHours t.
Hypothesis Hdeps : ∀ x t, taskMap !! x = Some t →
  ∃ d, d ∈ dependencies t ∧ is_Some (taskMap !! d).

Lemma pick_loop_positive dfuel l m c d t :
  for_of l (pick_longer taskMap dfuel) (0, "") = Some (m, c) →
  d ∈ l → taskMap !! d = Some t →
  truthy c = true ∧ is_Some (taskMap !! c).
Proof.
  intros (Hm & Hin & _ & Hall)%pick_loop_post Hd Ht. cbn [fst snd] in *.
  destruct (Hall d Hd) as (dd & Hdd & Hle).
  pose proof (proj1 (duration_from_clear_bounds _ _ _ _ Hdd) t Ht).
  pose proof (Hhours d t Ht).
  destruct Hin as [_ Hc]; [lia|].
  assert (is_Some (taskMap !! c)) as Hsome.
  { destruct (taskMap !! c) eqn:E; [by eauto|].
    apply (duration_from_clear_missing _ _ _ _ E) in Hc. lia. }
  split; [|done]. apply truthy_true. intros ->.
  rewrite Hnoempty in Hsome. by destruct Hsome.
Qed.

Lemma buildPath_never dfuel fuel : ∀ x path,
  is_Some (taskMap !! x) → buildPath taskMap dfuel fuel x path = None.
Proof.
  induction fuel as [|fuel IH]; intros x path [t Hx]; [done|].
  simpl. rewrite Hx.
  destruct (Hdeps x t Hx) as (d & Hd & [u Hu]).
  replace (0 <? length (dependencies t))%nat with true
    by (symmetry; apply Nat.ltb_lt; destruct (dependencies t);
        [by apply elem_of_nil in Hd|simpl; lia]).
  destruct (for_of _ _ _) as [[m c]|] eqn:Hloop; simpl; [|done].
  destruct (pick_loop_positive _ _ _ _ _ _ Hloop Hd Hu) as [-> Hc].
  by apply IH.
Qed.
End BuildPathNever.

(** X14. When every task has a non-empty id and positive hours and
    depends on at least one task of the set, following the dependencies
    never ends: [calculateCriticalPath] returns at no stack depth, and
    neither does [execute], whatever the constraints are. *)
Theorem calculateCriticalPath_never_returns (tasks : list Task) :
  tasks ≠ [] →
  (∀ t, t ∈ tasks →
     id t ≠ "" ∧ 0 < estimatedHours t
     ∧ ∃ d, d ∈ dependencies t ∧ d ∈ map id tasks) →
  ∀ fuel,
    calculateCriticalPath fuel tasks = None
    ∧ ∀ toLowerCase cs,
        execute toLowerCase fuel {| tasks := tasks; constraints := cs |}
        = None.
Proof.
  intros Hne Hall fuel.
  assert (calculateCriticalPath fuel tasks = None) as Hnone.
  { assert (taskMap_of tasks !! "" = None) as Hnoempty.
    { apply taskMap_of_None. intros (t & Heq & Ht)%list_elem_of_fmap.
      by destruct (Hall t Ht) as [? _]. }
    assert (∀ x t, taskMap_of tasks !! x = Some t → 0 < estimatedHours t)
      as Hhours.
    { intros x t [_ Ht]%taskMap_of_Some. by destruct (Hall t Ht) as (_ & ? & _). }
    assert (∀ x t, taskMap_of tasks !! x = Some t →
              ∃ d, d ∈ dependencies t ∧ is_Some (taskMap_of tasks !! d))
      as Hdeps.
    { intros x t [_ Ht]%taskMap_of_Some.
      destruct (Hall t Ht) as (_ & _ & d & Hd & Hres).
      exists d. split; [done|]. by apply taskMap_of_is_Some. }
    unfold calculateCriticalPath. rewrite (for_of_map id).
    destruct (for_of _ _ _) as [[m c]|] eqn:Hloop; simpl; [|done].
    destruct tasks as [|t0 tasks']; [done|].
    assert (is_Some (taskMap_of (t0 :: tasks') !! id t0)) as [u Hu].
    { apply taskMap_of_is_Some. set_solver. }
    destruct (pick_loop_positive _ Hnoempty Hhours _ _ _ _ (id t0) u Hloop)
      as [-> Hc]; [set_solver|done|].
    by apply buildPath_never. }
  split; [done|]. intros toLowerCase cs. unfold execute. simpl.
  destruct (findCircularDependencies fuel tasks); simpl; [|done].
  by rewrite Hnone.
Qed.

Lemma calculateCriticalPath_never_returns_witness :
  ex_xy ≠ []
  ∧ (∀ t, t ∈ ex_xy →
       id t ≠ "" ∧ 0 < estimatedHours t
       ∧ ∃ d, d ∈ dependencies t ∧ d ∈ map id ex_xy)
  ∧ ∀ fuel,
      calculateCriticalPath fuel ex_xy = None
      ∧ ∀ toLowerCase cs,
          execute toLowerCase fuel {| tasks := ex_xy; constraints := cs |}
          = None.
Proof.
  assert (ex_xy ≠ []) as Hne by done.
  assert (∀ t, t ∈ ex_xy →
            id t ≠ "" ∧ 0 < estimatedHours t
            ∧ ∃ d, d ∈ dependencies t ∧ d ∈ map id ex_xy) as Hall.
  { intros t Ht. unfold ex_xy in Ht.
    apply elem_of_cons in Ht as [->|Ht].
    - split; [done|]. split; [done|]. exists "Y". simpl. set_solver.
    - apply list_elem_of_singleton in Ht as ->.
      split; [done|]. split; [done|]. exists "X". simpl. set_solver. }
  split; [exact Hne|]. split; [exact Hall|].
  exact (calculateCriticalPath_never_returns ex_xy Hne Hall).
Defined.

(** ** Validation report *)

Lemma execute_inv toLowerCase fuel context out :
  execute toLowerCase fuel context = Some out →
  ∃ detected,
    findCircularDependencies fuel (tasks context) = Some detected
    ∧ issues (validationResults out)
      = (flat_map (task_issues toLowerCase (constraints context)
                     (tasks context)) (tasks context)
           ++ capability_issues toLowerCase (constraints context)
                (tasks context))
          ++ map cycle_issue detected
    ∧ isValid (validationResults out)
      = (length (List.filter is_error (issues (validationResults out)))
           =? 0)%nat
    ∧ recommendations (validationResults out)
      = generateRecommendations (tasks context)
    ∧ optimizeTaskExecution fuel (tasks context)
      = Some (optimizedTasks out).
Proof.
  unfold execute. intros Hrun.
  destruct (findCircularDependencies fuel (tasks context)) as [detected|];
    simpl in Hrun; [|done].
  destruct (calculateCriticalPath fuel (tasks context)) as [path|];
    simpl in Hrun; [|done].
  destruct (optimizeTaskExecution fuel (tasks context)) as [ots|];
    simpl in Hrun; [|done].
  destruct (generateExecutionPlan ots (constraints context)) as [plan|];
    simpl in Hrun; [|done].
  injection Hrun as <-. simpl. by exists detected.
Qed.



Lemma constraint_issues_nil toLowerCase cs t :
  constraint_issues toLowerCase cs t = [] ↔
  ∀ tcs c, cs ≫= technicalConstraints = Some tcs → c ∈ tcs →
    mentions toLowerCase (title t) c = false
    ∧ mentions toLowerCase (description t) c = false.
Proof.
  unfold constraint_issues.
  destruct (cs ≫= technicalConstraints) as [tcs|];
    [|split; [by intros _ ? ? [=]|done]].
  destruct (0 <? length tcs)%nat eqn:Elen.
  2:{ split; [|done]. intros _ ? c [= <-] Hc. destruct tcs; [|done].
      by apply elem_of_nil in Hc. }
  destruct (existsb _ tcs) eqn:E.
  - split; [done|]. intros H. exfalso.
    apply existsb_exists in E as (c & Hc & Hm).
    destruct (H _ c eq_refl) as [H1 H2]; [by apply list_elem_of_In|].
    rewrite H1, H2 in Hm. discriminate.
  - split; [|done]. intros _ ? c [= <-] Hc.
    apply orb_false_elim.
    destruct (_ || _) eqn:Ec; [|done].
    assert (existsb (λ c, mentions toLowerCase (title t) c
                          || mentions toLowerCase (description t) c) tcs
            = true) as Hex; [|congruence].
    apply existsb_exists. exists c. split; [by apply list_elem_of_In|done].
Qed.

Lemma criteria_issues_nil t :
  criteria_issues t = [] ↔ acceptanceCriteria t ≠ [].
Proof.
  unfold criteria_issues. by destruct (acceptanceCriteria t).
Qed.

Lemma capability_issues_nil toLowerCase cs tasks :
  capability_issues toLowerCase cs tasks = [] ↔
  ∀ caps c, cs ≫= requiredCapabilities = Some caps → c ∈ caps →
    ∃ t, t ∈ tasks ∧ mentions toLowerCase (title t) c = true.
Proof.
  unfold capability_issues.
  destruct (cs ≫= requiredCapabilities) as [caps|];
    [|split; [by intros _ ? ? [=]|done]].
  destruct (0 <? length caps)%nat eqn:Elen.
  2:{ split; [|done]. intros _ ? c [= <-] Hc. destruct caps; [|done].
      by apply elem_of_nil in Hc. }
  set (missing := List.filter _ caps).
  assert (missing = [] ↔
          ∀ c, c ∈ caps →
            ∃ t, t ∈ tasks ∧ mentions toLowerCase (title t) c = true)
    as Hmissing.
  { unfold missing. split.
    - intros Hnil c Hc.
      destruct (existsb (λ task, mentions toLowerCase (title task) c) tasks)
        eqn:E.
      + apply existsb_exists in E as (t & Ht & Hm). exists t.
        split; [by apply list_elem_of_In|done].
      + assert (In c (List.filter
                        (λ capability,
                           negb (existsb
                                   (λ task, mentions toLowerCase (title task)
                                              capability) tasks)) caps))
          as Hin.
        { apply filter_In. split; [by apply list_elem_of_In|].
          by rewrite E. }
        by rewrite Hnil in Hin.
    - intros Hall.
      destruct (List.filter _ caps) as [|c l] eqn:Hf; [done|exfalso].
      assert (In c (List.filter
                      (λ capability,
                         negb (existsb
                                 (λ task, mentions toLowerCase (title task)
                                            capability) tasks)) caps))
        as Hin by (rewrite Hf; by left).
      apply filter_In in Hin as [Hc Hno].
      destruct (Hall c) as (t & Ht & Hm); [by apply list_elem_of_In|].
      apply negb_true_iff in Hno.
      assert (existsb (λ task, mentions toLowerCase (title task) c) tasks
              = true) as Hex; [|congruence].
      apply existsb_exists. exists t. split; [by apply list_elem_of_In|done]. }
  destruct missing as [|c l] eqn:Hm; simpl.
  - split; [|done]. intros _ ? c [= <-]. by apply Hmissing.
  - split; [done|]. intros H. exfalso.
    assert (c :: l = []) as Habs; [|done].
    apply Hmissing. intros c' Hc'. by apply (H caps).
Qed.



(** ** Recommendations *)

(** The last character of a string, by which two of the recommendations
    that start with a count are told from the others. *)
Fixpoint last_ascii (s : string) : option ascii :=
  match s with
  | EmptyString => None
  | String a s' =>
      match s' with
      | EmptyString => Some a
      | String _ _ => last_ascii s'
      end
  end.

Lemma last_ascii_app s a t :
  last_ascii (s +:+ String a t) = last_ascii (String a t).
Proof.
  induction s as [|b s IH]; [done|].
  change (String b s +:+ String a t) with (String b (s +:+ String a t)).
  destruct s as [|c s]; [done|]. exact IH.
Qed.

Lemma last_ascii_app_app s1 s2 a t :
  last_ascii (s1 +:+ s2 +:+ String a t) = last_ascii (String a t).
Proof.
  induction s1 as [|b s IH]; [apply last_ascii_app|].
  rewrite <- IH.
  change (String b s +:+ s2 +:+ String a t)
    with (String b (s +:+ s2 +:+ String a t)).
  destruct s as [|c s]; [|done]. by destruct s2.
Qed.

Lemma elem_of_if_singleton {A} (c : bool) (m x : A) :
  x ∈ (if c then [m] else []) ↔ c = true ∧ x = m.
Proof.
  destruct c.
  - rewrite list_elem_of_singleton. naive_solver.
  - split; [by intros ?%elem_of_nil|by intros [? _]].
Qed.

(** The five recommendations, each with the condition under which it is
    given. *)
Lemma elem_of_generateRecommendations tasks r :
  r ∈ generateRecommendations tasks ↔
  ((0 <? length (filter (λ t, (16 < estimatedHours t)%Z) tasks))%nat = true
   ∧ r = "Consider breaking down "
           +:+ pretty (length (filter (λ t, (16 < estimatedHours t)%Z) tasks))
           +:+ " large tasks (>16 hours) into smaller chunks")
  ∨ (senior_heavy tasks = true
     ∧ r = "Consider delegating some tasks to junior/mid-level developers")
  ∨ ((1 <? length (filter (λ t, dependencies t = []) tasks))%nat = true
     ∧ r = pretty (length (filter (λ t, dependencies t = []) tasks))
             +:+ " tasks can be started in parallel")
  ∨ ((10 * length (filter (λ t, category t = testing) tasks)
      <? 3 * length (filter (λ t, category t = frontend
                                  ∨ category t = backend) tasks))%nat = true
     ∧ r = "Consider adding more testing tasks to ensure quality")
  ∨ ((length (filter (λ t, category t = documentation) tasks) =? 0)%nat
     = true
     ∧ r = "Consider adding documentation tasks for better maintainability").
Proof.
  unfold generateRecommendations.
  by rewrite !elem_of_app, !elem_of_if_singleton.
Qed.

Lemma length_filter_pos {A} (P : A → Prop) `{∀ x, Decision (P x)} l :
  (0 < length (filter P l))%nat ↔ ∃ x, x ∈ l ∧ P x.
Proof.
  split.
  - destruct (filter P l) as [|x l'] eqn:E; simpl; [lia|]. intros _.
    assert (x ∈ filter P l) as Hx by (rewrite E; set_solver).
    apply list_elem_of_filter in Hx as [? ?]. eauto.
  - intros (x & Hx & HP).
    assert (x ∈ filter P l) as Hin by (by apply list_elem_of_filter).
    destruct (filter P l); [by apply elem_of_nil in Hin|simpl; lia].
Qed.

(** X17. The documentation advice is given exactly when no task has the
    category documentation. *)
Theorem documentation_recommendation (tasks : list Task) :
  "Consider adding documentation tasks for better maintainability"
    ∈ generateRecommendations tasks
  ↔ ∀ t, t ∈ tasks → category t ≠ documentation.
Proof.
  rewrite elem_of_generateRecommendations. split.
  - intros [[_ Heq]|[[_ Heq]|[[_ Heq]|[[_ Heq]|[Hlen _]]]]];
      [discriminate Heq|discriminate Heq| |discriminate Heq|].
    + apply (f_equal last_ascii) in Heq.
      rewrite last_ascii_app in Heq. discriminate Heq.
    + apply Nat.eqb_eq in Hlen. intros t Ht Hdoc.
      assert (0 < length (filter (λ t, category t = documentation) tasks))%nat
        as Hpos by (apply length_filter_pos; eauto).
      lia.
  - intros Hnone. do 4 right. split; [|done]. apply Nat.eqb_eq.
    destruct (filter _ tasks) as [|t l] eqn:E; [done|exfalso].
    assert (t ∈ filter (λ t, category t = documentation) tasks) as Ht
      by (rewrite E; set_solver).
    apply list_elem_of_filter in Ht as [Hdoc Ht]. by apply (Hnone t).
Qed.

(** X18. The delegation advice is given exactly when the set has junior,
    mid and senior tasks and more senior tasks than junior and mid tasks
    together: a set without a junior task, or without a mid task, never
    gets it, however many senior tasks it has. *)
Theorem delegation_recommendation (tasks : list Task) :
  "Consider delegating some tasks to junior/mid-level developers"
    ∈ generateRecommendations tasks
  ↔ (0 < length (filter (λ t, skillLevel t = junior) tasks)
     ∧ 0 < length (filter (λ t, skillLevel t = mid) tasks)
     ∧ length (filter (λ t, skillLevel t = junior) tasks)
       + length (filter (λ t, skillLevel t = mid) tasks)
       < length (filter (λ t, skillLevel t = senior) tasks))%nat.
Proof.
  assert (senior_heavy tasks = true ↔
          (0 < length (filter (λ t, skillLevel t = junior) tasks)
           ∧ 0 < length (filter (λ t, skillLevel t = mid) tasks)
           ∧ length (filter (λ t, skillLevel t = junior) tasks)
             + length (filter (λ t, skillLevel t = mid) tasks)
             < length (filter (λ t, skillLevel t = senior) tasks))%nat)
    as Hheavy.
  { unfold senior_heavy, skill_count.
    destruct (Nat.ltb_spec 0 (length (filter (λ t, skillLevel t = senior)
                                             tasks)));
      [|split; [done|lia]].
    destruct (Nat.ltb_spec 0 (length (filter (λ t, skillLevel t = junior)
                                             tasks)));
      [|split; [done|lia]].
    destruct (Nat.ltb_spec 0 (length (filter (λ t, skillLevel t = mid)
                                             tasks)));
      [|split; [done|lia]].
    rewrite Nat.ltb_lt. lia. }
  rewrite elem_of_generateRecommendations, <- Hheavy. split.
  - intros [[_ Heq]|[[? _]|[[_ Heq]|[[_ Heq]|[_ Heq]]]]];
      [discriminate Heq|done| |discriminate Heq|discriminate Heq].
    apply (f_equal last_ascii) in Heq.
    rewrite last_ascii_app in Heq. discriminate Heq.
  - intros Hh. right. left. done.
Qed.

(** X19. With unique ids, the count in the advice on parallel starts is
    the number of tasks that the phase assigner puts in phase 1, and the
    advice is given exactly when that number is above 1. *)
Theorem parallel_recommendation_counts_phase_1 (tasks : list Task)
    (fuel : nat) :
  NoDup (map id tasks) → (length tasks < fuel)%nat →
  ∃ out, optimizeTaskExecution fuel tasks = Some out
    ∧ (pretty (length (filter (λ o, phase o = 1%Z) out))
         +:+ " tasks can be started in parallel"
         ∈ generateRecommendations tasks
       ↔ (1 < length (filter (λ o, phase o = 1%Z) out))%nat).
Proof.
  intros Hnd Hfuel.
  destruct (optimizeTaskExecution_returns tasks fuel Hfuel)
    as (st & Hst & -> & Hph).
  eexists. split; [done|].
  destruct (assign_all_more tasks fuel st Hst) as (Hfirst & _).
  rewrite (length_filter_map (λ o, phase o = 1%Z)
             (λ t, dependencies t = [])).
  2:{ intros t Ht. destruct (Hph t Ht) as (p & Hp & ->). symmetry.
      apply (Hfirst (id t) p t Hp). by apply taskMap_of_unique. }
  rewrite elem_of_generateRecommendations. split.
  - intros [[_ Heq]|[[_ Heq]|[[Hlen _]|[[_ Heq]|[_ Heq]]]]].
    + apply (f_equal last_ascii) in Heq.
      rewrite last_ascii_app, last_ascii_app_app in Heq. discriminate Heq.
    + apply (f_equal last_ascii) in Heq.
      rewrite last_ascii_app in Heq. discriminate Heq.
    + by apply Nat.ltb_lt.
    + apply (f_equal last_ascii) in Heq.
      rewrite last_ascii_app in Heq. discriminate Heq.
    + apply (f_equal last_ascii) in Heq.
      rewrite last_ascii_app in Heq. discriminate Heq.
  - intros Hlen. do 2 right. left. split; [by apply Nat.ltb_lt|done].
Qed.

Lemma parallel_recommendation_counts_phase_1_witness :
  NoDup (map id ex_abc)
  ∧ ∃ out, optimizeTaskExecution 4 ex_abc = Some out
      ∧ (pretty (length (filter (λ o, phase o = 1%Z) out))
           +:+ " tasks can be started in parallel"
           ∈ generateRecommendations ex_abc
         ↔ (1 < length (filter (λ o, phase o = 1%Z) out))%nat).
Proof.
  destruct ex_abc_facts as [Hnd _].
  split; [exact Hnd|].
  apply (parallel_recommendation_counts_phase_1 ex_abc 4 Hnd). simpl. lia.
Defined.
